(** * SSINS: the incoherent noise spectrum and the event-brightness script

    A shallow embedding of [SSINS/incoherent_noise_spectrum.py] (class [INS]:
    [__init__], [mean_subtract], [save], [_read]) and of the shape loop of
    [Scripts/Event_Brightness.py], with the properties their specification
    states about them.

    Python objects are attribute maps ([gmap string pyval]); methods run in
    a state-and-exception monad over the object, the module globals and the
    file system.  numpy arrays are a shape with an index function, masked
    arrays have an optional value per entry.  Arithmetic is abstract (class
    [Scalar]); [float64] instantiates it with IEEE binary64. *)

From Stdlib Require Import ZArith List String Bool Lia Floats Uint63.
From Stdlib Require Import Sorted.
From stdpp Require Import gmap strings list fin_maps pretty.

Open Scope string_scope.
Open Scope nat_scope.

(** ** Scalars *)

(** The element type of the arrays with the numpy operations the code uses.
    [div_domain a b] holds when [np.ma.true_divide] masks the quotient
    [a / b] (divisor in the unsafe domain, or a result that is not finite);
    [sqrt_domain a] holds when [np.sqrt] on a masked array masks [sqrt a]. *)
Class Scalar (R : Type) : Type := {
  rzero : R;
  rone : R;
  rpi : R;
  radd : R → R → R;
  rsub : R → R → R;
  rmul : R → R → R;
  rdiv : R → R → R;
  rsqrt : R → R;
  of_int : Z → R;
  div_domain : R → R → bool;
  sqrt_domain : R → bool
}.

(** IEEE binary64, the dtype of the arrays. *)
Module F64.
Definition isfinite (x : float) : bool := PrimFloat.ltb (PrimFloat.abs x) infinity.
(** [np.finfo(float).tiny], the tolerance of numpy's safe division. *)
Definition tiny : float := 0x1p-1022%float.
Definition np_pi : float := 0x1.921fb54442d18p+1%float.
Definition of_Z (z : Z) : float :=
  match z with
  | Z0 => 0%float
  | Zpos _ => PrimFloat.of_uint63 (Uint63.of_Z z)
  | Zneg _ => PrimFloat.opp (PrimFloat.of_uint63 (Uint63.of_Z (Z.opp z)))
  end.
(** [~isfinite(a / b) | (|a| * tiny >= |b|)] *)
Definition div_masks (a b : float) : bool :=
  negb (isfinite (PrimFloat.div a b))
  || PrimFloat.leb (PrimFloat.abs b) (PrimFloat.mul (PrimFloat.abs a) tiny).
Definition sqrt_masks (a : float) : bool := PrimFloat.ltb a 0%float.
End F64.

#[export] Instance float64 : Scalar float := {|
  rzero := 0%float;
  rone := 1%float;
  rpi := F64.np_pi;
  radd := PrimFloat.add;
  rsub := PrimFloat.sub;
  rmul := PrimFloat.mul;
  rdiv := PrimFloat.div;
  rsqrt := PrimFloat.sqrt;
  of_int := F64.of_Z;
  div_domain := F64.div_masks;
  sqrt_domain := F64.sqrt_masks
|}.

(** ** Exceptions *)

Inductive pyexc : Type :=
| AttributeError (attr : string)
| NameError (name : string)
| AssertionError (msg : string)
| TypeError
| ValueError
| IndexError
| AxisError
| KeyError (key : string)
| IOError (path : string).

Inductive res (A : Type) : Type :=
| Ok (a : A)
| Raise (e : pyexc).
Arguments Ok {A} a.
Arguments Raise {A} e.

Definition res_bind {A B} (r : res A) (k : A → res B) : res B :=
  match r with
  | Ok a => k a
  | Raise e => Raise e
  end.

(** ** Slices and arrays *)

(** [slice(start, stop)] with non-negative bounds and step 1;
    [slice(None)] is [slice_all]. *)
Record pyslice : Type := { sl_start : option nat; sl_stop : option nat }.

Definition slice_all : pyslice := {| sl_start := None; sl_stop := None |}.

Definition slice_lo (s : pyslice) (n : nat) : nat := Nat.min (default 0 (sl_start s)) n.
Definition slice_hi (s : pyslice) (n : nat) : nat := Nat.min (default n (sl_stop s)) n.
Definition slice_len (s : pyslice) (n : nat) : nat := slice_hi s n - slice_lo s n.

(** A numpy array with the four axes of the spectrum: time, spectral window,
    frequency, polarization.  An array of lower rank is held with leading
    axes of length 1, the way broadcasting aligns it. *)
Record ndarray (A : Type) : Type := {
  dim0 : nat;
  dim1 : nat;
  dim2 : nat;
  dim3 : nat;
  nd_at : nat → nat → nat → nat → A
}.
Arguments dim0 {A} _.
Arguments dim1 {A} _.
Arguments dim2 {A} _.
Arguments dim3 {A} _.
Arguments nd_at {A} _ _ _ _ _.

Definition nd_map {A B} (g : A → B) (a : ndarray A) : ndarray B :=
  {| dim0 := dim0 a; dim1 := dim1 a; dim2 := dim2 a; dim3 := dim3 a;
     nd_at := λ t s c p, g (nd_at a t s c p) |}.

(** [a[:, :, f]] *)
Definition nd_slice2 {A} (f : pyslice) (a : ndarray A) : ndarray A :=
  {| dim0 := dim0 a; dim1 := dim1 a; dim2 := slice_len f (dim2 a); dim3 := dim3 a;
     nd_at := λ t s c p, nd_at a t s (slice_lo f (dim2 a) + c) p |}.

(** Broadcasting of two axes lengths. *)
Definition bdim (a b : nat) : option nat :=
  if a =? b then Some a
  else if a =? 1 then Some b
  else if b =? 1 then Some a
  else None.

Definition bidx (d i : nat) : nat := if d =? 1 then 0 else i.

(** An element-wise binary operation under numpy's broadcasting rules. *)
Definition broadcast2 {A B C} (op : A → B → C) (x : ndarray A) (y : ndarray B)
  : res (ndarray C) :=
  match bdim (dim0 x) (dim0 y), bdim (dim1 x) (dim1 y),
        bdim (dim2 x) (dim2 y), bdim (dim3 x) (dim3 y) with
  | Some d0, Some d1, Some d2, Some d3 =>
      Ok {| dim0 := d0; dim1 := d1; dim2 := d2; dim3 := d3;
            nd_at := λ t s c p,
              op (nd_at x (bidx (dim0 x) t) (bidx (dim1 x) s) (bidx (dim2 x) c) (bidx (dim3 x) p))
                 (nd_at y (bidx (dim0 y) t) (bidx (dim1 y) s) (bidx (dim2 y) c) (bidx (dim3 y) p)) |}
  | _, _, _, _ => Raise ValueError
  end.

Definition in_shape {A} (a : ndarray A) (t s c p : nat) : Prop :=
  t < dim0 a ∧ s < dim1 a ∧ c < dim2 a ∧ p < dim3 a.

Definition same_shape {A B} (a : ndarray A) (b : ndarray B) : Prop :=
  dim0 a = dim0 b ∧ dim1 a = dim1 b ∧ dim2 a = dim2 b ∧ dim3 a = dim3 b.

Section Numeric.

Context {R : Type} {SC : Scalar R}.

(** ** Masked scalars

    An entry of a masked array: [None] is a masked entry.  The payload numpy
    keeps under a mask is not observable through the mask-respecting
    operations of [mean_subtract] and is not modelled. *)

(** [np.ma.true_divide] on one entry. *)
Definition el_div (a b : option R) : option R :=
  match a, b with
  | Some x, Some y => if div_domain x y then None else Some (rdiv x y)
  | _, _ => None
  end.

(** [np.ma.subtract] and [np.ma.multiply] on one entry. *)
Definition el_sub (a b : option R) : option R :=
  match a, b with
  | Some x, Some y => Some (rsub x y)
  | _, _ => None
  end.

Definition el_mul (a b : option R) : option R :=
  match a, b with
  | Some x, Some y => Some (rmul x y)
  | _, _ => None
  end.

(** [np.sqrt] on one entry of a masked array. *)
Definition el_sqrt (a : option R) : option R :=
  match a with
  | Some x => if sqrt_domain x then None else Some (rsqrt x)
  | None => None
  end.

Definition is_masked (a : option R) : bool :=
  match a with
  | Some _ => false
  | None => true
  end.

(** [C = 4 / np.pi - 1] *)
Definition rayleigh_C : R := rsub (rdiv (of_int 4) rpi) rone.

Definition rsum (l : list R) : R := fold_left radd l rzero.

(** ** Masked arrays *)

(** A [numpy.ma.MaskedArray]: either its mask is [nomask], or it has a mask
    array of its shape. *)
Inductive marray : Type :=
| NoMask (d : ndarray R)
| Masked (d : ndarray (option R)).

Definition ma_elems (m : marray) : ndarray (option R) :=
  match m with
  | NoMask d => nd_map Some d
  | Masked d => d
  end.

Definition ma_get (m : marray) (t s c p : nat) : option R := nd_at (ma_elems m) t s c p.

Definition has_mask (m : marray) : bool :=
  match m with
  | NoMask _ => false
  | Masked _ => true
  end.

(** [m[:, :, f]] *)
Definition ma_slice2 (f : pyslice) (m : marray) : marray :=
  match m with
  | NoMask d => NoMask (nd_slice2 f d)
  | Masked d => Masked (nd_slice2 f d)
  end.

(** The entries of one (window, channel, polarization) position along the
    time axis. *)
Definition time_column (d : ndarray (option R)) (s c p : nat) : list (option R) :=
  map (λ t, nd_at d t s c p) (seq 0 (dim0 d)).

(** [MaskedArray.mean(axis=0)] at one position.  Without a mask it is the
    plain mean.  With a mask, [dsum = self.sum(axis=0)] adds the entries with
    the masked ones filled by 0 and is masked where the whole column is,
    [cnt = self.count(axis=0)], and the result is [dsum * 1. / cnt]. *)
Definition column_mean (masked : bool) (col : list (option R)) : option R :=
  if masked then
    let dsum := if forallb is_masked col then None
                else Some (rsum (map (default rzero) col)) in
    let cnt := length (List.filter (λ e, negb (is_masked e)) col) in
    el_div (el_mul dsum (Some rone)) (Some (of_int (Z.of_nat cnt)))
  else
    Some (rdiv (rsum (map (default rzero) col)) (of_int (Z.of_nat (length col)))).

Definition ma_mean0 (m : marray) : marray :=
  let d := ma_elems m in
  let mean := {| dim0 := 1; dim1 := dim1 d; dim2 := dim2 d; dim3 := dim3 d;
                 nd_at := λ _ s c p, column_mean (has_mask m) (time_column d s c p) |} in
  match m with
  | NoMask _ => NoMask (nd_map (default rzero) mean)
  | Masked _ => Masked mean
  end.

(** [a / b]: a domained operation, its result always has a mask array. *)
Definition ma_true_divide (a b : marray) : res marray :=
  res_bind (broadcast2 el_div (ma_elems a) (ma_elems b)) (λ d, Ok (Masked d)).

(** [a * b]: the mask of the result is [nomask] when both masks are. *)
Definition ma_multiply (a b : marray) : res marray :=
  match a, b with
  | NoMask x, NoMask y => res_bind (broadcast2 rmul x y) (λ d, Ok (NoMask d))
  | _, _ => res_bind (broadcast2 el_mul (ma_elems a) (ma_elems b)) (λ d, Ok (Masked d))
  end.

(** [a - x] and [a / x] for a Python scalar [x]. *)
Definition ma_sub_scalar (a : marray) (x : R) : marray :=
  match a with
  | NoMask d => NoMask (nd_map (λ v, rsub v x) d)
  | Masked d => Masked (nd_map (λ e, el_sub e (Some x)) d)
  end.

Definition ma_div_scalar (a : marray) (x : R) : marray :=
  Masked (nd_map (λ e, el_div e (Some x)) (ma_elems a)).

(** [np.sqrt(a)] *)
Definition ma_sqrt (a : marray) : marray := Masked (nd_map el_sqrt (ma_elems a)).

(** [np.zeros_like(a)]: zeros under a copy of the mask of [a]. *)
Definition ma_zeros_like (a : marray) : marray :=
  match a with
  | NoMask d => NoMask (nd_map (λ _, rzero) d)
  | Masked d => Masked (nd_map (λ e, match e with Some _ => Some rzero | None => None end) d)
  end.

(** ** Python values, the world and the method monad *)

(** The values the attributes of an [INS] object hold.  [VArr] is a plain
    [numpy.ndarray] (histogram counts, bin edges, frequencies), [VMa] a
    masked array, [VList] a list or a tuple. *)
#[warnings="-register-all"]
Inductive pyval : Type :=
| VNone
| VBool (b : bool)
| VInt (z : Z)
| VStr (s : string)
| VList (l : list pyval)
| VArr (a : list R)
| VMa (m : marray).

(** What a file holds: nothing yet (opened for writing), a pickle, or a
    [.npy] array. *)
Inductive fcontent : Type :=
| EmptyFile
| Pickled (v : pyval)
| Npy (v : pyval).

(** The state a method runs in: the attributes of [self], the variables
    bound at module level, the directories and files of the file system, and
    the warnings emitted so far (latest first). *)
Record world : Type := {
  w_self : gmap string pyval;
  w_globals : gmap string pyval;
  w_dirs : gset string;
  w_files : gmap string fcontent;
  w_warnings : list string
}.

(** The module binds [np], [erfcinv], [os], [warnings], [pickle], [UVFlag]
    and [INS]; the model calls what they name directly.  It binds no
    variable: the names a method reads without assigning them are not
    defined. *)
Definition module_globals : gmap string pyval := ∅.

Definition set_self (s : gmap string pyval) (w : world) : world :=
  {| w_self := s; w_globals := w_globals w; w_dirs := w_dirs w;
     w_files := w_files w; w_warnings := w_warnings w |}.

Definition set_dirs (d : gset string) (w : world) : world :=
  {| w_self := w_self w; w_globals := w_globals w; w_dirs := d;
     w_files := w_files w; w_warnings := w_warnings w |}.

Definition set_files (fs : gmap string fcontent) (w : world) : world :=
  {| w_self := w_self w; w_globals := w_globals w; w_dirs := w_dirs w;
     w_files := fs; w_warnings := w_warnings w |}.

Definition set_warnings (ws : list string) (w : world) : world :=
  {| w_self := w_self w; w_globals := w_globals w; w_dirs := w_dirs w;
     w_files := w_files w; w_warnings := ws |}.

Definition M (A : Type) : Type := world → res A * world.

#[export] Instance M_ret : MRet M := λ A a w, (Ok a, w).

#[export] Instance M_bind : MBind M := λ A B k m w,
  match m w with
  | (Ok a, w') => k a w'
  | (Raise e, w') => (Raise e, w')
  end.

Definition raise {A} (e : pyexc) : M A := λ w, (Raise e, w).

Definition lift {A} (r : res A) : M A := λ w, (r, w).

(** [getattr(self, name)], [hasattr(self, name)], [setattr(self, name, v)] *)
Definition getattr (name : string) : M pyval := λ w,
  match w_self w !! name with
  | Some v => (Ok v, w)
  | None => (Raise (AttributeError name), w)
  end.

Definition hasattr (name : string) : M bool := λ w,
  (Ok (bool_decide (is_Some (w_self w !! name))), w).

Definition setattr (name : string) (v : pyval) : M unit := λ w,
  (Ok tt, set_self (<[name := v]> (w_self w)) w).

(** Reading a variable that is not local to the method. *)
Definition load_global (name : string) : M pyval := λ w,
  match w_globals w !! name with
  | Some v => (Ok v, w)
  | None => (Raise (NameError name), w)
  end.

(** [warnings.warn(msg)] *)
Definition warn (msg : string) : M unit := λ w,
  (Ok tt, set_warnings (msg :: w_warnings w) w).

(** [os.path.exists(path)] and [os.makedirs(path)] *)
Definition path_exists (path : string) : M bool := λ w,
  (Ok (bool_decide (path ∈ w_dirs w) || bool_decide (is_Some (w_files w !! path))), w).

Definition makedirs (path : string) : M unit := λ w,
  (Ok tt, set_dirs ({[path]} ∪ w_dirs w) w).

Definition put_file (path : string) (c : fcontent) : M unit := λ w,
  (Ok tt, set_files (<[path := c]> (w_files w)) w).

(** [open(path, 'wb')] creates or truncates the file. *)
Definition open_wb (path : string) : M unit := put_file path EmptyFile.

(** [pickle.dump(v, file)] on the file just opened at [path] *)
Definition pickle_dump (v : pyval) (path : string) : M unit := put_file path (Pickled v).

(** [np.save(path, v)] *)
Definition np_save (path : string) (v : pyval) : M unit := put_file path (Npy v).

(** [np.load(path)]: reads a [.npy] array or, failing that, a pickle. *)
Definition np_load (path : string) : M pyval := λ w,
  match w_files w !! path with
  | Some (Pickled v) | Some (Npy v) => (Ok v, w)
  | Some EmptyFile | None => (Raise (IOError path), w)
  end.

(** [for x in l: body x] *)
Fixpoint foreach {A} (l : list A) (body : A → M unit) : M unit :=
  match l with
  | [] => mret tt
  | x :: l' => body x ≫= λ _, foreach l' body
  end.

(** A loop that updates one local variable. *)
Fixpoint foldM {A B} (body : B → A → M B) (l : list A) (acc : B) : M B :=
  match l with
  | [] => mret acc
  | x :: l' => body acc x ≫= foldM body l'
  end.

(** Truth value of an object, as [if] and [not] take it.  numpy refuses
    the truth value of an array with more than one element; an array of at
    most one element, whose truth needs a zero test on its entry, is not
    told apart from it. *)
Definition truthy (v : pyval) : res bool :=
  match v with
  | VNone => Ok false
  | VBool b => Ok b
  | VInt z => Ok (negb (Z.eqb z 0))
  | VStr s => Ok (negb (String.eqb s ""))
  | VList l => Ok (negb (Nat.eqb (length l) 0))
  | VArr _ | VMa _ => Raise ValueError
  end.

(** [a.shape[0]] for a masked array, [len] otherwise *)
Definition py_len (v : pyval) : res nat :=
  match v with
  | VStr s => Ok (String.length s)
  | VList l => Ok (length l)
  | VArr a => Ok (length a)
  | VMa m => Ok (dim0 (ma_elems m))
  | VNone | VBool _ | VInt _ => Raise TypeError
  end.

(** [if v:] *)
Definition test (v : pyval) : M bool := lift (truthy v).

(** The operand of [v[:, :, f]] and [v[:, 0, f, i]]: a masked array of four
    axes.  A one-dimensional array has too few axes for the index, the other
    values cannot be indexed by a tuple at all. *)
Definition as_ma (v : pyval) : res marray :=
  match v with
  | VMa m => Ok m
  | VArr _ => Raise IndexError
  | _ => Raise TypeError
  end.

(** The degree as [np.polyfit], [range] and [%i] take it: an integer, a
    Boolean counting as 0 or 1.  Any other value raises; which exception a
    string raises depends on its text and on the caller, it is taken to be
    [TypeError] like the others. *)
Definition as_int (v : pyval) : res Z :=
  match v with
  | VInt z => Ok z
  | VBool b => Ok (if b then 1%Z else 0%Z)
  | _ => Raise TypeError
  end.

(** ** The polynomial path of [mean_subtract]: channels and mask groups *)

(** Column [c] of [y = self.data[:, 0, f, i]] along the time axis. *)
Definition chan_column (d : ndarray (option R)) (f : pyslice) (i c : nat) : list (option R) :=
  map (λ t, nd_at d t 0 (slice_lo f (dim2 d) + c) i) (seq 0 (dim0 d)).

(** [good_chans = np.where(np.logical_not(np.all(y.mask, axis=0)))[0]] *)
Definition good_chans (d : ndarray (option R)) (f : pyslice) (i : nat) : list nat :=
  List.filter (λ c, negb (forallb is_masked (chan_column d f i c)))
              (seq 0 (slice_len f (dim2 d))).

(** The mask of one column of [good_data = y[:, good_chans]]. *)
Definition chan_mask (d : ndarray (option R)) (f : pyslice) (i c : nat) : list bool :=
  map is_masked (chan_column d f i c).

(** The order [np.unique] sorts the columns in: lexicographic, [False]
    before [True]. *)
Fixpoint mask_ltb (a b : list bool) : bool :=
  match a, b with
  | [], [] => false
  | [], _ :: _ => true
  | _ :: _, [] => false
  | x :: a', y :: b' => if Bool.eqb x y then mask_ltb a' b' else negb x
  end.

Fixpoint insert_mask (m : list bool) (l : list (list bool)) : list (list bool) :=
  match l with
  | [] => [m]
  | h :: l' =>
      if bool_decide (m = h) then l
      else if mask_ltb m h then m :: l
      else h :: insert_mask m l'
  end.

(** [np.unique(masks, axis=1, return_inverse=True)]: the distinct columns in
    sorted order, and for a column its position among them. *)
Definition unique_masks (cols : list (list bool)) : list (list bool) :=
  fold_right insert_mask [] cols.

Fixpoint mask_index (u : list (list bool)) (m : list bool) : nat :=
  match u with
  | [] => 0
  | h :: u' => if bool_decide (m = h) then 0 else S (mask_index u' m)
  end.

(** [chans = np.where(mask_inv == k)[0]]: positions in [good_chans]. *)
Definition group_chans (d : ndarray (option R)) (f : pyslice) (i : nat)
    (good : list nat) (uniq : list (list bool)) (k : nat) : list nat :=
  List.filter (λ j, mask_index uniq (chan_mask d f i (nth j good 0)) =? k)
              (seq 0 (length good)).

(** [np.polyfit(x, y, deg)] on unmasked data: [x] the abscissae, [y] given by
    its columns, the result indexed by power (highest first) and column.
    It is numpy's least-squares routine, outside this repository. *)
Variable np_polyfit : list R → list (list R) → Z → res (nat → nat → R).

(** [str(v)] for a container or an array, numpy's and Python's business. *)
Variable py_repr : pyval → string.

(** [np.ma.polyfit(x, y, deg)] for a two-dimensional [y]: the rows in which
    any column is masked are dropped ([mask_rows]) from [x] and [y], the
    rest goes to [np.polyfit]. *)
Definition ma_polyfit (x : list Z) (ycols : list (list (option R))) (deg : pyval)
  : res (nat → nat → R) :=
  let keep := λ t, forallb (λ col, negb (is_masked (nth t col None))) ycols in
  let rows := List.filter keep (seq 0 (length x)) in
  res_bind (as_int deg) (λ degz,
    np_polyfit (map (λ t, of_int (nth t x 0%Z)) rows)
               (map (λ col, map (λ t, default rzero (nth t col None)) rows) ycols)
               degz).

(** [np.sum(arrays, axis=0)] on one entry: the terms added left to right. *)
Definition reduce_add (l : list R) : R :=
  match l with
  | [] => rzero
  | h :: l' => fold_left radd l' h
  end.

(** [mu = np.sum([np.outer(x**(order - k), coeff[k]) for k in range(order + 1)], axis=0)]
    at time index [t] (abscissa [x = t + 1]) and column [j]. *)
Definition poly_mu (order : Z) (coeff : nat → nat → R) (t j : nat) : R :=
  reduce_add (map (λ k, rmul (of_int (Z.of_nat (t + 1) ^ (order - Z.of_nat k))) (coeff k j))
                  (seq 0 (Z.to_nat (order + 1)))).

(** The entry at time [t], column [j] of
    [(good_data[:, chans] / mu - 1) * np.sqrt(Nbls[:, 0, f, i][:, good_chans[chans]] / C)],
    where [idxs = good_chans[chans]]. *)
Definition group_ms (d nb : ndarray (option R)) (f : pyslice) (i : nat) (idxs : list nat)
    (mu : nat → nat → R) (t j : nat) : option R :=
  let c := nth j idxs 0 in
  el_mul (el_sub (el_div (nd_at d t 0 (slice_lo f (dim2 d) + c) i) (Some (mu t j))) (Some rone))
         (el_sqrt (el_div (nd_at nb (bidx (dim0 nb) t) 0 (slice_lo f (dim2 nb) + c) i)
                          (Some rayleigh_C))).

Fixpoint index_of (c : nat) (l : list nat) : option nat :=
  match l with
  | [] => None
  | h :: l' => if c =? h then Some 0 else option_map S (index_of c l')
  end.

(** [MS[:, 0, idxs, i] = v].  The index list never repeats a channel. *)
Definition ma_setitem (ms : marray) (i : nat) (idxs : list nat) (v : nat → nat → option R)
  : marray :=
  let d := ma_elems ms in
  Masked {| dim0 := dim0 d; dim1 := dim1 d; dim2 := dim2 d; dim3 := dim3 d;
            nd_at := λ t s c p,
              if (s =? 0) && (p =? i) then
                match index_of c idxs with
                | Some j => v t j
                | None => nd_at d t s c p
                end
              else nd_at d t s c p |}.

(** [str(v)], as the [%s] conversion takes it. *)
Definition py_str (v : pyval) : string :=
  match v with
  | VNone => "None"
  | VBool b => if b then "True" else "False"
  | VInt z => pretty z
  | VStr s => s
  | _ => py_repr v
  end.

(** [self.pols[i]] *)
Definition subscript (v : pyval) (i : nat) : res pyval :=
  match v with
  | VList l =>
      match l !! i with
      | Some e => Ok e
      | None => Raise IndexError
      end
  | VStr s =>
      if i <? String.length s then Ok (VStr (String.substring i 1 s)) else Raise IndexError
  | _ => Raise TypeError
  end.

(** The pickled coefficient array, one row per power. *)
Definition coeff_value (order : Z) (ncols : nat) (coeff : nat → nat → R) : pyval :=
  VList (map (λ k, VArr (map (coeff k) (seq 0 ncols))) (seq 0 (Z.to_nat (order + 1)))).

(** ** [INS.mean_subtract]

    An attribute that one statement reads several times is read once:
    nothing assigns to [self] in between. *)

(** The file of the coefficients of polarization [i]:
    ['%s/%s_ms_poly_coeff_order_%i_%s.npy' % (self.outpath, self.obs, self.order, self.pols[i])],
    opened for writing and filled by [pickle.dump(coeff, file)]. *)
Definition write_coeff (i ncols : nat) (coeff : nat → nat → R) : M unit :=
  outpath ← getattr "outpath";
  obs ← getattr "obs";
  ordv ← getattr "order";
  pols ← getattr "pols";
  pol ← lift (subscript pols i);
  ordz ← lift (as_int ordv);
  let path := py_str outpath ++ "/" ++ py_str obs ++ "_ms_poly_coeff_order_"
              ++ pretty ordz ++ "_" ++ py_str pol ++ ".npy" in
  open_wb path;;
  pickle_dump (coeff_value ordz ncols coeff) path.

(** The statements of the body of [for k in range(unique_masks.shape[1])]
    that follow [chans], for the channels [idxs = good_chans[chans]] of the
    group and polarization [i]. *)
Definition fit_columns (f : pyslice) (i : nat) (d : ndarray (option R)) (idxs : list nat)
    (MS : marray) : M marray :=
  let x := map (λ t, Z.of_nat (t + 1)) (seq 0 (dim0 d)) in
  ordv ← getattr "order";
  coeff ← lift (ma_polyfit x (map (chan_column d f i) idxs) ordv);
  cw ← load_global "coeff_write";
  cwb ← test cw;
  (if cwb : bool then write_coeff i (length idxs) coeff else mret tt);;
  ordz ← lift (as_int ordv);
  let mu := poly_mu ordz coeff in
  nbv ← getattr "Nbls";
  nbm ← lift (as_ma nbv);
  let nb := ma_elems nbm in
  if (dim1 nb =? 0) || (dim3 nb <=? i)
     || negb (forallb (λ c, c <? slice_len f (dim2 nb)) idxs) then raise IndexError
  else if negb ((dim0 nb =? dim0 d) || (dim0 nb =? 1)) then raise ValueError
  else mret (ma_setitem MS i idxs (group_ms d nb f i idxs mu)).

(** The body of [for k in range(unique_masks.shape[1])] for polarization [i]. *)
Definition fit_group (f : pyslice) (i : nat) (d : ndarray (option R)) (good : list nat)
    (uniq : list (list bool)) (MS : marray) (k : nat) : M marray :=
  let chans := group_chans d f i good uniq k in
  fit_columns f i d (map (λ j, nth j good 0) chans) MS.

(** The body of [for i in range(self.data.shape[-1])]. *)
Definition fit_pol (f : pyslice) (MS : marray) (i : nat) : M marray :=
  datav ← getattr "data";
  data ← lift (as_ma datav);
  let d := ma_elems data in
  if dim1 d =? 0 then raise IndexError
  else if negb (has_mask data) then raise AxisError
  else
    let good := good_chans d f i in
    let uniq := unique_masks (map (chan_mask d f i) good) in
    foldM (fit_group f i d good uniq) (seq 0 (length uniq)) MS.

(** [INS.mean_subtract(self, f)]: the mean path for an order that tests
    false, the polynomial path otherwise. *)
Definition mean_subtract (f : pyslice) : M marray :=
  let C := rayleigh_C in
  ordv ← getattr "order";
  nonzero ← test ordv;
  if negb nonzero then
    datav ← getattr "data";
    data ← lift (as_ma datav);
    let sliced := ma_slice2 f data in
    quot ← lift (ma_true_divide sliced (ma_mean0 sliced));
    nbv ← getattr "Nbls";
    nbls ← lift (as_ma nbv);
    lift (ma_multiply (ma_sub_scalar quot rone)
                      (ma_sqrt (ma_div_scalar (ma_slice2 f nbls) C)))
  else
    datav ← getattr "data";
    data ← lift (as_ma datav);
    let MS := ma_zeros_like (ma_slice2 f data) in
    foldM (fit_pol f) (seq 0 (dim3 (ma_elems data))) MS.

(** *** The fit of each channel by itself

    Following the specification ("fitting each channel independently with
    the same data and order"): the polynomial path with every good channel
    fitted alone, in place of the groups of channels that share a mask. *)
Definition fit_pol_per_channel (f : pyslice) (MS : marray) (i : nat) : M marray :=
  datav ← getattr "data";
  data ← lift (as_ma datav);
  let d := ma_elems data in
  if dim1 d =? 0 then raise IndexError
  else if negb (has_mask data) then raise AxisError
  else foldM (λ MS c, fit_columns f i d [c] MS) (good_chans d f i) MS.

Definition mean_subtract_per_channel (f : pyslice) : M marray :=
  datav ← getattr "data";
  data ← lift (as_ma datav);
  let MS := ma_zeros_like (ma_slice2 f data) in
  foldM (fit_pol_per_channel f) (seq 0 (dim3 (ma_elems data))) MS.

(** ** [INS.__init__]

    [uvflag_setup] stands for the lines before [self.order = order]: the
    constructor of [UVFlag] and, for a baseline-type object, its
    [to_waterfall]; both belong to [hera_qm]. *)
Variable uvflag_setup : pyval → M unit.

Definition INS_init (input : pyval) (order : pyval) : M unit :=
  uvflag_setup input;;
  setattr "order" order;;
  ms ← mean_subtract slice_all;
  setattr "metric_ms" (VMa ms).

(** ** [INS.save] *)

(** [tag += '_%s' % subtag] when [len(getattr(self, '%s_events' % subtag))] *)
Definition add_subtag (tag : string) (subtag : string) : M string :=
  events ← getattr (subtag ++ "_events");
  n ← lift (py_len events);
  mret (if n =? 0 then tag else tag ++ "_" ++ subtag).

(** [if not os.path.exists('%s/%s' % (self.outpath, string)): os.makedirs(...)] *)
Definition save_dir (subdir : string) : M unit :=
  outpath ← getattr "outpath";
  present ← path_exists (py_str outpath ++ "/" ++ subdir);
  if negb present then
    outpath' ← getattr "outpath";
    makedirs (py_str outpath' ++ "/" ++ subdir)
  else mret tt.

Definition arr_path (outpath obs flag_choice : pyval) (attr tag ext : string) : string :=
  py_str outpath ++ "/arrs/" ++ py_str obs ++ "_" ++ py_str flag_choice ++ "_INS_"
  ++ attr ++ tag ++ ext.

(** The body of [for attr in ['data', 'data_ms', 'Nbls']]: the file is
    opened before the attribute is read. *)
Definition save_masked (tag : string) (attr : string) : M unit :=
  outpath ← getattr "outpath";
  obs ← getattr "obs";
  flag_choice ← getattr "flag_choice";
  let path := arr_path outpath obs flag_choice attr tag ".npym" in
  open_wb path;;
  v ← getattr attr;
  pickle_dump v path.

(** The body of [for attr in ['counts', 'bins']]: the attribute is read
    before [np.save] is called. *)
Definition save_hist (tag : string) (attr : string) : M unit :=
  outpath ← getattr "outpath";
  obs ← getattr "obs";
  flag_choice ← getattr "flag_choice";
  v ← getattr attr;
  np_save (arr_path outpath obs flag_choice attr tag ".npy") v.

Definition meta_path (outpath obs : pyval) (attr : string) : string :=
  py_str outpath ++ "/metadata/" ++ py_str obs ++ "_" ++ attr ++ ".npy".

(** The body of [for attr in ['freq_array', 'pols', 'vis_units']] *)
Definition save_meta (attr : string) : M unit :=
  present ← hasattr attr;
  if present : bool then
    outpath ← getattr "outpath";
    obs ← getattr "obs";
    v ← getattr attr;
    np_save (meta_path outpath obs attr) v
  else mret tt.

Definition save (sig_thresh : pyval) : M unit :=
  let tags := ["match"; "chisq"; "samp_thresh"] in
  let tag := "" in
  let tag := match sig_thresh with
             | VNone => tag
             | _ => tag ++ "_" ++ py_str sig_thresh
             end in
  tag ← foldM add_subtag tags tag;
  foreach ["arrs"; "metadata"] save_dir;;
  foreach ["data"; "data_ms"; "Nbls"] (save_masked tag);;
  foreach ["counts"; "bins"] (save_hist tag);;
  foreach ["freq_array"; "pols"; "vis_units"] save_meta.


(** ** [INS._read] *)

Definition required_msg (arg : string) : string :=
  "You must supply a path to a numpy loadable " ++ arg ++ " file for read_paths entry".

(** The message of the warning; the literal continues over a line break
    and keeps the indentation of its second line. *)
Definition optional_msg (attr : string) : string :=
  "In order to use Catalog_Plot.py, please supply"
  ++ "                               path to numpy loadable "
  ++ attr ++ " attribute for read_paths entry".

(** The body of [for arg in ['data', 'Nbls', 'freq_array']] *)
Definition read_required (read_paths : gmap string string) (arg : string) : M unit :=
  match read_paths !! arg with
  | None => raise (AssertionError (required_msg arg))
  | Some path =>
      v ← np_load path;
      setattr arg v
  end.

(** [if not len(self.data.mask.shape): data.mask = np.zeros(self.data.shape, dtype=bool)].
    The mask of an array without one is the scalar [nomask], of shape [()].
    The target of the assignment is the variable [data], not [self.data];
    were it bound, its attribute would be set and [self] left as it is. *)
Definition read_fix_mask : M unit :=
  datav ← getattr "data";
  match datav with
  | VMa m =>
      if negb (has_mask m) then
        _ ← load_global "data";
        mret tt
      else mret tt
  | _ => raise (AttributeError "mask")
  end.

(** The body of [for attr in ['pols', 'vis_units']] *)
Definition read_optional (read_paths : gmap string string) (attr : string) : M unit :=
  match read_paths !! attr with
  | None => warn (optional_msg attr)
  | Some path =>
      v ← np_load path;
      setattr attr v
  end.

Definition _read (read_paths : gmap string string) : M unit :=
  foreach ["data"; "Nbls"; "freq_array"] (read_required read_paths);;
  read_fix_mask;;
  foreach ["pols"; "vis_units"] (read_optional read_paths).

End Numeric.

Arguments marray : clear implicits.
Arguments pyval : clear implicits.
Arguments fcontent : clear implicits.
Arguments world : clear implicits.
Arguments M : clear implicits.

(** ** Concrete arrays *)

(** An array from its nested list of entries ([dflt] outside the shape). *)
Definition nd_of_lists {A} (dflt : A) (l : list (list (list (list A)))) : ndarray A :=
  {| dim0 := length l;
     dim1 := length (nth 0 l []);
     dim2 := length (nth 0 (nth 0 l []) []);
     dim3 := length (nth 0 (nth 0 (nth 0 l []) []) []);
     nd_at := λ t s c p, nth p (nth c (nth s (nth t l []) []) []) dflt |}.

(** ** [Scripts/Event_Brightness.py]: the loop over the shapes *)

Module Brightness.

(** The objects match events are made of: integers, strings, slices and
    tuples. *)
#[warnings="-register-all"]
Inductive pyobj : Type :=
| OInt (n : Z)
| OStr (s : string)
| OSlice (lo hi : Z)
| OTuple (l : list pyobj).

(** [a == b]: by value for objects of one type, [False] across types. *)
Fixpoint py_eq (a b : pyobj) : bool :=
  match a, b with
  | OInt x, OInt y => Z.eqb x y
  | OStr x, OStr y => String.eqb x y
  | OSlice lo hi, OSlice lo' hi' => Z.eqb lo lo' && Z.eqb hi hi'
  | OTuple l, OTuple l' =>
      (fix all_eq (l l' : list pyobj) : bool :=
         match l, l' with
         | [], [] => true
         | x :: l, y :: l' => py_eq x y && all_eq l l'
         | _, _ => false
         end) l l'
  | _, _ => false
  end.

(** [event[-1]] *)
Definition last_item (e : pyobj) : res pyobj :=
  match e with
  | OTuple l =>
      match l with
      | [] => Raise IndexError
      | _ => Ok (List.last l (OInt 0))
      end
  | OStr s =>
      match String.length s with
      | 0 => Raise IndexError
      | S n => Ok (OStr (String.substring n 1 s))
      end
  | _ => Raise TypeError
  end.

(** [event[:-1]] *)
Definition but_last (e : pyobj) : res pyobj :=
  match e with
  | OTuple l => Ok (OTuple (removelast l))
  | OStr s => Ok (OStr (String.substring 0 (String.length s - 1) s))
  | _ => Raise TypeError
  end.

(** [event[0]] *)
Definition first_item (e : pyobj) : res pyobj :=
  match e with
  | OTuple l =>
      match l with
      | [] => Raise IndexError
      | t :: _ => Ok t
      end
  | OStr s =>
      match String.length s with
      | 0 => Raise IndexError
      | S _ => Ok (OStr (String.substring 0 1 s))
      end
  | _ => Raise TypeError
  end.

(** [shape[-1]] for the string [shape] *)
Definition last_char (shape : string) : res string :=
  match String.length shape with
  | 0 => Raise IndexError
  | S n => Ok (String.substring n 1 shape)
  end.

(** [[g x for x in l]] where [g] may raise *)
Fixpoint map_res {A B} (g : A → res B) (l : list A) : res (list B) :=
  match l with
  | [] => Ok []
  | x :: l' => res_bind (g x) (λ y, res_bind (map_res g l') (λ ys, Ok (y :: ys)))
  end.

(** [[event[:-1] for event in match_events if key(event) == name]] *)
Fixpoint select (key : pyobj → res pyobj) (name : string) (match_events : list pyobj)
  : res (list pyobj) :=
  match match_events with
  | [] => Ok []
  | event :: rest =>
      res_bind (key event) (λ k,
        if py_eq k (OStr name) then
          res_bind (but_last event) (λ e,
            res_bind (select key name rest) (λ es, Ok (e :: es)))
        else select key name rest)
  end.

(** [events = [event[:-1] for event in ins.match_events if event[-1] == shape]] *)
Definition events_of_shape (match_events : list pyobj) (shape : string)
  : res (list pyobj) :=
  select last_item shape match_events.

(** [broad_events = [event[:-1] for event in ins.match_events
                     if event[:-1] == 'broad%s' % chan]] *)
Definition broad_events (match_events : list pyobj) (chan : string) : res (list pyobj) :=
  select but_last ("broad" ++ chan) match_events.

(** The loop that fills [event_remove]. *)
Fixpoint collect_remove (events : list pyobj) (times : list pyobj) : res (list pyobj) :=
  match events with
  | [] => Ok []
  | e :: events' =>
      res_bind (first_item e) (λ t,
        res_bind (collect_remove events' times) (λ rest,
          Ok (if existsb (py_eq t) times then e :: rest else rest)))
  end.

(** [events.remove(event)]: the first equal element goes. *)
Fixpoint list_remove (e : pyobj) (events : list pyobj) : res (list pyobj) :=
  match events with
  | [] => Raise ValueError
  | h :: events' =>
      if py_eq h e then Ok events'
      else res_bind (list_remove e events') (λ r, Ok (h :: r))
  end.

Fixpoint remove_all (to_remove events : list pyobj) : res (list pyobj) :=
  match to_remove with
  | [] => Ok events
  | e :: to_remove' => res_bind (list_remove e events) (remove_all to_remove')
  end.

(** The list [events] once the branch for the TV shapes is done: the index
    tuples that are summed. *)
Definition summed_events (match_events : list pyobj) (shape : string)
  : res (list pyobj) :=
  res_bind (events_of_shape match_events shape) (λ events,
    res_bind (last_char shape) (λ chan,
      if bool_decide (shape ∈ ["TV6"; "TV7"; "TV8"]) then
        res_bind (broad_events match_events chan) (λ broad,
          res_bind (map_res first_item broad) (λ broad_events_times,
            res_bind (collect_remove events broad_events_times) (λ event_remove,
              remove_all event_remove events)))
      else Ok events)).

Section Sum.

Context {R : Type} {SC : Scalar R}.

(** [np.sum(ins.data.data[event])], numpy's indexing and sum of the raw
    data under the given index tuple. *)
Variable event_sum : pyobj → R.

(** [sum = 0], then [sum += np.sum(ins.data.data[event])] for each event. *)
Definition brightness (match_events : list pyobj) (shape : string) : res R :=
  res_bind (summed_events match_events shape) (λ events,
    Ok (fold_left (λ sum e, radd sum (event_sum e)) events (of_int 0))).

(** [{shape: {} for shape in args.shapes}], the dictionary that
    [bright_dict] holds under [args.sig] before the observations are read. *)
Definition init_bright (shapes : list string) : gmap string (gmap string R) :=
  fold_left (λ d shape, <[shape := ∅]> d) shapes ∅.

(** [for shape in args.shapes: ...; bright_dict[args.sig][shape][obs] = sum],
    on the dictionary [bright_dict[args.sig]]. *)
Fixpoint shape_loop (match_events : list pyobj) (obs : string) (shapes : list string)
    (bright : gmap string (gmap string R)) : res (gmap string (gmap string R)) :=
  match shapes with
  | [] => Ok bright
  | shape :: shapes' =>
      res_bind (brightness match_events shape) (λ sum,
        match bright !! shape with
        | None => Raise (KeyError shape)
        | Some per_obs =>
            shape_loop match_events obs shapes' (<[shape := <[obs := sum]> per_obs]> bright)
        end)
  end.

End Sum.

End Brightness.

(** ** Inputs the properties are evaluated at *)

(** A narrow-band TV event and a broad-band event of the same channel at
    the same time index. *)
Definition tv6_events : list Brightness.pyobj :=
  [ Brightness.OTuple [Brightness.OInt 3; Brightness.OInt 0; Brightness.OSlice 10 20;
                       Brightness.OStr "TV6"];
    Brightness.OTuple [Brightness.OInt 3; Brightness.OInt 0; Brightness.OSlice 0 50;
                       Brightness.OStr "broad6"] ].




(** [read_paths] with the required keys only, and with all five keys. *)
Definition required_paths : gmap string string :=
  <["data" := "in/data.npym"]>
  (<["Nbls" := "in/Nbls.npym"]>
  (<["freq_array" := "in/freq_array.npy"]> ∅)).

Definition all_paths : gmap string string :=
  <["pols" := "in/pols.npy"]> (<["vis_units" := "in/vis_units.npy"]> required_paths).

(** [str] of a container or an array, for the concrete runs. *)
Definition opaque_repr : pyval float → string := λ _, "<object>".


(** A stand-in for numpy's least squares in the concrete runs: for every
    column the constant polynomial through its first sample. *)
Definition flat_polyfit : list float → list (list float) → Z → res (nat → nat → float) :=
  λ _ ycols deg,
    Ok (λ k j, if k =? Z.to_nat deg then nth 0 (nth j ycols []) 0%float else 0%float).

(** A spectrum of two times and three channels: channel 0 is unmasked and
    constant, channel 1 is masked at all times, channel 2 varies. *)
Definition spectrum_data : marray float :=
  Masked (nd_of_lists None
    [ [[ [Some 2%float]; [None]; [Some 1%float] ]];
      [[ [Some 2%float]; [None]; [Some 3%float] ]] ]).

Definition spectrum_counts : marray float :=
  Masked (nd_of_lists None
    [ [[ [Some 1%float]; [Some 1%float]; [Some 1%float] ]];
      [[ [Some 1%float]; [Some 1%float]; [Some 4%float] ]] ]).

Definition spectrum (order : Z) (globals : gmap string (pyval float)) : world float :=
  {| w_self := <["order" := VInt order]>
               (<["data" := VMa spectrum_data]>
               (<["Nbls" := VMa spectrum_counts]> ∅));
     w_globals := globals;
     w_dirs := ∅;
     w_files := ∅;
     w_warnings := [] |}.

(** Two unmasked channels, which share their (empty) mask pattern. *)
Definition paired_data : marray float :=
  Masked (nd_of_lists None
    [ [[ [Some 1%float]; [Some 2%float] ]];
      [[ [Some 3%float]; [Some 5%float] ]] ]).

Definition paired_counts : marray float :=
  Masked (nd_of_lists None
    [ [[ [Some 1%float]; [Some 1%float] ]];
      [[ [Some 1%float]; [Some 1%float] ]] ]).

Definition paired (order : Z) (globals : gmap string (pyval float)) : world float :=
  {| w_self := <["order" := VInt order]>
               (<["data" := VMa paired_data]>
               (<["Nbls" := VMa paired_counts]> ∅));
     w_globals := globals;
     w_dirs := ∅;
     w_files := ∅;
     w_warnings := [] |}.

(** Module globals in which a caller has bound [coeff_write] to [False]. *)
Definition no_coeff_write : gmap string (pyval float) := <["coeff_write" := VBool false]> ∅.

(** An object of three attributes and nothing else, in the module as it
    is. *)
Definition object_of (order : pyval float) (data nbls : marray float) : world float :=
  {| w_self := <["order" := order]> (<["data" := VMa data]> (<["Nbls" := VMa nbls]> ∅));
     w_globals := module_globals;
     w_dirs := ∅;
     w_files := ∅;
     w_warnings := [] |}.

(** Two channels masked at both times. *)
Definition blank_data : marray float :=
  Masked (nd_of_lists None
    [ [[ [None]; [None] ]];
      [[ [None]; [None] ]] ]).

(** An object as a set-up could leave it: the paths, empty event lists
    and the spectrum with its counts; no [data_ms], no histogram. *)
Definition set_up : world float :=
  {| w_self := <["outpath" := VStr "out"]>
               (<["obs" := VStr "1061313128"]>
               (<["flag_choice" := VNone]>
               (<["match_events" := VList []]>
               (<["chisq_events" := VList []]>
               (<["samp_thresh_events" := VList []]>
               (<["data" := VMa spectrum_data]>
               (<["Nbls" := VMa spectrum_counts]> ∅)))))));
     w_globals := module_globals;
     w_dirs := ∅;
     w_files := ∅;
     w_warnings := [] |}.


(** A file system that holds the spectrum, its counts, the frequencies,
    the polarization labels and the units; nothing is loaded yet. *)
Definition masked_store : world float :=
  {| w_self := ∅;
     w_globals := module_globals;
     w_dirs := {["in"]};
     w_files := <["in/data.npym" := Pickled (VMa spectrum_data)]>
                (<["in/Nbls.npym" := Pickled (VMa spectrum_counts)]>
                (<["in/freq_array.npy" := Npy (VArr [1.5e8%float])]>
                (<["in/pols.npy" := Npy (VList [VStr "XX"])]>
                (<["in/vis_units.npy" := Npy (VStr "Jy")]> ∅))));
     w_warnings := [] |}.

(** The match events of one observation: two narrow-band events at the
    time indices 3 and 5, and a streak. *)
Definition obs_events : list Brightness.pyobj :=
  [ Brightness.OTuple [Brightness.OInt 3; Brightness.OInt 0; Brightness.OSlice 10 20;
                       Brightness.OStr "TV7"];
    Brightness.OTuple [Brightness.OInt 4; Brightness.OInt 0; Brightness.OSlice 0 50;
                       Brightness.OStr "streak"];
    Brightness.OTuple [Brightness.OInt 5; Brightness.OInt 0; Brightness.OSlice 10 20;
                       Brightness.OStr "TV7"] ].

(** Their index tuples. *)
Definition obs_tuples : list Brightness.pyobj :=
  [ Brightness.OTuple [Brightness.OInt 3; Brightness.OInt 0; Brightness.OSlice 10 20];
    Brightness.OTuple [Brightness.OInt 4; Brightness.OInt 0; Brightness.OSlice 0 50];
    Brightness.OTuple [Brightness.OInt 5; Brightness.OInt 0; Brightness.OSlice 10 20] ].

(** Two channels with different masks: channel 0 is unmasked, channel 1
    is masked at the second time. *)
Definition patchy_data : marray float :=
  Masked (nd_of_lists None
    [ [[ [Some 1%float]; [Some 2%float] ]];
      [[ [Some 3%float]; [None] ]] ]).

(** An object with what the polynomial path reads when it writes the
    coefficients, in a module where a caller has bound [coeff_write] to
    [True]. *)
Definition writing : world float :=
  {| w_self := <["order" := VInt 1]>
               (<["data" := VMa patchy_data]>
               (<["Nbls" := VMa paired_counts]>
               (<["outpath" := VStr "out"]>
               (<["obs" := VStr "1061313128"]>
               (<["pols" := VList [VStr "XX"]]> ∅)))));
     w_globals := <["coeff_write" := VBool true]> ∅;
     w_dirs := {["out"]};
     w_files := ∅;
     w_warnings := [] |}.

(** * Properties *)

(** ** The shape loop of the brightness script *)

Section BrightnessProps.

Import Brightness.

(** The events of the match filter are tuples. *)
Definition is_tuple (e : pyobj) : Prop := ∃ l, e = OTuple l.

(** Comparing the index tuple [event[:-1]] with a category name selects
    nothing. *)
Lemma broad_events_nil (match_events : list pyobj) (chan : string) :
  Forall is_tuple match_events → broad_events match_events chan = Ok [].
Proof.
  unfold broad_events. induction 1 as [|e l [t ->] _ IH]; [reflexivity|].
  simpl. exact IH.
Qed.

Lemma collect_remove_no_times (events rm : list pyobj) :
  collect_remove events [] = Ok rm → rm = [].
Proof.
  revert rm. induction events as [|e l IH]; intros rm H; simpl in H.
  - congruence.
  - destruct (first_item e) as [t|]; simpl in H; [|discriminate].
    destruct (collect_remove l []) as [rest|]; simpl in H; [|discriminate].
    injection H as <-. apply IH. reflexivity.
Qed.

(** Whatever the shape, every event of the shape is summed when the loop
    body completes. *)
Lemma summed_events_all (match_events : list pyobj) (shape : string) evs :
  Forall is_tuple match_events →
  summed_events match_events shape = Ok evs →
  events_of_shape match_events shape = Ok evs.
Proof.
  unfold summed_events. intros Htup H.
  destruct (events_of_shape match_events shape) as [events|]; simpl in H; [|discriminate].
  destruct (last_char shape) as [chan|]; simpl in H; [|discriminate].
  case_bool_decide.
  - rewrite broad_events_nil in H by done. simpl in H.
    destruct (collect_remove _ []) as [rm|] eqn:E; simpl in H; [|discriminate].
    apply collect_remove_no_times in E. subst rm. simpl in H. congruence.
  - congruence.
Qed.

(** C8: for shape TV6 with a broad6 event at the same time index 3, the
    narrow-band event is not excluded: its data is added to the sum of the
    shape. *)
Theorem tv6_event_not_excluded {R : Type} {SC : Scalar R} (event_sum : pyobj → R) :
  brightness event_sum tv6_events "TV6"
  = Ok (radd (of_int 0) (event_sum (OTuple [OInt 3; OInt 0; OSlice 10 20]))).
Proof. reflexivity. Qed.

End BrightnessProps.

(** ** The methods of [INS] *)

(** *** Running the monad *)

Section Running.

Context {R : Type}.

Lemma bind_run {A B} (m : M R A) (k : A → M R B) (w : world R) :
  (m ≫= k) w = match m w with
               | (Ok a, w') => k a w'
               | (Raise e, w') => (Raise e, w')
               end.
Proof. reflexivity. Qed.

Lemma bind_ok {A B} (m : M R A) (k : A → M R B) (w w' : world R) (a : A) :
  m w = (Ok a, w') → (m ≫= k) w = k a w'.
Proof. intros H. rewrite bind_run, H. reflexivity. Qed.

Lemma bind_raise {A B} (m : M R A) (k : A → M R B) (w w' : world R) (e : pyexc) :
  m w = (Raise e, w') → (m ≫= k) w = (Raise e, w').
Proof. intros H. rewrite bind_run, H. reflexivity. Qed.

Lemma getattr_ok name v (w : world R) :
  w_self w !! name = Some v → getattr name w = (Ok v, w).
Proof. intros H. unfold getattr. rewrite H. reflexivity. Qed.

Lemma getattr_missing name (w : world R) :
  w_self w !! name = None → getattr name w = (Raise (AttributeError name), w).
Proof. intros H. unfold getattr. rewrite H. reflexivity. Qed.

Lemma lift_run {A} (r : res A) (w : world R) : lift r w = (r, w).
Proof. reflexivity. Qed.

End Running.

Ltac run_ok H := rewrite (bind_ok _ _ _ _ _ H); cbv beta.
Ltac run_raise H := rewrite (bind_raise _ _ _ _ _ H); cbv beta.
Ltac run_by tac := erewrite bind_ok by tac; cbv beta.
Ltac get H := run_by ltac:(apply getattr_ok; exact H).

Section ReadProps.

Context {R : Type} {SC : Scalar R}.

(** *** [_read] *)

(** The file at [path] holds the value [v]. *)
Definition loadable (w : world R) (path : string) (v : pyval R) : Prop :=
  w_files w !! path = Some (Pickled v) ∨ w_files w !! path = Some (Npy v).

Lemma np_load_ok (w : world R) path v :
  loadable w path v → np_load path w = (Ok v, w).
Proof. unfold np_load. intros [-> | ->]; reflexivity. Qed.

Lemma loadable_set_self (w : world R) s path v :
  loadable (set_self s w) path v ↔ loadable w path v.
Proof. reflexivity. Qed.

Lemma read_required_missing (rp : gmap string string) arg (w : world R) :
  rp !! arg = None →
  read_required rp arg w = (Raise (AssertionError (required_msg arg)), w).
Proof. intros H. unfold read_required. rewrite H. reflexivity. Qed.

Lemma read_required_ok (rp : gmap string string) arg path v (w : world R) :
  rp !! arg = Some path → loadable w path v →
  read_required rp arg w = (Ok tt, set_self (<[arg := v]> (w_self w)) w).
Proof.
  intros H L. unfold read_required. rewrite H.
  run_ok (np_load_ok _ _ _ L). reflexivity.
Qed.

Lemma read_optional_missing (rp : gmap string string) attr (w : world R) :
  rp !! attr = None →
  read_optional rp attr w = (Ok tt, set_warnings (optional_msg attr :: w_warnings w) w).
Proof. intros H. unfold read_optional. rewrite H. reflexivity. Qed.

Lemma read_optional_ok (rp : gmap string string) attr path v (w : world R) :
  rp !! attr = Some path → loadable w path v →
  read_optional rp attr w = (Ok tt, set_self (<[attr := v]> (w_self w)) w).
Proof.
  intros H L. unfold read_optional. rewrite H.
  run_ok (np_load_ok _ _ _ L). reflexivity.
Qed.

(** The world once the three required arrays are loaded. *)
Definition loaded (vd vn vf : pyval R) (w : world R) : world R :=
  set_self (<["freq_array" := vf]> (<["Nbls" := vn]> (<["data" := vd]> (w_self w)))) w.

Lemma read_required_all (rp : gmap string string) pd pn pf vd vn vf (w : world R) :
  rp !! "data" = Some pd → rp !! "Nbls" = Some pn → rp !! "freq_array" = Some pf →
  loadable w pd vd → loadable w pn vn → loadable w pf vf →
  foreach ["data"; "Nbls"; "freq_array"] (read_required rp) w = (Ok tt, loaded vd vn vf w).
Proof.
  intros Hd Hn Hf Ld Ln Lf. simpl.
  run_by ltac:(eapply read_required_ok; [exact Hd | exact Ld]).
  run_by ltac:(eapply read_required_ok; [exact Hn | exact Ln]).
  run_by ltac:(eapply read_required_ok; [exact Hf | exact Lf]).
  reflexivity.
Qed.

Lemma loaded_data vd vn vf (w : world R) :
  w_self (loaded vd vn vf w) !! "data" = Some vd.
Proof.
  unfold loaded. simpl.
  rewrite lookup_insert_ne by discriminate.
  rewrite lookup_insert_ne by discriminate.
  apply lookup_insert_eq.
Qed.

(** A missing required key is an assertion failure, provided the files of
    the keys before it load. *)
Lemma _read_missing_required (rp : gmap string string) (w : world R) :
  (∃ arg, arg ∈ ["data"; "Nbls"; "freq_array"] ∧ rp !! arg = None) →
  (∀ arg path, arg ∈ ["data"; "Nbls"; "freq_array"] → rp !! arg = Some path →
               ∃ v, loadable w path v) →
  ∃ arg, arg ∈ ["data"; "Nbls"; "freq_array"] ∧ rp !! arg = None
         ∧ (_read rp w).1 = Raise (AssertionError (required_msg arg)).
Proof.
  intros Hmiss Hload. unfold _read. rewrite bind_run.
  assert (∃ arg w', arg ∈ ["data"; "Nbls"; "freq_array"] ∧ rp !! arg = None
                    ∧ foreach ["data"; "Nbls"; "freq_array"] (read_required rp) w
                      = (Raise (AssertionError (required_msg arg)), w'))
    as (arg & w' & Hin & Hnone & ->); [|by exists arg].
  simpl.
  destruct (rp !! "data") as [pd|] eqn:Hd.
  2:{ exists "data", w. split_and!; [repeat constructor|done|].
      by run_raise (read_required_missing rp "data" w Hd). }
  destruct (Hload "data" pd) as [vd Ld]; [repeat constructor|done|].
  run_by ltac:(eapply read_required_ok; [exact Hd | exact Ld]).
  destruct (rp !! "Nbls") as [pn|] eqn:Hn.
  2:{ eexists "Nbls", _. split_and!; [repeat constructor|done|].
      by erewrite bind_raise by (by apply read_required_missing). }
  destruct (Hload "Nbls" pn) as [vn Ln]; [repeat constructor|done|].
  run_by ltac:(eapply read_required_ok; [exact Hn | exact Ln]).
  destruct (rp !! "freq_array") as [pf|] eqn:Hf.
  2:{ eexists "freq_array", _. split_and!; [repeat constructor|done|].
      by erewrite bind_raise by (by apply read_required_missing). }
  exfalso. destruct Hmiss as (arg & Hin & Hnone).
  set_unfold in Hin. destruct Hin as [-> | [-> | [-> | []]]]; congruence.
Qed.


(** Loaded data without a mask: the assignment to the unbound variable
    [data] stops [_read]; [self.data] keeps its missing mask and the
    optional keys are never examined. *)
Lemma _read_nomask (rp : gmap string string) pd pn pf d vn vf (w : world R) :
  rp !! "data" = Some pd → rp !! "Nbls" = Some pn → rp !! "freq_array" = Some pf →
  loadable w pd (VMa (NoMask d)) → loadable w pn vn → loadable w pf vf →
  w_globals w !! "data" = None →
  _read rp w = (Raise (NameError "data"), loaded (VMa (NoMask d)) vn vf w).
Proof.
  intros Hd Hn Hf Ld Ln Lf Hg. unfold _read.
  run_ok (read_required_all rp pd pn pf _ _ _ w Hd Hn Hf Ld Ln Lf).
  apply bind_raise. unfold read_fix_mask, getattr.
  rewrite bind_run, loaded_data. simpl.
  rewrite bind_run. unfold load_global. simpl. rewrite Hg. reflexivity.
Qed.

Lemma read_fix_mask_masked vd d vn vf (w : world R) :
  vd = VMa (Masked d) →
  read_fix_mask (loaded vd vn vf w) = (Ok tt, loaded vd vn vf w).
Proof.
  intros ->. unfold read_fix_mask, getattr.
  rewrite bind_run, loaded_data. reflexivity.
Qed.

(** Loaded data with a mask: each missing optional key gives its warning
    and leaves its attribute as it was; [_read] returns. *)
Lemma _read_masked_optional (rp : gmap string string) pd pn pf d vn vf (w : world R) :
  rp !! "data" = Some pd → rp !! "Nbls" = Some pn → rp !! "freq_array" = Some pf →
  loadable w pd (VMa (Masked d)) → loadable w pn vn → loadable w pf vf →
  (∀ attr path, attr ∈ ["pols"; "vis_units"] → rp !! attr = Some path →
                ∃ v, loadable w path v) →
  ∃ w', _read rp w = (Ok tt, w')
        ∧ ∀ attr, attr ∈ ["pols"; "vis_units"] → rp !! attr = None →
                  optional_msg attr ∈ w_warnings w'
                  ∧ w_self w' !! attr = w_self w !! attr.
Proof.
  intros Hd Hn Hf Ld Ln Lf Hopt. unfold _read.
  run_ok (read_required_all rp pd pn pf _ _ _ w Hd Hn Hf Ld Ln Lf).
  run_ok (read_fix_mask_masked _ d vn vf w eq_refl).
  simpl foreach.
  destruct (rp !! "pols") as [pp|] eqn:Hp; destruct (rp !! "vis_units") as [pv|] eqn:Hv.
  - destruct (Hopt "pols" pp) as [vp Lp]; [repeat constructor|done|].
    destruct (Hopt "vis_units" pv) as [vv Lv]; [repeat constructor|done|].
    run_by ltac:(eapply read_optional_ok; [exact Hp | exact Lp]).
    run_by ltac:(eapply read_optional_ok; [exact Hv | exact Lv]).
    eexists. split; [reflexivity|].
    intros attr Hin Hnone. set_unfold in Hin.
    destruct Hin as [-> | [-> | []]]; congruence.
  - destruct (Hopt "pols" pp) as [vp Lp]; [repeat constructor|done|].
    run_by ltac:(eapply read_optional_ok; [exact Hp | exact Lp]).
    run_by ltac:(by apply read_optional_missing).
    eexists. split; [reflexivity|].
    intros attr Hin Hnone. set_unfold in Hin.
    destruct Hin as [-> | [-> | []]]; [congruence|].
    split; [simpl; left|].
    simpl. by rewrite !lookup_insert_ne by discriminate.
  - destruct (Hopt "vis_units" pv) as [vv Lv]; [repeat constructor|done|].
    run_by ltac:(by apply read_optional_missing).
    run_by ltac:(eapply read_optional_ok; [exact Hv | exact Lv]).
    eexists. split; [reflexivity|].
    intros attr Hin Hnone. set_unfold in Hin.
    destruct Hin as [-> | [-> | []]]; [|congruence].
    split; [simpl; left|].
    simpl. by rewrite !lookup_insert_ne by discriminate.
  - run_by ltac:(by apply read_optional_missing).
    run_by ltac:(by apply read_optional_missing).
    eexists. split; [reflexivity|].
    intros attr Hin Hnone. set_unfold in Hin.
    destruct Hin as [-> | [-> | []]].
    + split; [simpl; right; left|].
      simpl. by rewrite !lookup_insert_ne by discriminate.
    + split; [simpl; left|].
      simpl. by rewrite !lookup_insert_ne by discriminate.
Qed.

End ReadProps.



(** *** [save] *)




Section SaveProps.

Context {R : Type} {SC : Scalar R}.
Variable py_repr : pyval R → string.

Lemma add_subtag_ok tag subtag ev (w : world R) :
  w_self w !! (subtag ++ "_events") = Some (VList ev) →
  add_subtag tag subtag w
  = (Ok (if length ev =? 0 then tag else tag ++ "_" ++ subtag), w).
Proof. intros H. unfold add_subtag. get H. reflexivity. Qed.





Lemma save_meta_present attr outpath obs v (w : world R) :
  w_self w !! "outpath" = Some outpath → w_self w !! "obs" = Some obs →
  w_self w !! attr = Some v →
  save_meta py_repr attr w
  = (Ok tt, set_files (<[meta_path py_repr outpath obs attr := Npy v]> (w_files w)) w).
Proof.
  intros Ho Hb Hv. unfold save_meta. rewrite bind_run. unfold hasattr.
  rewrite Hv, bool_decide_eq_true_2 by eauto.
  get Ho. get Hb. get Hv. reflexivity.
Qed.

Lemma save_meta_absent attr (w : world R) :
  w_self w !! attr = None → save_meta py_repr attr w = (Ok tt, w).
Proof.
  intros Hv. unfold save_meta. rewrite bind_run. unfold hasattr.
  rewrite Hv, bool_decide_eq_false_2; [reflexivity|].
  by intros [? ?].
Qed.

(** What [save_meta] does to the file of another attribute, or of an
    absent one: nothing. *)
Lemma save_meta_other attr outpath obs path (w : world R) :
  w_self w !! "outpath" = Some outpath → w_self w !! "obs" = Some obs →
  (is_Some (w_self w !! attr) → path ≠ meta_path py_repr outpath obs attr) →
  ∃ w', save_meta py_repr attr w = (Ok tt, w')
        ∧ w_self w' = w_self w ∧ w_warnings w' = w_warnings w
        ∧ w_files w' !! path = w_files w !! path.
Proof.
  intros Ho Hb Hne. destruct (w_self w !! attr) as [v|] eqn:Hv.
  - eexists. split; [by eapply save_meta_present|].
    split_and!; [done..|]. simpl. rewrite lookup_insert_ne; [done|].
    intros E. by apply Hne.
  - exists w. split; [by apply save_meta_absent|]. done.
Qed.


(** An object that has what [save] reads before the histogram arrays. *)
Variables (w : world R) (outpath obs fc vd vms vn : pyval R) (em ec es : list (pyval R)).
Hypothesis Houtpath : w_self w !! "outpath" = Some outpath.
Hypothesis Hobs : w_self w !! "obs" = Some obs.
Hypothesis Hfc : w_self w !! "flag_choice" = Some fc.
Hypothesis Hmatch : w_self w !! "match_events" = Some (VList em).
Hypothesis Hchisq : w_self w !! "chisq_events" = Some (VList ec).
Hypothesis Hsamp : w_self w !! "samp_thresh_events" = Some (VList es).
Hypothesis Hdata : w_self w !! "data" = Some vd.
Hypothesis Hdata_ms : w_self w !! "data_ms" = Some vms.
Hypothesis HNbls : w_self w !! "Nbls" = Some vn.



Local Abbreviation arr attr tag ext := (arr_path py_repr outpath obs fc attr tag ext).
Local Abbreviation meta attr := (meta_path py_repr outpath obs attr).


End SaveProps.


(** *** What a method leaves of [self] *)

Section Frame.

Context {R : Type} {SC : Scalar R}.
Variable np_polyfit : list R → list (list R) → Z → res (nat → nat → R).
Variable py_repr : pyval R → string.

(** A computation that assigns no attribute of [self], whatever its outcome. *)
Definition keeps_self {A} (m : M R A) : Prop := ∀ w, w_self (m w).2 = w_self w.

Lemma keeps_ret {A} (a : A) : keeps_self (mret a : M R A).
Proof. intros w. reflexivity. Qed.

Lemma keeps_raise {A} (e : pyexc) : keeps_self (raise e : M R A).
Proof. intros w. reflexivity. Qed.

Lemma keeps_lift {A} (r : res A) : keeps_self (lift r : M R A).
Proof. intros w. reflexivity. Qed.

Lemma keeps_test (v : pyval R) : keeps_self (test v).
Proof. intros w. reflexivity. Qed.

Lemma keeps_getattr name : keeps_self (getattr (R:=R) name).
Proof. intros w. unfold getattr. by destruct (w_self w !! name). Qed.

Lemma keeps_hasattr name : keeps_self (hasattr (R:=R) name).
Proof. intros w. reflexivity. Qed.

Lemma keeps_load_global name : keeps_self (load_global (R:=R) name).
Proof. intros w. unfold load_global. by destruct (w_globals w !! name). Qed.

Lemma keeps_put_file path (c : fcontent R) : keeps_self (put_file path c).
Proof. intros w. reflexivity. Qed.

Lemma keeps_path_exists path : keeps_self (path_exists (R:=R) path).
Proof. intros w. reflexivity. Qed.

Lemma keeps_makedirs path : keeps_self (makedirs (R:=R) path).
Proof. intros w. reflexivity. Qed.

Lemma keeps_bind {A B} (m : M R A) (k : A → M R B) :
  keeps_self m → (∀ a, keeps_self (k a)) → keeps_self (m ≫= k).
Proof.
  intros Hm Hk w. rewrite bind_run. specialize (Hm w).
  destruct (m w) as [[a|e] w1]; simpl in *.
  - rewrite Hk. exact Hm.
  - exact Hm.
Qed.

Lemma keeps_foreach {A} (l : list A) (body : A → M R unit) :
  (∀ x, keeps_self (body x)) → keeps_self (foreach l body).
Proof.
  intros Hb. induction l as [|x l IH]; simpl.
  - apply keeps_ret.
  - apply keeps_bind; [apply Hb|intros _; exact IH].
Qed.

Lemma keeps_foldM {A B} (body : B → A → M R B) (l : list A) (acc : B) :
  (∀ b x, keeps_self (body b x)) → keeps_self (foldM body l acc).
Proof.
  intros Hb. revert acc. induction l as [|x l IH]; intros acc; simpl.
  - apply keeps_ret.
  - apply keeps_bind; [apply Hb|intros b; apply IH].
Qed.

(** Solves [keeps_self] goals by the structure of the computation. *)
Ltac frame :=
  repeat first
    [ apply keeps_ret | apply keeps_raise | apply keeps_lift | apply keeps_test
    | apply keeps_getattr | apply keeps_hasattr | apply keeps_load_global
    | apply keeps_put_file | apply keeps_path_exists | apply keeps_makedirs
    | apply keeps_bind; [|intros ?]
    | apply keeps_foreach; intros ?
    | apply keeps_foldM; intros ? ?
    | progress cbv zeta
    | match goal with
      | |- keeps_self (if ?b then _ else _) => destruct b
      | |- keeps_self (match ?v with _ => _ end) => destruct v
      end ].

Lemma keeps_write_coeff i ncols coeff : keeps_self (write_coeff py_repr i ncols coeff).
Proof. unfold write_coeff, open_wb, pickle_dump. frame. Qed.

Lemma keeps_fit_group f i d good uniq MS k :
  keeps_self (fit_group np_polyfit py_repr f i d good uniq MS k).
Proof.
  unfold fit_group, fit_columns. frame.
Qed.

Lemma keeps_fit_pol f MS i : keeps_self (fit_pol np_polyfit py_repr f MS i).
Proof. unfold fit_pol. frame. Qed.

Lemma keeps_mean_subtract f : keeps_self (mean_subtract np_polyfit py_repr f).
Proof. unfold mean_subtract. frame. Qed.

Lemma keeps_save sig : keeps_self (save py_repr sig).
Proof.
  unfold save, add_subtag, save_dir, save_masked, save_hist, save_meta,
    open_wb, pickle_dump, np_save.
  frame.
Qed.

Lemma keeps_read_fix_mask : keeps_self (read_fix_mask (R:=R)).
Proof. unfold read_fix_mask. frame. Qed.

(** A computation that leaves the attribute [name] of [self] as it is. *)
Definition keeps_attr {A} (name : string) (m : M R A) : Prop :=
  ∀ w, w_self (m w).2 !! name = w_self w !! name.

Lemma keeps_attr_self {A} name (m : M R A) : keeps_self m → keeps_attr name m.
Proof. intros H w. by rewrite H. Qed.

Lemma keeps_attr_setattr name attr (v : pyval R) :
  attr ≠ name → keeps_attr name (setattr attr v).
Proof. intros Hne w. simpl. by apply lookup_insert_ne. Qed.

Lemma keeps_attr_bind {A B} name (m : M R A) (k : A → M R B) :
  keeps_attr name m → (∀ a, keeps_attr name (k a)) → keeps_attr name (m ≫= k).
Proof.
  intros Hm Hk w. rewrite bind_run. specialize (Hm w).
  destruct (m w) as [[a|e] w1]; simpl in *.
  - rewrite Hk. exact Hm.
  - exact Hm.
Qed.

Lemma keeps_attr_foreach {A} name (l : list A) (body : A → M R unit) :
  (∀ x, x ∈ l → keeps_attr name (body x)) → keeps_attr name (foreach l body).
Proof.
  induction l as [|x l IH]; intros Hb; simpl.
  - apply keeps_attr_self, keeps_ret.
  - apply keeps_attr_bind; [apply Hb; left|intros _; apply IH].
    intros y Hy. apply Hb. by right.
Qed.

Lemma keeps_np_load path : keeps_self (np_load (R:=R) path).
Proof. intros w. unfold np_load. by destruct (w_files w !! path) as [[| |]|]. Qed.

(** [_read] assigns the attributes it loads, and no other. *)
Lemma _read_keeps_attr (rp : gmap string string) (name : string) :
  name ∉ ["data"; "Nbls"; "freq_array"; "pols"; "vis_units"] →
  keeps_attr name (_read (R:=R) rp).
Proof.
  intros Hname. unfold _read.
  apply keeps_attr_bind; [|intros _; apply keeps_attr_bind; [|intros _]].
  - apply keeps_attr_foreach. intros arg Harg. unfold read_required.
    destruct (rp !! arg); [|apply keeps_attr_self, keeps_raise].
    apply keeps_attr_bind; [apply keeps_attr_self, keeps_np_load|intros v].
    apply keeps_attr_setattr. intros ->. apply Hname. set_unfold. tauto.
  - apply keeps_attr_self, keeps_read_fix_mask.
  - apply keeps_attr_foreach. intros arg Harg. unfold read_optional.
    destruct (rp !! arg); [|by intros w].
    apply keeps_attr_bind; [apply keeps_attr_self, keeps_np_load|intros v].
    apply keeps_attr_setattr. intros ->. apply Hname. set_unfold. tauto.
Qed.

(** C9: [mean_subtract] assigns no attribute of the object it is called
    on: [data], [Nbls], [order] and all others are after the call what they
    were before, whether it returns the array or raises.  [save] assigns
    none either and [_read] none but the five it loads, so [metric_ms] is
    left to the constructor. *)
Theorem mean_subtract_frame (f : pyslice) (w : world R) :
  w_self (mean_subtract np_polyfit py_repr f w).2 = w_self w
  ∧ (∀ sig, w_self (save py_repr sig w).2 = w_self w)
  ∧ (∀ rp, w_self (_read rp w).2 !! "metric_ms" = w_self w !! "metric_ms").
Proof.
  split_and!.
  - apply keeps_mean_subtract.
  - intros sig. apply keeps_save.
  - intros rp. apply _read_keeps_attr. set_unfold. intuition discriminate.
Qed.

(** The constructor is where [metric_ms] gets its value: what
    [mean_subtract] returned. *)
Lemma INS_init_assigns_metric_ms (uvflag_setup : pyval R → M R unit)
    (input order : pyval R) (w w' : world R) :
  INS_init np_polyfit py_repr uvflag_setup input order w = (Ok tt, w') →
  ∃ ms w1, mean_subtract np_polyfit py_repr slice_all w1 = (Ok ms, set_self (w_self w1) w')
           ∧ w_self w1 !! "order" = Some order
           ∧ w_self w' = <["metric_ms" := VMa ms]> (w_self w1).
Proof.
  unfold INS_init. rewrite bind_run.
  destruct (uvflag_setup input w) as [[[]|e] w0]; [|discriminate].
  rewrite bind_run. unfold setattr at 1. cbv beta iota.
  rewrite bind_run.
  pose proof (keeps_mean_subtract slice_all (set_self (<["order":=order]> (w_self w0)) w0)) as Hk.
  destruct (mean_subtract _ _ _ _) as [[ms|e] w2] eqn:E; [|discriminate].
  intros [= <-]. exists ms, (set_self (<["order":=order]> (w_self w0)) w0).
  simpl in Hk. split_and!.
  - rewrite E. f_equal. destruct w2. simpl in *. by subst.
  - apply lookup_insert_eq.
  - simpl. by rewrite Hk.
Qed.

End Frame.

(** *** [mean_subtract] for order 0 *)

Section MeanPath.

Context {R : Type} {SC : Scalar R}.
Variable np_polyfit : list R → list (list R) → Z → res (nat → nat → R).
Variable py_repr : pyval R → string.

Lemma bdim_same (a : nat) : bdim a a = Some a.
Proof. unfold bdim. by rewrite Nat.eqb_refl. Qed.

Lemma bdim_one (a : nat) : bdim a 1 = Some a.
Proof.
  unfold bdim. destruct (a =? 1) eqn:E; [done|]. reflexivity.
Qed.

Lemma bidx_in (d i : nat) : i < d → bidx d i = i.
Proof.
  unfold bidx. intros H. destruct (d =? 1) eqn:E; [|done].
  apply Nat.eqb_eq in E. lia.
Qed.

Lemma ma_elems_slice2 f (m : marray R) :
  ma_elems (ma_slice2 f m) = nd_slice2 f (ma_elems m).
Proof. by destruct m. Qed.

Lemma has_mask_slice2 f (m : marray R) : has_mask (ma_slice2 f m) = has_mask m.
Proof. by destruct m. Qed.

(** The entries of the mean over time. *)
Lemma ma_mean0_get (m : marray R) t s c p :
  ma_get (ma_mean0 m) t s c p = column_mean (has_mask m) (time_column (ma_elems m) s c p).
Proof. destruct m; reflexivity. Qed.

Lemma ma_mean0_dims (m : marray R) :
  dim0 (ma_elems (ma_mean0 m)) = 1
  ∧ dim1 (ma_elems (ma_mean0 m)) = dim1 (ma_elems m)
  ∧ dim2 (ma_elems (ma_mean0 m)) = dim2 (ma_elems m)
  ∧ dim3 (ma_elems (ma_mean0 m)) = dim3 (ma_elems m).
Proof. destruct m; done. Qed.

(** [a / a.mean(axis=0)] always goes through: the mean broadcasts along
    the time axis. *)
Lemma divide_by_mean (m : marray R) :
  ∃ q, ma_true_divide m (ma_mean0 m) = Ok q
       ∧ same_shape (ma_elems q) (ma_elems m)
       ∧ has_mask q = true
       ∧ ∀ t s c p, in_shape (ma_elems m) t s c p →
           ma_get q t s c p
           = el_div (ma_get m t s c p)
                    (column_mean (has_mask m) (time_column (ma_elems m) s c p)).
Proof.
  unfold ma_true_divide, broadcast2.
  destruct (ma_mean0_dims m) as (-> & -> & -> & ->).
  rewrite bdim_one, !bdim_same. simpl.
  eexists. split; [reflexivity|]. split_and!; [done..|].
  intros t s c p (Ht & Hs & Hc & Hp). unfold ma_get at 1. simpl.
  rewrite !bidx_in by done.
  fold (ma_get m t s c p).
  f_equal. apply ma_mean0_get.
Qed.

(** The mean with masked entries filled by zero is the mean of the
    unmasked entries, as soon as adding zero changes nothing. *)
Lemma rsum_zero_filled (col : list (option R)) :
  (∀ x, radd x rzero = x) →
  rsum (map (default rzero) col) = rsum (omap id col).
Proof.
  intros Hzero. unfold rsum.
  assert (∀ acc, fold_left radd (map (default rzero) col) acc
                 = fold_left radd (omap id col) acc) as H; [|apply H].
  induction col as [|[x|] col IH]; intros acc; simpl; [done|apply IH|].
  rewrite Hzero. apply IH.
Qed.

Lemma column_mean_unmasked (col : list (option R)) :
  (∀ x, radd x rzero = x) →
  column_mean true col
  = if forallb is_masked col then None
    else el_div (Some (rmul (rsum (omap id col)) rone))
                (Some (of_int (Z.of_nat (length (omap id col))))).
Proof.
  intros Hzero. unfold column_mean.
  assert (length (List.filter (λ e, negb (is_masked e)) col) = length (omap id col)) as ->.
  { induction col as [|[x|] col IH]; simpl; [done|by rewrite IH|exact IH]. }
  destruct (forallb is_masked col); [done|].
  by rewrite rsum_zero_filled.
Qed.

Lemma test_run (v : pyval R) (w : world R) : test v w = (truthy v, w).
Proof. reflexivity. Qed.

(** The run of the order-0 path and the entries of its result. *)
Lemma mean_subtract_order0_entries (f : pyslice) (w : world R) (ordv : pyval R)
    (data nbls : marray R) :
  w_self w !! "order" = Some ordv → truthy ordv = Ok false →
  w_self w !! "data" = Some (VMa data) → w_self w !! "Nbls" = Some (VMa nbls) →
  same_shape (ma_elems data) (ma_elems nbls) →
  let D := ma_slice2 f data in
  let N := ma_slice2 f nbls in
  let mean := λ s c p, column_mean (has_mask data) (time_column (ma_elems D) s c p) in
  ∃ MS, mean_subtract np_polyfit py_repr f w = (Ok MS, w)
        ∧ same_shape (ma_elems MS) (ma_elems D)
        ∧ (∀ t s c p, in_shape (ma_elems D) t s c p →
             ma_get MS t s c p
             = el_mul (el_sub (el_div (ma_get D t s c p) (mean s c p)) (Some rone))
                      (el_sqrt (el_div (ma_get N t s c p) (Some rayleigh_C)))).
Proof.
  intros Hord Htruth Hdata Hnbls (E0 & E1 & E2 & E3) D N mean.
  destruct (divide_by_mean D) as (q & Hq & (Q0 & Q1 & Q2 & Q3) & Hqm & Hqget).
  assert (mean_subtract np_polyfit py_repr f w
          = (ma_multiply (ma_sub_scalar q rone) (ma_sqrt (ma_div_scalar N rayleigh_C)), w))
    as ->.
  { unfold mean_subtract. cbv zeta.
    get Hord. rewrite bind_run, test_run, Htruth. cbv beta iota.
    change (negb false) with true. cbv iota.
    get Hdata. rewrite bind_run, lift_run. simpl as_ma. cbv beta iota.
    fold D. rewrite bind_run, lift_run, Hq. cbv beta iota.
    get Hnbls. rewrite bind_run, lift_run. simpl as_ma. cbv beta iota.
    reflexivity. }
  destruct q as [dq|dq]; [discriminate|].
  unfold ma_multiply, ma_sub_scalar, ma_sqrt, ma_div_scalar, broadcast2.
  cbn [ma_elems nd_map dim0 dim1 dim2 dim3].
  simpl in Q0, Q1, Q2, Q3.
  assert (dim0 (ma_elems N) = dim0 dq ∧ dim1 (ma_elems N) = dim1 dq
          ∧ dim2 (ma_elems N) = dim2 dq ∧ dim3 (ma_elems N) = dim3 dq)
    as (N0 & N1 & N2 & N3).
  { rewrite Q0, Q1, Q2, Q3. subst D N. rewrite !ma_elems_slice2. simpl.
    rewrite E0, E1, E2, E3. done. }
  rewrite N0, N1, N2, N3, !bdim_same. simpl res_bind.
  eexists. split; [reflexivity|]. split; [done|].
  intros t s c p Hin.
  pose proof Hin as (Ht & Hs & Hc & Hp).
  unfold ma_get at 1. cbn [ma_elems nd_at].
  rewrite <- Q0 in Ht. rewrite <- Q1 in Hs. rewrite <- Q2 in Hc. rewrite <- Q3 in Hp.
  rewrite !bidx_in by (rewrite ?N0, ?N1, ?N2, ?N3; done).
  f_equal.
  change (nd_at dq t s c p) with (ma_get (Masked dq) t s c p).
  rewrite Hqget by done. subst mean D. by rewrite has_mask_slice2.
Qed.


Lemma time_column_constant (d : ndarray (option R)) s c p (v : option R) :
  (∀ t, t < dim0 d → nd_at d t s c p = v) →
  time_column d s c p = repeat v (dim0 d).
Proof.
  unfold time_column. intros H.
  assert (∀ n k, (∀ t, k ≤ t < k + n → nd_at d t s c p = v) →
                 map (λ t, nd_at d t s c p) (seq k n) = repeat v n) as Hgen.
  { induction n as [|n IH]; intros k Hk; simpl; [done|].
    rewrite Hk by lia. f_equal. apply IH. intros t Ht. apply Hk. lia. }
  apply Hgen. intros t Ht. apply H. lia.
Qed.

(** C6, as the code has it: for order 0, on a channel that is unmasked
    and has one value [v] at all times, where the arithmetic is exact (the
    mean of the channel is [v], [v / v] is 1 and not masked, [1 - 1] is 0),
    every entry of the result is [0 * sqrt(Nbls / C)] in masked arithmetic:
    [data / mean - 1] is 0, not -1.  Where the count is unmasked with a root
    and [0 * x = 0], the entry is 0. *)
Theorem constant_channel_zero (f : pyslice) (w : world R) (ordv : pyval R)
    (data nbls : marray R) (s c p : nat) (v : R) :
  w_self w !! "order" = Some ordv → truthy ordv = Ok false →
  w_self w !! "data" = Some (VMa data) → w_self w !! "Nbls" = Some (VMa nbls) →
  same_shape (ma_elems data) (ma_elems nbls) →
  let D := ma_slice2 f data in
  let N := ma_slice2 f nbls in
  s < dim1 (ma_elems D) → c < dim2 (ma_elems D) → p < dim3 (ma_elems D) →
  (∀ t, t < dim0 (ma_elems D) → ma_get D t s c p = Some v) →
  column_mean (has_mask data) (repeat (Some v) (dim0 (ma_elems D))) = Some v →
  div_domain v v = false → rdiv v v = rone → rsub rone rone = rzero →
  ∃ MS, mean_subtract np_polyfit py_repr f w = (Ok MS, w)
        ∧ (∀ t, t < dim0 (ma_elems D) →
             ma_get MS t s c p
             = el_mul (Some rzero) (el_sqrt (el_div (ma_get N t s c p) (Some rayleigh_C))))
        ∧ (∀ t n, t < dim0 (ma_elems D) → ma_get N t s c p = Some n →
             div_domain n rayleigh_C = false → sqrt_domain (rdiv n rayleigh_C) = false →
             rmul rzero (rsqrt (rdiv n rayleigh_C)) = rzero →
             ma_get MS t s c p = Some rzero).
Proof.
  intros Hord Htruth Hdata Hnbls Hshape D N Hs Hc Hp Hconst Hmean Hdom Hdiv Hsub.
  destruct (mean_subtract_order0_entries f w ordv data nbls Hord Htruth Hdata Hnbls Hshape)
    as (MS & Hrun & HMS & Hget).
  subst D N. cbv zeta in Hget.
  assert (∀ t, t < dim0 (ma_elems (ma_slice2 f data)) →
            ma_get MS t s c p
            = el_mul (Some rzero)
                     (el_sqrt (el_div (ma_get (ma_slice2 f nbls) t s c p) (Some rayleigh_C))))
    as Hzero.
  { intros t Ht. rewrite Hget by done.
    rewrite (time_column_constant (ma_elems (ma_slice2 f data)) s c p (Some v))
      by exact Hconst.
    rewrite Hmean, Hconst by done. simpl. rewrite Hdom. simpl. by rewrite Hdiv, Hsub. }
  exists MS. split_and!; [done..|].
  intros t n Ht Hn Hd Hq Hmul. rewrite Hzero by done.
  rewrite Hn. simpl. rewrite Hd. simpl. rewrite Hq. by rewrite Hmul.
Qed.

End MeanPath.


(** C6 as stated fails: channel 0 of the spectrum is unmasked and constant
    (2 at both times, one baseline each), and its entries in the result are
    0, not [-1 * sqrt(1 / C)]. *)
Lemma constant_channel_not_minus_sqrt :
  (∀ t, t < 2 → ma_get spectrum_data t 0 0 0 = Some 2%float
                ∧ ma_get spectrum_counts t 0 0 0 = Some 1%float)
  ∧ ¬ (∀ MS, mean_subtract flat_polyfit opaque_repr slice_all (spectrum 0 module_globals)
             = (Ok MS, spectrum 0 module_globals) →
             ∀ t, t < 2 →
               ma_get MS t 0 0 0
               = Some (rmul (of_int (-1)) (rsqrt (rdiv 1%float rayleigh_C)))).
Proof.
  split.
  - intros [|[|t]] Ht; [split; reflexivity..|lia].
  - intros Hclaim.
    destruct (mean_subtract_order0_entries flat_polyfit opaque_repr slice_all
                (spectrum 0 module_globals) (VInt 0) spectrum_data spectrum_counts
                eq_refl eq_refl eq_refl eq_refl
                (conj eq_refl (conj eq_refl (conj eq_refl eq_refl))))
      as (MS & Hrun & _ & Hget).
    specialize (Hclaim MS Hrun 0 ltac:(lia)).
    rewrite Hget in Hclaim by (cbv; repeat split; lia).
    apply (f_equal (λ e, match e with
                         | Some x => PrimFloat.ltb x 0%float
                         | None => false
                         end)) in Hclaim.
    vm_compute in Hclaim. discriminate.
Qed.

(** On the spectrum: channel 0 is constant, its entries are 0. *)
Lemma constant_channel_zero_witness :
  ∃ MS, mean_subtract flat_polyfit opaque_repr slice_all (spectrum 0 module_globals)
        = (Ok MS, spectrum 0 module_globals)
        ∧ ma_get MS 0 0 0 0 = Some 0%float
        ∧ ma_get MS 1 0 0 0 = Some 0%float.
Proof.
  destruct (constant_channel_zero flat_polyfit opaque_repr slice_all
              (spectrum 0 module_globals) (VInt 0) spectrum_data spectrum_counts
              0 0 0 2%float
              eq_refl eq_refl eq_refl eq_refl
              (conj eq_refl (conj eq_refl (conj eq_refl eq_refl))))
    as (MS & Hrun & _ & Hzero).
  - cbv; lia.
  - cbv; lia.
  - cbv; lia.
  - intros [|[|t]] Ht; [reflexivity..|exfalso; cbv in Ht; lia].
  - reflexivity.
  - reflexivity.
  - reflexivity.
  - reflexivity.
  - exists MS. split_and!; [exact Hrun|..].
    + apply (Hzero 0 1%float); [cbv; lia|reflexivity..].
    + apply (Hzero 1 1%float); [cbv; lia|reflexivity..].
Defined.

(** *** The mask of the result *)

(** Opens the outermost bind of a run that returned. *)
Ltac open_bind H :=
  rewrite bind_run in H;
  match type of H with
  | context [let (_, _) := ?x in _] =>
      let E := fresh "E" in
      destruct x as [[?|?] ?] eqn:E; [|discriminate H]
  end.

Section Mask.

Context {R : Type} {SC : Scalar R}.
Variable np_polyfit : list R → list (list R) → Z → res (nat → nat → R).
Variable py_repr : pyval R → string.

(** The result [MS] is masked wherever [D] is. *)
Definition mask_kept (D MS : marray R) : Prop :=
  ∀ t s c p, ma_get D t s c p = None → ma_get MS t s c p = None.

Lemma getattr_inv name (w w' : world R) v :
  getattr name w = (Ok v, w') → w_self w !! name = Some v ∧ w' = w.
Proof.
  unfold getattr. destruct (w_self w !! name); intros H; by simplify_eq.
Qed.

Lemma lift_inv {A} (r : res A) (w w' : world R) a :
  lift r w = (Ok a, w') → r = Ok a ∧ w' = w.
Proof. unfold lift. intros H. by simplify_eq. Qed.

Lemma as_ma_inv (v : pyval R) m : as_ma v = Ok m → v = VMa m.
Proof. destruct v; simpl; intros H; by simplify_eq. Qed.

Lemma foldM_invariant {A B} (P : B → world R → Prop) (body : B → A → M R B)
    (l : list A) (acc acc' : B) (w w' : world R) :
  (∀ b x w0 b' w0', P b w0 → body b x w0 = (Ok b', w0') → P b' w0') →
  P acc w → foldM body l acc w = (Ok acc', w') → P acc' w'.
Proof.
  intros Hstep. revert acc w.
  induction l as [|x l IH]; intros acc w HP H; simpl in H.
  - unfold mret, M_ret in H. by simplify_eq.
  - open_bind H. eapply IH; [|exact H]. eapply Hstep; eauto.
Qed.

Lemma index_of_nth (c : nat) (l : list nat) (j : nat) :
  index_of c l = Some j → nth j l 0 = c.
Proof.
  revert j. induction l as [|h l IH]; intros j H; simpl in H; [discriminate|].
  destruct (c =? h) eqn:E.
  - apply Nat.eqb_eq in E. by simplify_eq.
  - destruct (index_of c l) as [j'|]; simpl in H; [|discriminate].
    simplify_eq. simpl. by apply IH.
Qed.

Lemma mask_kept_zeros_like (D : marray R) : mask_kept D (ma_zeros_like D).
Proof.
  intros t s c p. destruct D as [d|d]; unfold ma_get; simpl; [done|].
  by intros ->.
Qed.

(** Writing the entries of a mask group keeps the mask of the data: they
    are quotients of the data entries. *)
Lemma mask_kept_setitem (f : pyslice) (data MS : marray R) (i : nat) (idxs : list nat)
    (nb : ndarray (option R)) (mu : nat → nat → R) :
  mask_kept (ma_slice2 f data) MS →
  mask_kept (ma_slice2 f data)
            (ma_setitem MS i idxs (group_ms (ma_elems data) nb f i idxs mu)).
Proof.
  intros HMS t s c p HD. unfold ma_get, ma_setitem. cbn [ma_elems nd_at].
  destruct ((s =? 0) && (p =? i)) eqn:Esp; [|by apply HMS].
  destruct (index_of c idxs) as [j|] eqn:Ej; [|by apply HMS].
  apply andb_true_iff in Esp as [Es Ep].
  apply Nat.eqb_eq in Es, Ep. subst s p.
  unfold group_ms. rewrite (index_of_nth _ _ _ Ej).
  unfold ma_get in HD. rewrite ma_elems_slice2 in HD. simpl in HD.
  by rewrite HD.
Qed.

Lemma fit_group_result f i d good uniq MS k (w w' : world R) MS' :
  fit_group np_polyfit py_repr f i d good uniq MS k w = (Ok MS', w') →
  ∃ nb mu,
    MS' = ma_setitem MS i (map (λ j, nth j good 0) (group_chans d f i good uniq k))
                     (group_ms d nb f i
                        (map (λ j, nth j good 0) (group_chans d f i good uniq k)) mu).
Proof.
  unfold fit_group, fit_columns. cbv zeta. intros H.
  repeat (open_bind H; cbv beta zeta in H).
  destruct (_ || _) in H; [discriminate|].
  destruct (negb _) in H; [discriminate|].
  unfold mret, M_ret in H. simplify_eq. eauto.
Qed.

Lemma fit_pol_mask_kept f data MS i (w w' : world R) MS' :
  w_self w !! "data" = Some (VMa data) →
  mask_kept (ma_slice2 f data) MS →
  fit_pol np_polyfit py_repr f MS i w = (Ok MS', w') →
  mask_kept (ma_slice2 f data) MS' ∧ w_self w' = w_self w.
Proof.
  intros Hdata HMS H.
  pose proof (keeps_fit_pol np_polyfit py_repr f MS i w) as Hself.
  rewrite H in Hself. simpl in Hself. split; [|exact Hself].
  unfold fit_pol in H. open_bind H.
  apply getattr_inv in E as [Hd ->]. rewrite Hdata in Hd. injection Hd as <-.
  open_bind H. apply lift_inv in E as [Hm ->]. simpl in Hm. injection Hm as <-.
  cbv zeta in H.
  destruct (dim1 _ =? 0) in H; [discriminate|].
  destruct (negb _) in H; [discriminate|].
  eapply (foldM_invariant (λ b _, mask_kept (ma_slice2 f data) b)); [|exact HMS|exact H].
  intros b x w0 b' w0' Hb Hrun. cbv beta in *.
  apply fit_group_result in Hrun as (nb & mu & ->).
  by apply mask_kept_setitem.
Qed.

(** A product is masked where its first factor is. *)
Lemma multiply_mask (a b m : marray R) t s c p :
  ma_multiply a b = Ok m → in_shape (ma_elems a) t s c p →
  ma_get a t s c p = None → ma_get m t s c p = None.
Proof.
  intros H (Ht & Hs & Hc & Hp) Ha.
  assert (res_bind (broadcast2 el_mul (ma_elems a) (ma_elems b)) (λ d, Ok (Masked d)) = Ok m)
    as H'.
  { destruct a as [x|x], b as [y|y]; try exact H.
    unfold ma_get in Ha. simpl in Ha. discriminate. }
  clear H. unfold broadcast2 in H'.
  destruct (bdim (dim0 (ma_elems a)) (dim0 (ma_elems b))); [|discriminate].
  destruct (bdim (dim1 (ma_elems a)) (dim1 (ma_elems b))); [|discriminate].
  destruct (bdim (dim2 (ma_elems a)) (dim2 (ma_elems b))); [|discriminate].
  destruct (bdim (dim3 (ma_elems a)) (dim3 (ma_elems b))); [|discriminate].
  simpl in H'.
  injection H' as <-. unfold ma_get. cbn [ma_elems nd_at].
  rewrite !bidx_in by done. unfold ma_get in Ha. by rewrite Ha.
Qed.

Lemma sub_scalar_mask (a : marray R) (x : R) t s c p :
  ma_get a t s c p = None → ma_get (ma_sub_scalar a x) t s c p = None.
Proof. destruct a as [d|d]; unfold ma_get; simpl; [done|]. by intros ->. Qed.

Lemma sub_scalar_shape (a : marray R) (x : R) :
  same_shape (ma_elems (ma_sub_scalar a x)) (ma_elems a).
Proof. by destruct a. Qed.

(** C2: whenever [mean_subtract] returns an array, for any order, every
    position of [data[:, :, f]] that is masked is masked in the result; so
    a channel masked at all times is masked at all times in the result. *)
Theorem mean_subtract_mask_superset (f : pyslice) (w w' : world R) (data MS : marray R) :
  w_self w !! "data" = Some (VMa data) →
  mean_subtract np_polyfit py_repr f w = (Ok MS, w') →
  let D := ma_slice2 f data in
  (∀ t s c p, in_shape (ma_elems D) t s c p →
              ma_get D t s c p = None → ma_get MS t s c p = None)
  ∧ (∀ s c p, s < dim1 (ma_elems D) → c < dim2 (ma_elems D) → p < dim3 (ma_elems D) →
              (∀ t, t < dim0 (ma_elems D) → ma_get D t s c p = None) →
              ∀ t, t < dim0 (ma_elems D) → ma_get MS t s c p = None).
Proof.
  intros Hdata H D.
  assert (∀ t s c p, in_shape (ma_elems D) t s c p →
                     ma_get D t s c p = None → ma_get MS t s c p = None) as Hmask.
  2:{ split; [exact Hmask|]. intros s c p Hs Hc Hp Hall t Ht.
      apply Hmask; [done|]. by apply Hall. }
  unfold mean_subtract in H. cbv zeta in H.
  open_bind H. apply getattr_inv in E as [_ ->].
  open_bind H. rewrite test_run in E. injection E as _ <-.
  destruct (negb _) in H.
  - (* the mean *)
    open_bind H. apply getattr_inv in E as [Hd ->]. rewrite Hdata in Hd. injection Hd as <-.
    open_bind H. apply lift_inv in E as [Hm ->]. simpl in Hm. injection Hm as <-.
    open_bind H. apply lift_inv in E as [Hq ->]. fold D in Hq.
    open_bind H. apply getattr_inv in E as [_ ->].
    open_bind H. apply lift_inv in E as [_ ->].
    apply lift_inv in H as [Hmul ->].
    destruct (divide_by_mean D) as (q & Hq' & Hshape & _ & Hqget).
    rewrite Hq' in Hq. injection Hq as <-.
    intros t s c p Hin HD.
    eapply multiply_mask; [exact Hmul| |].
    + unfold in_shape in *.
      destruct (sub_scalar_shape q rone) as (-> & -> & -> & ->).
      destruct Hshape as (-> & -> & -> & ->). exact Hin.
    + apply sub_scalar_mask. rewrite Hqget by done. by rewrite HD.
  - (* the polynomial *)
    open_bind H. apply getattr_inv in E as [Hd ->]. rewrite Hdata in Hd. injection Hd as <-.
    open_bind H. apply lift_inv in E as [Hm ->]. simpl in Hm. injection Hm as <-.
    fold D in H.
    assert (mask_kept D MS ∧ w_self w' = w_self w) as [HMS _]; [|intros t s c p _; apply HMS].
    eapply (foldM_invariant (λ b w0, mask_kept D b ∧ w_self w0 = w_self w));
      [|split; [apply mask_kept_zeros_like|reflexivity]|exact H].
    intros b x w0 b' w0' [Hb Hw0] Hrun. cbv beta.
    destruct (fit_pol_mask_kept f data b x w0 w0' b') as [Hb' Hw0']; [congruence|done..|].
    split; [exact Hb'|congruence].
Qed.

End Mask.

(** On the spectrum, whose channel 1 is masked at both times: for order 0,
    and for order 1 with [coeff_write] bound to [False]. *)
Lemma mean_subtract_mask_superset_witness :
  (∃ MS, mean_subtract flat_polyfit opaque_repr slice_all (spectrum 0 module_globals)
         = (Ok MS, spectrum 0 module_globals)
         ∧ ∀ t, t < 2 → ma_get MS t 0 1 0 = None)
  ∧ (∃ MS, mean_subtract flat_polyfit opaque_repr slice_all (spectrum 1 no_coeff_write)
           = (Ok MS, spectrum 1 no_coeff_write)
           ∧ ∀ t, t < 2 → ma_get MS t 0 1 0 = None).
Proof.
  split.
  - destruct (mean_subtract_order0_entries flat_polyfit opaque_repr slice_all
                (spectrum 0 module_globals) (VInt 0) spectrum_data spectrum_counts
                eq_refl eq_refl eq_refl eq_refl
                (conj eq_refl (conj eq_refl (conj eq_refl eq_refl))))
      as (MS & Hrun & _).
    exists MS. split; [exact Hrun|].
    apply (mean_subtract_mask_superset flat_polyfit opaque_repr slice_all
             (spectrum 0 module_globals) (spectrum 0 module_globals) spectrum_data MS
             eq_refl Hrun);
      [cbv; lia..|].
    intros [|[|t]] Ht; [reflexivity..|exfalso; cbv in Ht; lia].
  - eexists. split; [vm_compute; reflexivity|].
    eapply (mean_subtract_mask_superset flat_polyfit opaque_repr slice_all
             (spectrum 1 no_coeff_write) (spectrum 1 no_coeff_write) spectrum_data _
             eq_refl);
      [vm_compute; reflexivity|cbv; lia..|].
    intros [|[|t]] Ht; [reflexivity..|exfalso; cbv in Ht; lia].
Defined.

(** *** The polynomial path and the variable [coeff_write] *)

Section Polynomial.

Context {R : Type} {SC : Scalar R}.
Variable np_polyfit : list R → list (list R) → Z → res (nat → nat → R).
Variable py_repr : pyval R → string.

(** With [coeff_write] unbound no mask group is ever fitted to the end:
    the body of the loop over the groups raises, [NameError] unless reading
    the order or the fit itself fails first. *)
Lemma fit_group_unbound f i d good uniq MS k (w : world R) :
  w_globals w !! "coeff_write" = None →
  ∃ e, fit_group np_polyfit py_repr f i d good uniq MS k w = (Raise e, w)
       ∧ (e = NameError "coeff_write"
          ∨ e = AttributeError "order"
          ∨ ∃ x ycols deg, ma_polyfit np_polyfit x ycols deg = Raise e).
Proof.
  intros Hg. unfold fit_group, fit_columns. cbv zeta.
  rewrite bind_run. unfold getattr at 1.
  destruct (w_self w !! "order") as [ordv|]; [|eauto 6].
  rewrite bind_run, lift_run.
  destruct (ma_polyfit _ _ _ _) as [coeff|e] eqn:E; [|eauto 10].
  rewrite bind_run. unfold load_global. rewrite Hg. eauto.
Qed.

Lemma foldM_fit_group_unbound f i d good uniq l MS (w w' : world R) MS' :
  w_globals w !! "coeff_write" = None →
  foldM (fit_group np_polyfit py_repr f i d good uniq) l MS w = (Ok MS', w') →
  l = [] ∧ MS' = MS ∧ w' = w.
Proof.
  intros Hg H. destruct l as [|k l]; simpl in H.
  - unfold mret, M_ret in H. by simplify_eq.
  - destruct (fit_group_unbound f i d good uniq MS k w Hg) as (e & E & _).
    rewrite bind_run, E in H. discriminate.
Qed.

Lemma insert_mask_nonempty (x : list bool) (u : list (list bool)) :
  length (insert_mask x u) ≠ 0.
Proof. destruct u as [|h u]; simpl; [done|]. repeat case_match; simpl; lia. Qed.

Lemma unique_masks_nonempty (cols : list (list bool)) :
  length cols ≠ 0 → length (unique_masks cols) ≠ 0.
Proof. destruct cols as [|x cols]; [done|]. intros _. apply insert_mask_nonempty. Qed.

(** With [coeff_write] unbound, a polarization passes the loop only if it
    has no channel to fit; the result array is left as it was. *)
Lemma fit_pol_unbound f MS i (w w' : world R) MS' :
  w_globals w !! "coeff_write" = None →
  fit_pol np_polyfit py_repr f MS i w = (Ok MS', w') →
  MS' = MS ∧ w' = w
  ∧ ∃ data, w_self w !! "data" = Some (VMa data)
            ∧ good_chans (ma_elems data) f i = [].
Proof.
  intros Hg H. unfold fit_pol in H.
  open_bind H. apply getattr_inv in E as [Hd ->].
  open_bind H. apply lift_inv in E as [Hm ->]. apply as_ma_inv in Hm as ->.
  match type of Hd with _ = Some (VMa ?x) => rename x into m end.
  cbv zeta in H.
  destruct (dim1 _ =? 0) in H; [discriminate|].
  destruct (negb _) in H; [discriminate|].
  apply foldM_fit_group_unbound in H as (Hl & -> & ->); [|exact Hg].
  split_and!; [done..|]. eexists. split; [exact Hd|].
  apply (f_equal length) in Hl. rewrite length_seq in Hl.
  destruct (good_chans _ f i) as [|c good]; [done|].
  exfalso. revert Hl. apply unique_masks_nonempty. simpl. lia.
Qed.

(** On the polynomial path of the module as it is, [mean_subtract] either
    raises or returns the zeros it started from: no polynomial is ever
    evaluated and no coefficient file written. *)
Lemma mean_subtract_unbound_zeros (f : pyslice) (w w' : world R) (ordv : pyval R)
    (MS : marray R) :
  w_globals w !! "coeff_write" = None →
  w_self w !! "order" = Some ordv → truthy ordv = Ok true →
  mean_subtract np_polyfit py_repr f w = (Ok MS, w') →
  w' = w
  ∧ ∃ data, w_self w !! "data" = Some (VMa data)
            ∧ MS = ma_zeros_like (ma_slice2 f data)
            ∧ ∀ i, i < dim3 (ma_elems data) → good_chans (ma_elems data) f i = [].
Proof.
  intros Hg Hord Htruth H. unfold mean_subtract in H. cbv zeta in H.
  open_bind H. apply getattr_inv in E as [Ho ->]. rewrite Hord in Ho. injection Ho as <-.
  open_bind H. rewrite test_run, Htruth in E. injection E as <- <-.
  change (negb true) with false in H. cbv iota in H.
  open_bind H. apply getattr_inv in E as [Hd ->].
  open_bind H. apply lift_inv in E as [Hm ->]. apply as_ma_inv in Hm as ->.
  match type of Hd with _ = Some (VMa ?x) => rename x into m end.
  assert (∀ l MS0,
            foldM (fit_pol np_polyfit py_repr f) l MS0 w = (Ok MS, w') →
            MS = MS0 ∧ w' = w
            ∧ ∀ i, i ∈ l → good_chans (ma_elems m) f i = []) as Hloop.
  { induction l as [|i l IH]; intros MS0 Hl; simpl in Hl.
    - unfold mret, M_ret in Hl. simplify_eq. split_and!; [done..|]. by intros i ?%elem_of_nil.
    - open_bind Hl. apply fit_pol_unbound in E as (-> & -> & data & Hd' & Hgood); [|exact Hg].
      rewrite Hd in Hd'. injection Hd' as <-.
      apply IH in Hl as (-> & -> & Hrest). split_and!; [done..|].
      intros j [->|Hj]%elem_of_cons; [exact Hgood|by apply Hrest]. }
  apply Hloop in H as (-> & -> & Hall). split; [done|].
  exists m. split_and!; [done..|].
  intros i Hi. apply Hall. apply elem_of_seq. lia.
Qed.

End Polynomial.

(** C3: order 1 on the spectrum, in the module as it is: the first mask
    group is fitted and then the unbound variable [coeff_write] is read;
    [mean_subtract] raises [NameError] (or what the fit raised): no [mu]
    is evaluated, nothing is written back and no file is written. *)
Theorem mean_subtract_order1_name_error
    (np_polyfit : list float → list (list float) → Z → res (nat → nat → float))
    (py_repr : pyval float → string) :
  ∃ e, (mean_subtract np_polyfit py_repr slice_all (spectrum 1 module_globals)).1 = Raise e
       ∧ (e = NameError "coeff_write" ∨ ∃ x ycols, np_polyfit x ycols 1%Z = Raise e)
       ∧ w_files (mean_subtract np_polyfit py_repr slice_all (spectrum 1 module_globals)).2 = ∅.
Proof.
  destruct (np_polyfit [1%float; 2%float] [[2%float; 2%float]; [1%float; 3%float]] 1%Z)
    as [coeff|e] eqn:E.
  - exists (NameError "coeff_write"). split_and!; [|by left|].
    + vm_compute. vm_compute in E. by rewrite E.
    + vm_compute. vm_compute in E. by rewrite E.
  - exists e. split_and!; [|eauto|].
    + vm_compute. vm_compute in E. by rewrite E.
    + vm_compute. vm_compute in E. by rewrite E.
Qed.

(** C4: order 1 on two channels that share their mask, in the module as
    it is: the two channels form one group, which is fitted in one pass,
    and the run stops at the unbound variable [coeff_write] before any [mu]
    exists to compare with a fit per channel. *)
Theorem grouped_fit_name_error
    (np_polyfit : list float → list (list float) → Z → res (nat → nat → float))
    (py_repr : pyval float → string) :
  let d := ma_elems paired_data in
  let good := good_chans d slice_all 0 in
  let uniq := unique_masks (map (chan_mask d slice_all 0) good) in
  good = [0; 1] ∧ uniq = [[false; false]]
  ∧ group_chans d slice_all 0 good uniq 0 = [0; 1]
  ∧ ∃ e, (mean_subtract np_polyfit py_repr slice_all (paired 1 module_globals)).1 = Raise e
         ∧ (e = NameError "coeff_write" ∨ ∃ x ycols, np_polyfit x ycols 1%Z = Raise e).
Proof.
  split_and!; [reflexivity..|].
  destruct (np_polyfit [1%float; 2%float] [[1%float; 3%float]; [2%float; 5%float]] 1%Z)
    as [coeff|e] eqn:E.
  - exists (NameError "coeff_write"). split; [|by left].
    vm_compute. vm_compute in E. by rewrite E.
  - exists e. split; [|eauto].
    vm_compute. vm_compute in E. by rewrite E.
Qed.

(** *** Groups of channels against channels one by one *)

Section Grouping.

Context {R : Type} {SC : Scalar R}.
Variable np_polyfit : list R → list (list R) → Z → res (nat → nat → R).
Variable py_repr : pyval R → string.

(** What the least squares of numpy does for a [y] of several columns: it
    solves for each column what it solves for that column alone. *)
Definition columnwise : Prop :=
  ∀ x ycols deg coeff,
    np_polyfit x ycols deg = Ok coeff →
    ∀ j, j < length ycols →
      ∃ cj, np_polyfit x [nth j ycols []] deg = Ok cj ∧ ∀ k, cj k 0 = coeff k j.

(** Two arrays with the same entries. *)
Definition same_entries (a b : marray R) : Prop :=
  ∀ t s c p, ma_get a t s c p = ma_get b t s c p.

Lemma ma_get_setitem (MS : marray R) i idxs v t s c p :
  ma_get (ma_setitem MS i idxs v) t s c p
  = if (s =? 0) && (p =? i) then
      match index_of c idxs with
      | Some j => v t j
      | None => ma_get MS t s c p
      end
    else ma_get MS t s c p.
Proof. reflexivity. Qed.

Lemma index_of_elem (c : nat) (l : list nat) :
  In c l → ∃ j, index_of c l = Some j.
Proof.
  induction l as [|h l IH]; intros Hc; [done|].
  simpl. destruct (c =? h) eqn:E; [eauto|].
  destruct Hc as [->|Hc]; [by rewrite Nat.eqb_refl in E|].
  destruct (IH Hc) as [j ->]. simpl. eauto.
Qed.

Lemma index_of_not_elem (c : nat) (l : list nat) :
  ¬ In c l → index_of c l = None.
Proof.
  induction l as [|h l IH]; intros Hc; [done|].
  simpl. destruct (c =? h) eqn:E.
  - apply Nat.eqb_eq in E. subst. exfalso. apply Hc. by left.
  - rewrite IH; [done|]. intros ?. apply Hc. by right.
Qed.

Lemma index_of_lt (c : nat) (l : list nat) (j : nat) :
  index_of c l = Some j → j < length l.
Proof.
  revert j. induction l as [|h l IH]; intros j H; simpl in H; [discriminate|].
  destruct (c =? h); [simplify_eq; simpl; lia|].
  destruct (index_of c l) as [j'|]; simpl in H; [|discriminate].
  simplify_eq. simpl. specialize (IH j' eq_refl). lia.
Qed.

Lemma nth_map_lt {A B} (h : A → B) (l : list A) (j : nat) (a : A) (b : B) :
  j < length l → nth j (map h l) b = h (nth j l a).
Proof.
  revert j. induction l as [|x l IH]; intros j Hj; simpl in *; [lia|].
  destruct j as [|j]; [done|]. apply IH. lia.
Qed.

(** The masks [np.unique] returns are those it was given. *)
Lemma insert_mask_elem (m x : list bool) (u : list (list bool)) :
  In m (insert_mask x u) ↔ m = x ∨ In m u.
Proof.
  induction u as [|h u IH]; simpl.
  - intuition.
  - case_bool_decide; [subst; simpl; intuition|].
    destruct (mask_ltb x h); simpl; [intuition|].
    rewrite IH. intuition.
Qed.

Lemma unique_masks_elem (m : list bool) (cols : list (list bool)) :
  In m (unique_masks cols) ↔ In m cols.
Proof.
  unfold unique_masks. induction cols as [|x cols IH]; simpl; [done|].
  rewrite insert_mask_elem, IH. intuition.
Qed.

Lemma mask_index_nth (u : list (list bool)) (m : list bool) :
  In m u → mask_index u m < length u ∧ nth (mask_index u m) u [] = m.
Proof.
  induction u as [|h u IH]; intros Hm; [done|].
  simpl. case_bool_decide; [subst; split; [lia|done]|].
  destruct Hm as [->|Hm]; [done|].
  destruct (IH Hm). split; [lia|done].
Qed.

(** A world in which a caller has bound [coeff_write] to a false value. *)
Variable w : world R.
Variable cw : pyval R.
Hypothesis Hcw : w_globals w !! "coeff_write" = Some cw.
Hypothesis Hcwf : truthy cw = Ok false.

Definition abscissae (d : ndarray (option R)) : list Z :=
  map (λ t, Z.of_nat (t + 1)) (seq 0 (dim0 d)).

(** What it takes for the statements on the channels [idxs] to go through. *)
Definition fit_ok (f : pyslice) (i : nat) (d : ndarray (option R)) (idxs : list nat)
    (ordv : pyval R) (ordz : Z) (coeff : nat → nat → R) (nbm : marray R) : Prop :=
  w_self w !! "order" = Some ordv
  ∧ ma_polyfit np_polyfit (abscissae d) (map (chan_column d f i) idxs) ordv = Ok coeff
  ∧ as_int ordv = Ok ordz
  ∧ w_self w !! "Nbls" = Some (VMa nbm)
  ∧ (dim1 (ma_elems nbm) =? 0) || (dim3 (ma_elems nbm) <=? i) = false
  ∧ forallb (λ c, c <? slice_len f (dim2 (ma_elems nbm))) idxs = true
  ∧ (dim0 (ma_elems nbm) =? dim0 d) || (dim0 (ma_elems nbm) =? 1) = true.

Lemma load_global_inv name (w0 w' : world R) v :
  load_global name w0 = (Ok v, w') → w_globals w0 !! name = Some v ∧ w' = w0.
Proof.
  unfold load_global. destruct (w_globals w0 !! name); intros H; by simplify_eq.
Qed.

Lemma fit_columns_inv f i d idxs MS MS' w' :
  fit_columns np_polyfit py_repr f i d idxs MS w = (Ok MS', w') →
  w' = w
  ∧ ∃ ordv ordz coeff nbm,
      fit_ok f i d idxs ordv ordz coeff nbm
      ∧ MS' = ma_setitem MS i idxs
                (group_ms d (ma_elems nbm) f i idxs (poly_mu ordz coeff)).
Proof.
  unfold fit_columns. cbv zeta. intros H.
  open_bind H. apply getattr_inv in E as [Hord ->].
  open_bind H. apply lift_inv in E as [Hfit ->].
  open_bind H. apply load_global_inv in E as [Hg ->].
  rewrite Hcw in Hg. injection Hg as <-.
  open_bind H. rewrite test_run, Hcwf in E. injection E as <- <-.
  open_bind H. unfold mret, M_ret in E. injection E as _ <-.
  open_bind H. apply lift_inv in E as [Hint ->].
  open_bind H. apply getattr_inv in E as [Hnb ->].
  open_bind H. apply lift_inv in E as [Hma ->]. apply as_ma_inv in Hma as ->.
  destruct (_ || _ || _) eqn:E1 in H; [discriminate|].
  destruct (negb _) eqn:E2 in H; [discriminate|].
  unfold mret, M_ret in H. injection H as <- <-.
  apply orb_false_iff in E1 as [E1 E3]. apply negb_false_iff in E2, E3.
  split; [done|]. eexists _, _, _, _. split; [|reflexivity].
  unfold fit_ok, abscissae. split_and!; done.
Qed.

Lemma fit_columns_run f i d idxs MS ordv ordz coeff nbm :
  fit_ok f i d idxs ordv ordz coeff nbm →
  fit_columns np_polyfit py_repr f i d idxs MS w
  = (Ok (ma_setitem MS i idxs (group_ms d (ma_elems nbm) f i idxs (poly_mu ordz coeff))), w).
Proof.
  intros (Hord & Hfit & Hint & Hnb & E1 & E3 & E2).
  unfold fit_columns. cbv zeta.
  get Hord. rewrite bind_run, lift_run. fold (abscissae d). rewrite Hfit. cbv beta iota.
  rewrite bind_run. unfold load_global at 1. rewrite Hcw. cbv beta iota.
  rewrite bind_run, test_run, Hcwf. cbv beta iota.
  rewrite bind_run. unfold mret at 1, M_ret at 1. cbv beta iota.
  rewrite bind_run, lift_run, Hint. cbv beta iota.
  get Hnb. rewrite bind_run, lift_run. simpl as_ma. cbv beta iota.
  rewrite E1, E3, E2. reflexivity.
Qed.

Hypothesis Hcol : columnwise.

Lemma is_masked_nth (col : list (option R)) (t : nat) :
  is_masked (nth t col None) = nth t (map is_masked col) true.
Proof. symmetry. apply (map_nth is_masked col None t). Qed.

(** Within a group the rows [np.ma.polyfit] keeps are those it keeps for
    any one of its channels, and the fit of the channel alone has the
    coefficients of its column in the fit of the group. *)
Lemma fit_ok_single f i d idxs ordv ordz coeff nbm (m : list bool) (j : nat) :
  fit_ok f i d idxs ordv ordz coeff nbm →
  (∀ c, In c idxs → chan_mask d f i c = m) →
  j < length idxs →
  ∃ cj, fit_ok f i d [nth j idxs 0] ordv ordz cj nbm ∧ ∀ k, cj k 0 = coeff k j.
Proof.
  intros (Hord & Hfit & Hint & Hnb & E1 & E3 & E2) Hmask Hj.
  set (c := nth j idxs 0).
  assert (In c idxs) as Hc by (by apply nth_In).
  unfold ma_polyfit in Hfit. rewrite Hint in Hfit. simpl in Hfit.
  assert (∀ t, forallb (λ col, negb (is_masked (nth t col None)))
                       (map (chan_column d f i) idxs)
               = forallb (λ col, negb (is_masked (nth t col None)))
                         [chan_column d f i c]) as Hkeep.
  { intros t. simpl. rewrite andb_true_r.
    rewrite is_masked_nth. fold (chan_mask d f i c). rewrite (Hmask c Hc).
    destruct (negb (nth t m true)) eqn:Eb.
    - apply forallb_forall. intros col Hcol'.
      apply in_map_iff in Hcol' as (c' & <- & Hc').
      rewrite is_masked_nth. fold (chan_mask d f i c'). by rewrite (Hmask c' Hc').
    - apply not_true_iff_false. intros Hall.
      rewrite forallb_forall in Hall.
      specialize (Hall (chan_column d f i c) ltac:(by apply in_map)).
      rewrite is_masked_nth in Hall. fold (chan_mask d f i c) in Hall.
      rewrite (Hmask c Hc) in Hall. congruence. }
  destruct (Hcol _ _ _ _ Hfit j) as (cj & Hcj & Hk).
  { by rewrite !length_map. }
  exists cj. split; [|exact Hk].
  unfold fit_ok. split_and!; try done.
  - unfold ma_polyfit. rewrite Hint. simpl res_bind.
    rewrite <- (filter_ext _ _ Hkeep). rewrite <- Hcj. f_equal. simpl. f_equal.
    rewrite (nth_map_lt _ _ _ [] []) by (by rewrite length_map).
    by rewrite (nth_map_lt _ _ _ 0 []).
  - simpl. rewrite andb_true_r. rewrite forallb_forall in E3. by apply E3.
Qed.

Lemma group_ms_single d nb f i idxs ordz (coeff cj : nat → nat → R) (j t : nat) :
  (∀ k, cj k 0 = coeff k j) →
  group_ms d nb f i [nth j idxs 0] (poly_mu ordz cj) t 0
  = group_ms d nb f i idxs (poly_mu ordz coeff) t j.
Proof.
  intros Hk. unfold group_ms, poly_mu. simpl nth.
  do 4 f_equal. f_equal. apply map_ext. intros k. by rewrite Hk.
Qed.

(** The column the fit of channel [c] alone writes for polarization [i]. *)
Definition chan_fit (f : pyslice) (i : nat) (d : ndarray (option R)) (c : nat)
    (v : nat → option R) : Prop :=
  ∃ ordv ordz cj nbm,
    fit_ok f i d [c] ordv ordz cj nbm
    ∧ ∀ t, v t = group_ms d (ma_elems nbm) f i [c] (poly_mu ordz cj) t 0.

Lemma chan_fit_det f i d c v v' :
  chan_fit f i d c v → chan_fit f i d c v' → ∀ t, v t = v' t.
Proof.
  intros (ordv & ordz & cj & nbm & (Ho & Hf & Hi & Hn & _) & Hv)
         (ordv' & ordz' & cj' & nbm' & (Ho' & Hf' & Hi' & Hn' & _) & Hv') t.
  rewrite Ho in Ho'. injection Ho' as <-.
  rewrite Hf in Hf'. injection Hf' as <-.
  rewrite Hi in Hi'. injection Hi' as <-.
  rewrite Hn in Hn'. injection Hn' as <-.
  by rewrite Hv, Hv'.
Qed.

Lemma group_step f i d idxs MS MS' w' (m : list bool) :
  fit_columns np_polyfit py_repr f i d idxs MS w = (Ok MS', w') →
  (∀ c, In c idxs → chan_mask d f i c = m) →
  w' = w
  ∧ (∀ c, In c idxs → ∃ v, chan_fit f i d c v ∧ ∀ t, ma_get MS' t 0 c i = v t)
  ∧ (∀ t s c p, ¬ (s = 0 ∧ p = i ∧ In c idxs) → ma_get MS' t s c p = ma_get MS t s c p).
Proof.
  intros H Hmask.
  apply fit_columns_inv in H as (-> & ordv & ordz & coeff & nbm & Hok & ->).
  split_and!; [done|..].
  - intros c Hc.
    destruct (index_of_elem c idxs Hc) as [j Hj].
    pose proof (index_of_nth _ _ _ Hj) as Hnth.
    pose proof (index_of_lt _ _ _ Hj) as Hlt.
    destruct (fit_ok_single f i d idxs ordv ordz coeff nbm m j Hok Hmask Hlt)
      as (cj & Hokc & Hk).
    rewrite Hnth in Hokc.
    exists (λ t, group_ms d (ma_elems nbm) f i [c] (poly_mu ordz cj) t 0).
    split; [by eexists _, _, _, _|].
    intros t. rewrite ma_get_setitem, Nat.eqb_refl, Nat.eqb_refl, Hj. simpl.
    rewrite <- Hnth. symmetry. by apply group_ms_single.
  - intros t s c p Hnot. rewrite ma_get_setitem.
    destruct ((s =? 0) && (p =? i)) eqn:E; [|done].
    apply andb_true_iff in E as [Es Ep]. apply Nat.eqb_eq in Es, Ep.
    rewrite index_of_not_elem; [done|]. intros Hc. apply Hnot. done.
Qed.

Lemma single_step f i d c MS v :
  chan_fit f i d c v →
  ∃ MS', fit_columns np_polyfit py_repr f i d [c] MS w = (Ok MS', w)
         ∧ (∀ t, ma_get MS' t 0 c i = v t)
         ∧ (∀ t s c' p, ¬ (s = 0 ∧ p = i ∧ c' = c) →
                        ma_get MS' t s c' p = ma_get MS t s c' p).
Proof.
  intros (ordv & ordz & cj & nbm & Hok & Hv).
  eexists. split; [eapply fit_columns_run; exact Hok|]. split.
  - intros t. rewrite ma_get_setitem, Nat.eqb_refl, Nat.eqb_refl. simpl.
    rewrite Nat.eqb_refl. by rewrite Hv.
  - intros t s c' p Hnot. rewrite ma_get_setitem.
    destruct ((s =? 0) && (p =? i)) eqn:E; [|done].
    apply andb_true_iff in E as [Es Ep]. apply Nat.eqb_eq in Es, Ep.
    simpl. destruct (c' =? c) eqn:Ec; [|done].
    apply Nat.eqb_eq in Ec. exfalso. by apply Hnot.
Qed.

(** The channels of group [k] are the good channels whose mask has
    position [k] among the distinct masks. *)
Lemma group_idxs_elem (d : ndarray (option R)) f i good uniq k c :
  In c (map (λ j, nth j good 0) (group_chans d f i good uniq k))
  ↔ In c good ∧ mask_index uniq (chan_mask d f i c) = k.
Proof.
  unfold group_chans. rewrite in_map_iff. split.
  - intros (j & <- & Hj). apply filter_In in Hj as [Hj Hk].
    apply in_seq in Hj. apply Nat.eqb_eq in Hk. split; [apply nth_In; lia|done].
  - intros [Hc Hk]. destruct (In_nth good c 0 Hc) as (j & Hj & Hnth).
    exists j. split; [done|]. apply filter_In. split; [apply in_seq; lia|].
    rewrite Hnth. by apply Nat.eqb_eq.
Qed.

Lemma grouped_fold f i d good uniq ks MS MS' w' :
  (∀ c, In c good → In (chan_mask d f i c) uniq) →
  List.NoDup ks →
  foldM (fit_group np_polyfit py_repr f i d good uniq) ks MS w = (Ok MS', w') →
  w' = w
  ∧ (∀ c, In c good → In (mask_index uniq (chan_mask d f i c)) ks →
          ∃ v, chan_fit f i d c v ∧ ∀ t, ma_get MS' t 0 c i = v t)
  ∧ (∀ t s c p,
       ¬ (s = 0 ∧ p = i ∧ In c good ∧ In (mask_index uniq (chan_mask d f i c)) ks) →
       ma_get MS' t s c p = ma_get MS t s c p).
Proof.
  intros Huniq. revert MS. induction ks as [|k ks IH]; intros MS Hnd H; simpl in H.
  - unfold mret, M_ret in H. injection H as <- <-. split_and!; [done| |done].
    intros c _ [].
  - open_bind H. unfold fit_group in E. cbv zeta in E.
    apply (group_step _ _ _ _ _ _ _ (nth k uniq [])) in E as (-> & Hset & Hkeep).
    2:{ intros c [Hc Hk]%group_idxs_elem.
        destruct (mask_index_nth uniq _ (Huniq c Hc)) as [_ Hnth]. by rewrite Hk in Hnth. }
    apply List.NoDup_cons_iff in Hnd as [Hk Hnd].
    destruct (IH _ Hnd H) as (-> & Hset' & Hkeep'). split_and!; [done|..].
    + intros c Hc Hin.
      destruct (Nat.eq_dec (mask_index uniq (chan_mask d f i c)) k) as [Heq|Hne].
      * destruct (Hset c) as (v & Hv & Hget); [by apply group_idxs_elem|].
        exists v. split; [done|]. intros t. rewrite Hkeep'; [done|].
        intros (_ & _ & _ & Hin'). rewrite Heq in Hin'. done.
      * destruct Hin as [Hin|Hin]; [congruence|]. by apply Hset'.
    + intros t s c p Hnot. rewrite Hkeep'.
      * apply Hkeep. intros (-> & -> & [Hc Hk']%group_idxs_elem).
        apply Hnot. split_and!; [done..|]. by left.
      * intros (-> & -> & Hc & Hin). apply Hnot. split_and!; [done..|]. by right.
Qed.

Lemma per_channel_fold f i d cs MS :
  List.NoDup cs →
  (∀ c, In c cs → ∃ v, chan_fit f i d c v) →
  ∃ MS', foldM (λ MS c, fit_columns np_polyfit py_repr f i d [c] MS) cs MS w = (Ok MS', w)
         ∧ (∀ c v, In c cs → chan_fit f i d c v → ∀ t, ma_get MS' t 0 c i = v t)
         ∧ (∀ t s c p, ¬ (s = 0 ∧ p = i ∧ In c cs) →
                       ma_get MS' t s c p = ma_get MS t s c p).
Proof.
  revert MS. induction cs as [|c cs IH]; intros MS Hnd Hfit; simpl.
  - exists MS. split_and!; [done| |done]. intros c v [].
  - apply List.NoDup_cons_iff in Hnd as [Hc Hnd].
    destruct (Hfit c) as [vc Hvc]; [by left|].
    destruct (single_step f i d c MS vc Hvc) as (MS1 & Hrun & Hget & Hkeep).
    destruct (IH MS1 Hnd) as (MS' & Hrun' & Hget' & Hkeep').
    { intros c' Hc'. apply Hfit. by right. }
    exists MS'. split_and!.
    + by run_ok Hrun.
    + intros c' v [<-|Hc'] Hv t.
      * rewrite Hkeep' by (intros (_ & _ & ?); done).
        rewrite Hget. by apply (chan_fit_det f i d c).
      * by apply Hget'.
    + intros t s c' p Hnot. rewrite Hkeep'.
      * apply Hkeep. intros (-> & -> & ->). apply Hnot. split_and!; [done..|]. by left.
      * intros (-> & -> & Hc'). apply Hnot. split_and!; [done..|]. by right.
Qed.

Lemma fit_pol_refines f i MSg MSg' MSc w' :
  fit_pol np_polyfit py_repr f MSg i w = (Ok MSg', w') →
  same_entries MSg MSc →
  ∃ MSc', fit_pol_per_channel np_polyfit py_repr f MSc i w = (Ok MSc', w)
          ∧ w' = w ∧ same_entries MSg' MSc'.
Proof.
  intros H Hsame. unfold fit_pol in H. unfold fit_pol_per_channel.
  open_bind H. apply getattr_inv in E as [Hd ->]. get Hd.
  open_bind H. apply lift_inv in E as [Hm ->]. rewrite bind_run, lift_run, Hm. cbv beta iota.
  cbv zeta in H |- *.
  destruct (dim1 _ =? 0); [discriminate|].
  destruct (negb _); [discriminate|].
  match type of H with
  | foldM (fit_group _ _ _ _ ?d0 ?g ?u) _ _ _ = _ =>
      set (d := d0) in *; set (good := g) in *; set (uniq := u) in *
  end.
  assert (∀ c, In c good → In (chan_mask d f i c) uniq) as Huniq.
  { intros c Hc. apply unique_masks_elem. by apply in_map. }
  apply grouped_fold in H as (-> & Hset & Hkeep); [|exact Huniq|apply List.seq_NoDup].
  assert (∀ c, In c good → In (mask_index uniq (chan_mask d f i c)) (seq 0 (length uniq)))
    as Hgrp.
  { intros c Hc. apply in_seq. destruct (mask_index_nth uniq _ (Huniq c Hc)). lia. }
  destruct (per_channel_fold f i d good MSc) as (MSc' & Hrun & Hget & Hkeep').
  { apply List.NoDup_filter, List.seq_NoDup. }
  { intros c Hc. destruct (Hset c Hc (Hgrp c Hc)) as (v & Hv & _). eauto. }
  exists MSc'. split_and!; [done..|].
  intros t s c p.
  destruct (Nat.eq_dec s 0) as [->|Hs]; [destruct (Nat.eq_dec p i) as [->|Hp];
    [destruct (in_dec Nat.eq_dec c good) as [Hc|Hc]|]|].
  - destruct (Hset c Hc (Hgrp c Hc)) as (v & Hv & Hg). rewrite Hg.
    symmetry. by apply Hget.
  - rewrite Hkeep, Hkeep' by tauto. apply Hsame.
  - rewrite Hkeep, Hkeep' by tauto. apply Hsame.
  - rewrite Hkeep, Hkeep' by tauto. apply Hsame.
Qed.

(** Were [coeff_write] bound to a false value, grouping the channels by
    mask would change nothing: whenever the grouped polynomial path of
    [mean_subtract] returns, the fit of each channel by itself returns an
    array with the same entries, for a least squares that works column by
    column. *)
Lemma grouped_fit_refines_per_channel (f : pyslice) (ordv : pyval R) (MSg : marray R)
    (w' : world R) :
  w_self w !! "order" = Some ordv → truthy ordv = Ok true →
  mean_subtract np_polyfit py_repr f w = (Ok MSg, w') →
  ∃ MSc, mean_subtract_per_channel np_polyfit py_repr f w = (Ok MSc, w)
         ∧ w' = w ∧ same_entries MSg MSc.
Proof.
  intros Hord Htruth H. unfold mean_subtract in H. cbv zeta in H.
  unfold mean_subtract_per_channel.
  open_bind H. apply getattr_inv in E as [Ho ->]. rewrite Hord in Ho. injection Ho as <-.
  open_bind H. rewrite test_run, Htruth in E. injection E as <- <-.
  change (negb true) with false in H. cbv iota in H.
  open_bind H. apply getattr_inv in E as [Hd ->]. get Hd.
  open_bind H. apply lift_inv in E as [Hm ->]. rewrite bind_run, lift_run, Hm. cbv beta iota.
  cbv zeta.
  match type of H with
  | foldM _ ?l ?MS0 _ = _ => generalize dependent MS0; generalize l
  end.
  intros l MS0.
  assert (∀ MSc0, same_entries MS0 MSc0 →
            foldM (fit_pol np_polyfit py_repr f) l MS0 w = (Ok MSg, w') →
            ∃ MSc, foldM (fit_pol_per_channel np_polyfit py_repr f) l MSc0 w = (Ok MSc, w)
                   ∧ w' = w ∧ same_entries MSg MSc) as Hloop; [|by apply Hloop].
  revert MS0. induction l as [|i l IH]; intros MS0 MSc0 Hsame H; simpl in H |- *.
  - unfold mret, M_ret in H. injection H as <- <-. by exists MSc0.
  - open_bind H.
    apply (fit_pol_refines _ _ _ _ MSc0) in E as (MSc1 & Hrun & -> & Hsame1); [|done].
    run_ok Hrun. by eapply IH.
Qed.

End Grouping.

Lemma flat_polyfit_columnwise : columnwise flat_polyfit.
Proof.
  intros x ycols deg coeff H j Hj. unfold flat_polyfit in *.
  injection H as <-. eexists. split; [reflexivity|]. intros k. reflexivity.
Qed.

(** The two channels of [paired], fitted as one group and fitted one by
    one, with [coeff_write] bound to [False]. *)
Example grouped_fit_paired :
  ∃ MSg MSc,
    mean_subtract flat_polyfit opaque_repr slice_all (paired 1 no_coeff_write)
    = (Ok MSg, paired 1 no_coeff_write)
    ∧ mean_subtract_per_channel flat_polyfit opaque_repr slice_all (paired 1 no_coeff_write)
      = (Ok MSc, paired 1 no_coeff_write)
    ∧ same_entries MSg MSc.
Proof.
  assert (∃ MSg, mean_subtract flat_polyfit opaque_repr slice_all (paired 1 no_coeff_write)
                 = (Ok MSg, paired 1 no_coeff_write)) as [MSg Hg]
    by (eexists; vm_compute; reflexivity).
  destruct (grouped_fit_refines_per_channel flat_polyfit opaque_repr
              (paired 1 no_coeff_write) (VBool false) eq_refl eq_refl
              flat_polyfit_columnwise slice_all (VInt 1) MSg _ eq_refl eq_refl Hg)
    as (MSc & Hc & _ & Hsame).
  by exists MSg, MSc.
Qed.

(** * Further properties of the code *)

(** *** The groups of channels that share a mask *)

Section MaskGroups.

Lemma mask_ltb_irrefl (a : list bool) : mask_ltb a a = false.
Proof. induction a as [|x a IH]; [done|]. simpl. by rewrite Bool.eqb_reflx. Qed.

Lemma mask_ltb_trans (a b c : list bool) :
  mask_ltb a b = true → mask_ltb b c = true → mask_ltb a c = true.
Proof.
  revert b c. induction a as [|x a IH]; intros [|y b] [|z c]; simpl; try done.
  destruct x, y, z; simpl; try done. all: apply IH.
Qed.

Lemma mask_ltb_total (a b : list bool) :
  a ≠ b → mask_ltb a b = false → mask_ltb b a = true.
Proof.
  revert b. induction a as [|x a IH]; intros [|y b]; simpl; try done.
  destruct x, y; simpl; try done.
  all: intros Hne; apply IH; congruence.
Qed.

Definition mask_lt (a b : list bool) : Prop := mask_ltb a b = true.

Lemma insert_mask_sorted (m : list bool) (u : list (list bool)) :
  StronglySorted mask_lt u → StronglySorted mask_lt (insert_mask m u).
Proof.
  induction 1 as [|h u Hs IH Hh]; simpl.
  - repeat constructor.
  - case_bool_decide as Hmh; [by constructor|].
    destruct (mask_ltb m h) eqn:E.
    + constructor; [by constructor|]. constructor; [done|].
      eapply Forall_impl; [exact Hh|]. intros x Hx. by eapply mask_ltb_trans.
    + constructor; [done|].
      apply List.Forall_forall. intros x [->|Hx]%insert_mask_elem.
      * by apply mask_ltb_total.
      * rewrite List.Forall_forall in Hh. by apply Hh.
Qed.

(** [np.unique] returns the distinct masks in increasing order. *)
Lemma unique_masks_sorted (cols : list (list bool)) :
  StronglySorted mask_lt (unique_masks cols).
Proof.
  unfold unique_masks. induction cols as [|x cols IH]; simpl; [constructor|].
  by apply insert_mask_sorted.
Qed.

Lemma sorted_NoDup (u : list (list bool)) : StronglySorted mask_lt u → List.NoDup u.
Proof.
  induction 1 as [|h u Hs IH Hh]; constructor; [|done].
  intros Hin. rewrite List.Forall_forall in Hh. specialize (Hh h Hin).
  unfold mask_lt in Hh. by rewrite mask_ltb_irrefl in Hh.
Qed.

Lemma mask_index_of_nth (u : list (list bool)) (k : nat) :
  List.NoDup u → k < length u → mask_index u (nth k u []) = k.
Proof.
  intros Hnd Hk.
  destruct (mask_index_nth u (nth k u [])) as [Hlt Hnth]; [by apply nth_In|].
  by apply (proj1 (List.NoDup_nth u []) Hnd).
Qed.

Context {R : Type}.

Lemma good_chans_elem (d : ndarray (option R)) (f : pyslice) (i c : nat) :
  In c (good_chans d f i)
  ↔ c < slice_len f (dim2 d)
    ∧ ∃ t x, t < dim0 d ∧ nd_at d t 0 (slice_lo f (dim2 d) + c) i = Some x.
Proof.
  unfold good_chans. rewrite filter_In, in_seq, negb_true_iff.
  split.
  - intros [Hc Hall]. split; [lia|].
    destruct (existsb (λ e, negb (is_masked e)) (chan_column d f i c)) eqn:E.
    + apply existsb_exists in E as (e & He & Hm). unfold chan_column in He.
      apply in_map_iff in He as (t & <- & Ht%in_seq).
      destruct (nd_at d t 0 _ i) as [x|] eqn:Ex; [|done].
      exists t, x. split; [lia|done].
    + exfalso. apply not_true_iff_false in Hall. apply Hall.
      apply List.forallb_forall. intros e He.
      destruct (is_masked e) eqn:Em; [done|].
      apply not_true_iff_false in E. destruct E.
      apply existsb_exists. exists e. by rewrite Em.
  - intros [Hc (t & x & Ht & Hx)]. split; [lia|].
    apply not_true_iff_false. intros Hall.
    rewrite List.forallb_forall in Hall.
    specialize (Hall (Some x)). simpl in Hall.
    discriminate Hall. unfold chan_column. apply in_map_iff.
    exists t. split; [done|]. apply in_seq. lia.
Qed.

Lemma good_chans_NoDup (d : ndarray (option R)) (f : pyslice) (i : nat) :
  List.NoDup (good_chans d f i).
Proof. apply List.NoDup_filter, List.seq_NoDup. Qed.

(** X1: the groups the polynomial path fits.  A channel is taken when it
    has an unmasked sample; the distinct masks come out of [np.unique] in
    increasing order without repetition; every channel taken is in exactly
    one group, with channels of exactly its mask; no group is empty and no
    group lists a channel twice, so every channel taken is fitted once and
    assigned once. *)
Theorem mask_groups_partition (d : ndarray (option R)) (f : pyslice) (i : nat) :
  let good := good_chans d f i in
  let uniq := unique_masks (map (chan_mask d f i) good) in
  let group := λ k, map (λ j, nth j good 0) (group_chans d f i good uniq k) in
  (∀ c, In c good
        ↔ c < slice_len f (dim2 d)
          ∧ ∃ t x, t < dim0 d ∧ nd_at d t 0 (slice_lo f (dim2 d) + c) i = Some x)
  ∧ StronglySorted mask_lt uniq
  ∧ (∀ c, In c good →
          ∃ k, k < length uniq ∧ In c (group k) ∧ ∀ k', In c (group k') → k' = k)
  ∧ (∀ k c, In c (group k) → In c good ∧ chan_mask d f i c = nth k uniq [])
  ∧ (∀ k, k < length uniq → group k ≠ [])
  ∧ (∀ k, List.NoDup (group k)).
Proof.
  intros good uniq group.
  assert (∀ c, In c good → In (chan_mask d f i c) uniq) as Huniq.
  { intros c Hc. apply unique_masks_elem. by apply in_map. }
  pose proof (unique_masks_sorted (map (chan_mask d f i) good)) as Hsorted.
  fold uniq in Hsorted.
  split_and!.
  - intros c. apply good_chans_elem.
  - exact Hsorted.
  - intros c Hc. exists (mask_index uniq (chan_mask d f i c)).
    destruct (mask_index_nth uniq _ (Huniq c Hc)) as [Hlt _].
    split_and!; [done|by apply group_idxs_elem|].
    intros k' [_ Hk']%group_idxs_elem. done.
  - intros k c [Hc Hk]%group_idxs_elem. split; [done|].
    destruct (mask_index_nth uniq _ (Huniq c Hc)) as [_ Hnth]. by rewrite Hk in Hnth.
  - intros k Hk Hnil.
    assert (In (nth k uniq []) (map (chan_mask d f i) good)) as Hin
      by (apply unique_masks_elem; by apply nth_In).
    apply in_map_iff in Hin as (c & Hmask & Hc).
    assert (In c (group k)) as Hgk.
    { apply group_idxs_elem. split; [done|]. rewrite Hmask.
      apply mask_index_of_nth; [by apply sorted_NoDup|done]. }
    by rewrite Hnil in Hgk.
  - intros k. apply List.NoDup_map_NoDup_ForallPairs.
    + intros j1 j2 [H1%in_seq _]%filter_In [H2%in_seq _]%filter_In Heq.
      apply (proj1 (List.NoDup_nth good 0) (good_chans_NoDup d f i)); [lia..|done].
    + apply List.NoDup_filter, List.seq_NoDup.
Qed.

End MaskGroups.

Section GroupFit.

Context {R : Type} {SC : Scalar R}.
Variable np_polyfit : list R → list (list R) → Z → res (nat → nat → R).

Lemma chan_column_nth (d : ndarray (option R)) f i c t :
  t < dim0 d → nth t (chan_column d f i c) None = nd_at d t 0 (slice_lo f (dim2 d) + c) i.
Proof.
  intros Ht. unfold chan_column.
  rewrite (nth_map_lt _ _ _ 0 None) by (by rewrite length_seq).
  by rewrite seq_nth.
Qed.

Lemma chan_mask_nth (d : ndarray (option R)) f i c t :
  t < dim0 d →
  nth t (chan_mask d f i c) true = is_masked (nd_at d t 0 (slice_lo f (dim2 d) + c) i).
Proof.
  intros Ht. unfold chan_mask.
  rewrite (nth_map_lt _ _ _ None true) by (unfold chan_column; by rewrite length_map, length_seq).
  by rewrite chan_column_nth.
Qed.

(** X2: what the fit of a group is given.  For channels that share the
    mask [m], [np.ma.polyfit] drops the times at which [m] is set and no
    other: the least squares gets the time indices from 1 of the unmasked
    times and, for every channel of the group, its samples at these times,
    all of them unmasked; no sample is lost to the mask of another channel
    and no masked sample is fitted. *)
Theorem group_fit_uses_unmasked_samples (d : ndarray (option R)) (f : pyslice) (i : nat)
    (idxs : list nat) (m : list bool) (ordv : pyval R) :
  idxs ≠ [] → (∀ c, In c idxs → chan_mask d f i c = m) →
  let rows := List.filter (λ t, negb (nth t m true)) (seq 0 (dim0 d)) in
  ma_polyfit np_polyfit (abscissae d) (map (chan_column d f i) idxs) ordv
  = res_bind (as_int ordv) (λ degz,
      np_polyfit (map (λ t, of_int (Z.of_nat (t + 1))) rows)
                 (map (λ c, map (λ t, default rzero
                                        (nd_at d t 0 (slice_lo f (dim2 d) + c) i)) rows) idxs)
                 degz)
  ∧ (∀ c t, In c idxs → In t rows →
            ∃ x, nd_at d t 0 (slice_lo f (dim2 d) + c) i = Some x)
  ∧ (∀ c t, In c idxs → t < dim0 d → ¬ In t rows →
            nd_at d t 0 (slice_lo f (dim2 d) + c) i = None).
Proof.
  intros Hne Hmask rows.
  assert (∀ c t, In c idxs → t < dim0 d →
            negb (nth t m true) = negb (is_masked (nd_at d t 0 (slice_lo f (dim2 d) + c) i)))
    as Hm.
  { intros c t Hc Ht. by rewrite <- (Hmask c Hc), chan_mask_nth. }
  split_and!.
  - unfold ma_polyfit.
    assert (length (abscissae d) = dim0 d) as ->
      by (unfold abscissae; by rewrite length_map, length_seq).
    assert (List.filter (λ t, forallb (λ col, negb (is_masked (nth t col None)))
                                      (map (chan_column d f i) idxs))
                        (seq 0 (dim0 d)) = rows) as ->.
    { apply filter_ext_in. intros t Ht%in_seq.
      destruct idxs as [|c0 idxs']; [done|].
      rewrite (Hm c0 t) by (by left || lia).
      destruct (negb (is_masked (nd_at d t 0 (slice_lo f (dim2 d) + c0) i))) eqn:E.
      - apply List.forallb_forall. intros col (c & <- & Hc)%in_map_iff.
        rewrite chan_column_nth by lia. rewrite <- (Hm c t) by (done || lia).
        rewrite (Hm c0 t) by (by left || lia). done.
      - simpl. rewrite chan_column_nth by lia. by rewrite E. }
    destruct (as_int ordv) as [degz|e]; [|reflexivity]. simpl. f_equal.
    + apply map_ext_in. intros t [Ht%in_seq _]%filter_In. unfold abscissae.
      rewrite (nth_map_lt _ _ _ 0 0%Z) by (rewrite length_seq; lia).
      rewrite seq_nth by lia. done.
    + rewrite map_map. apply map_ext_in. intros c Hc.
      apply map_ext_in. intros t [Ht%in_seq _]%filter_In.
      rewrite chan_column_nth by lia. done.
  - intros c t Hc [Ht%in_seq Hrow]%filter_In.
    rewrite (Hm c t) in Hrow by (done || lia).
    destruct (nd_at d t 0 _ i); [eauto|done].
  - intros c t Hc Ht Hnot.
    destruct (nd_at d t 0 (slice_lo f (dim2 d) + c) i) as [x|] eqn:E; [|done].
    exfalso. apply Hnot. apply filter_In. split; [apply in_seq; lia|].
    rewrite (Hm c t) by done. by rewrite E.
Qed.

End GroupFit.

(** *** The polynomial path when [coeff_write] is bound to a false value *)

Section PolynomialRun.

Context {R : Type} {SC : Scalar R}.
Variable np_polyfit : list R → list (list R) → Z → res (nat → nat → R).
Variable py_repr : pyval R → string.

Variable w : world R.
Variable cw : pyval R.
Hypothesis Hcw : w_globals w !! "coeff_write" = Some cw.
Hypothesis Hcwf : truthy cw = Ok false.






End PolynomialRun.

(** The group of the channels 0 and 2 of the spectrum, unmasked at both
    times: the least squares gets the two times and the four samples. *)
Lemma group_fit_uses_unmasked_samples_witness :
  ma_polyfit flat_polyfit (abscissae (ma_elems spectrum_data))
             (map (chan_column (ma_elems spectrum_data) slice_all 0) [0; 2]) (VInt 1)
  = flat_polyfit [1%float; 2%float] [[2%float; 2%float]; [1%float; 3%float]] 1%Z.
Proof.
  destruct (group_fit_uses_unmasked_samples flat_polyfit (ma_elems spectrum_data) slice_all 0
              [0; 2] [false; false] (VInt 1)) as (Hfit & _).
  - discriminate.
  - intros c [<-|[<-|[]]]; reflexivity.
  - rewrite Hfit. reflexivity.
Defined.


(** *** The polynomial path when [coeff_write] is bound to a true value *)

Section CoeffWrite.

Context {R : Type} {SC : Scalar R}.
Variable np_polyfit : list R → list (list R) → Z → res (nat → nat → R).
Variable py_repr : pyval R → string.

(** The file of the coefficients. *)
Definition coeff_path (outpath obs : pyval R) (ordz : Z) (pol : pyval R) : string :=
  py_str py_repr outpath ++ "/" ++ py_str py_repr obs ++ "_ms_poly_coeff_order_"
  ++ pretty ordz ++ "_" ++ py_str py_repr pol ++ ".npy".

(** The world with other module globals. *)
Definition with_globals (g : gmap string (pyval R)) (w : world R) : world R :=
  {| w_self := w_self w; w_globals := g; w_dirs := w_dirs w;
     w_files := w_files w; w_warnings := w_warnings w |}.

Lemma fit_ok_self (w1 w2 : world R) f i d idxs ordv ordz coeff nbm :
  w_self w1 = w_self w2 →
  fit_ok np_polyfit w1 f i d idxs ordv ordz coeff nbm →
  fit_ok np_polyfit w2 f i d idxs ordv ordz coeff nbm.
Proof. unfold fit_ok. intros <-. done. Qed.

(** The statements on one group of channels when the coefficients are
    written. *)
Lemma fit_columns_written f i d idxs MS MS' (w w' : world R) cw :
  w_globals w !! "coeff_write" = Some cw → truthy cw = Ok true →
  fit_columns np_polyfit py_repr f i d idxs MS w = (Ok MS', w') →
  ∃ ordv ordz coeff nbm outpath obs pols pol,
    fit_ok np_polyfit w f i d idxs ordv ordz coeff nbm
    ∧ w_self w !! "outpath" = Some outpath ∧ w_self w !! "obs" = Some obs
    ∧ w_self w !! "pols" = Some pols ∧ subscript pols i = Ok pol
    ∧ w' = set_files (<[coeff_path outpath obs ordz pol
                        := Pickled (coeff_value ordz (length idxs) coeff)]> (w_files w)) w
    ∧ MS' = ma_setitem MS i idxs (group_ms d (ma_elems nbm) f i idxs (poly_mu ordz coeff)).
Proof.
  intros Hcw Hcwt. unfold fit_columns. cbv zeta. intros H.
  open_bind H. apply getattr_inv in E as [Hord ->].
  open_bind H. apply lift_inv in E as [Hfit ->].
  open_bind H. apply load_global_inv in E as [Hg ->].
  rewrite Hcw in Hg. injection Hg as <-.
  open_bind H. rewrite test_run, Hcwt in E. injection E as <- <-.
  open_bind H. unfold write_coeff in E.
  open_bind E. apply getattr_inv in E0 as [Hout ->].
  open_bind E. apply getattr_inv in E0 as [Hobs ->].
  open_bind E. apply getattr_inv in E0 as [Hord' ->].
  rewrite Hord in Hord'. injection Hord' as <-.
  open_bind E. apply getattr_inv in E0 as [Hpols ->].
  open_bind E. apply lift_inv in E0 as [Hpol ->].
  open_bind E. apply lift_inv in E0 as [Hint ->].
  cbv zeta in E. rewrite bind_run in E.
  unfold open_wb, pickle_dump, put_file in E. cbv beta iota in E.
  injection E as _ <-.
  open_bind H. apply lift_inv in E as [Hint' ->].
  rewrite Hint in Hint'. injection Hint' as <-.
  open_bind H. apply getattr_inv in E as [Hnb ->]. simpl in Hnb.
  open_bind H. apply lift_inv in E as [Hma ->]. apply as_ma_inv in Hma as ->.
  destruct (_ || _ || _) eqn:E1 in H; [discriminate|].
  destruct (negb _) eqn:E2 in H; [discriminate|].
  unfold mret, M_ret in H. injection H as <- <-.
  apply orb_false_iff in E1 as [E1 E3]. apply negb_false_iff in E2, E3.
  eexists _, _, _, _, _, _, _, _. split_and!; try done.
  unfold set_files, coeff_path. simpl. by rewrite insert_insert_eq.
Qed.

Variable w : world R.
Variable cw : pyval R.
Hypothesis Hcw : w_globals w !! "coeff_write" = Some cw.
Hypothesis Hcwt : truthy cw = Ok true.

(** The world of the same object where [coeff_write] is [False]. *)
Definition not_written : world R :=
  with_globals (<["coeff_write" := VBool false]> (w_globals w)) w.

(** A world the run reaches from [w]: some files written. *)
Definition reached (wt : world R) : Prop :=
  w_self wt = w_self w ∧ w_globals wt = w_globals w.

Lemma columns_sim f i d idxs MS MS' wt wt' :
  reached wt →
  fit_columns np_polyfit py_repr f i d idxs MS wt = (Ok MS', wt') →
  reached wt' ∧ fit_columns np_polyfit py_repr f i d idxs MS not_written = (Ok MS', not_written).
Proof.
  intros [Hs Hg] H.
  apply (fit_columns_written _ _ _ _ _ _ _ _ cw) in H
    as (ordv & ordz & coeff & nbm & outpath & obs & pols & pol
        & Hok & _ & _ & _ & _ & -> & ->); [|by rewrite Hg|done].
  split; [done|].
  assert (w_globals not_written !! "coeff_write" = Some (VBool false)) as Hnw
    by apply lookup_insert_eq.
  apply (fit_columns_run np_polyfit py_repr not_written (VBool false) Hnw eq_refl
           f i d idxs MS ordv ordz coeff nbm).
  eapply fit_ok_self; [|exact Hok]. by rewrite Hs.
Qed.

Lemma groups_sim f i d good uniq ks MS MS' wt wt' :
  reached wt →
  foldM (fit_group np_polyfit py_repr f i d good uniq) ks MS wt = (Ok MS', wt') →
  reached wt'
  ∧ foldM (fit_group np_polyfit py_repr f i d good uniq) ks MS not_written
    = (Ok MS', not_written).
Proof.
  revert MS wt. induction ks as [|k ks IH]; intros MS wt Hwt H; simpl in H |- *.
  - unfold mret, M_ret in H. injection H as <- <-. done.
  - open_bind H. unfold fit_group in E |- *. cbv zeta in E |- *.
    apply columns_sim in E as [Hwt1 Hrun]; [|done].
    run_ok Hrun. by eapply IH.
Qed.

Lemma pol_sim f i MS MS' wt wt' :
  reached wt →
  fit_pol np_polyfit py_repr f MS i wt = (Ok MS', wt') →
  reached wt' ∧ fit_pol np_polyfit py_repr f MS i not_written = (Ok MS', not_written).
Proof.
  intros Hwt H. unfold fit_pol in H |- *.
  open_bind H. apply getattr_inv in E as [Hd ->].
  destruct Hwt as [Hs Hg]. rewrite Hs in Hd.
  erewrite bind_ok by (apply getattr_ok; exact Hd). cbv beta.
  open_bind H. apply lift_inv in E as [Hm ->].
  rewrite bind_run, lift_run, Hm. cbv beta iota zeta. cbv zeta in H.
  destruct (dim1 _ =? 0); [discriminate|]. destruct (negb _); [discriminate|].
  by eapply groups_sim.
Qed.

(** X4: writing the coefficients changes no number.  Whenever
    [mean_subtract] returns an array with [coeff_write] bound to a true
    value, it returns the same array on the same object with [coeff_write]
    bound to [False]; the attributes of the object are as they were. *)
Theorem coeff_write_keeps_result (f : pyslice) (MS : marray R) (w' : world R) :
  mean_subtract np_polyfit py_repr f w = (Ok MS, w') →
  mean_subtract np_polyfit py_repr f not_written = (Ok MS, not_written)
  ∧ w_self w' = w_self w.
Proof.
  intros H. unfold mean_subtract in H |- *. cbv zeta in H |- *.
  open_bind H. apply getattr_inv in E as [Ho ->].
  erewrite bind_ok by (apply getattr_ok; exact Ho). cbv beta.
  open_bind H. rewrite test_run in E. injection E as Ht <-.
  rewrite bind_run, test_run, Ht. cbv beta iota.
  destruct (negb _).
  - open_bind H. apply getattr_inv in E as [Hd ->].
    erewrite bind_ok by (apply getattr_ok; exact Hd). cbv beta.
    open_bind H. apply lift_inv in E as [Hm ->].
    rewrite bind_run, lift_run, Hm. cbv beta iota.
    open_bind H. apply lift_inv in E as [Hq ->].
    rewrite bind_run, lift_run, Hq. cbv beta iota.
    open_bind H. apply getattr_inv in E as [Hn ->].
    erewrite bind_ok by (apply getattr_ok; exact Hn). cbv beta.
    open_bind H. apply lift_inv in E as [Hnm ->].
    rewrite bind_run, lift_run, Hnm. cbv beta iota.
    apply lift_inv in H as [Hmul ->]. by rewrite lift_run, Hmul.
  - open_bind H. apply getattr_inv in E as [Hd ->].
    erewrite bind_ok by (apply getattr_ok; exact Hd). cbv beta.
    open_bind H. apply lift_inv in E as [Hm ->].
    rewrite bind_run, lift_run, Hm. cbv beta iota.
    match type of H with
    | foldM _ ?l ?MS0 _ = _ => generalize dependent MS0; generalize l
    end.
    intros l MS0.
    assert (∀ wt, reached wt →
              foldM (fit_pol np_polyfit py_repr f) l MS0 wt = (Ok MS, w') →
              foldM (fit_pol np_polyfit py_repr f) l MS0 not_written = (Ok MS, not_written)
              ∧ w_self w' = w_self w) as Hloop; [|by apply Hloop].
    revert MS0. induction l as [|i l IH]; intros MS0 wt Hwt H; simpl in H |- *.
    + unfold mret, M_ret in H. injection H as <- <-. split; [done|apply Hwt].
    + open_bind H. apply pol_sim in E as [Hwt1 Hrun]; [|done].
      run_ok Hrun. by eapply IH.
Qed.

(** The loop over the groups of one polarization writes one file. *)
Lemma groups_written f i d good uniq ks MS MS' wt wt' :
  reached wt → ks ≠ [] →
  foldM (fit_group np_polyfit py_repr f i d good uniq) ks MS wt = (Ok MS', wt') →
  ∃ ordv ordz coeff outpath obs pols pol,
    w_self w !! "order" = Some ordv ∧ as_int ordv = Ok ordz
    ∧ w_self w !! "outpath" = Some outpath ∧ w_self w !! "obs" = Some obs
    ∧ w_self w !! "pols" = Some pols ∧ subscript pols i = Ok pol
    ∧ let idxs := map (λ j, nth j good 0) (group_chans d f i good uniq (List.last ks 0)) in
      ma_polyfit np_polyfit (abscissae d) (map (chan_column d f i) idxs) ordv = Ok coeff
      ∧ w_files wt' = <[coeff_path outpath obs ordz pol
                        := Pickled (coeff_value ordz (length idxs) coeff)]> (w_files wt)
      ∧ reached wt'.
Proof.
  revert MS wt. induction ks as [|k ks IH]; intros MS wt Hwt Hne H; [done|].
  simpl in H. open_bind H. unfold fit_group in E. cbv zeta in E.
  pose proof Hwt as [Hs Hg].
  apply (fit_columns_written _ _ _ _ _ _ _ _ cw) in E
    as (ordv & ordz & coeff & nbm & outpath & obs & pols & pol
        & Hok & Hout & Hobs & Hpols & Hpol & -> & ->); [|by rewrite Hg|done].
  destruct Hok as (Hord & Hfit & Hint & _).
  rewrite Hs in Hord, Hout, Hobs, Hpols.
  destruct ks as [|k' ks].
  - simpl in H. unfold mret, M_ret in H. injection H as <- <-.
    exists ordv, ordz, coeff, outpath, obs, pols, pol. split_and!; try done.
  - apply IH in H as (ordv' & ordz' & coeff' & outpath' & obs' & pols' & pol'
                      & Hord' & Hint' & Hout' & Hobs' & Hpols' & Hpol' & Hfit' & Hfiles & Hwt');
      [|done|done].
    rewrite Hord in Hord'. injection Hord' as <-.
    rewrite Hint in Hint'. injection Hint' as <-.
    rewrite Hout in Hout'. injection Hout' as <-.
    rewrite Hobs in Hobs'. injection Hobs' as <-.
    rewrite Hpols in Hpols'. injection Hpols' as <-.
    rewrite Hpol in Hpol'. injection Hpol' as <-.
    exists ordv, ordz, coeff', outpath, obs, pols, pol. split_and!; try done.
    simpl in Hfiles. by rewrite insert_insert_eq in Hfiles.
Qed.

Lemma last_seq (n : nat) : List.last (seq 0 (S n)) 0 = n.
Proof.
  change (S n) with (1 + n). rewrite Nat.add_comm, seq_app. simpl.
  by rewrite last_last.
Qed.

(** X5: the file of the coefficients is named by the output directory,
    the observation, the order and the polarization, not by the mask group.
    Whenever the statements for a polarization with channels to fit go
    through with [coeff_write] bound to a true value, they have written that
    one file and no other, and it holds the coefficients of the last mask
    group only: each group has overwritten the file of the one before. *)
Theorem coeff_file_holds_last_group (f : pyslice) (i : nat) (d : ndarray (option R))
    (MS MS' : marray R) (w' : world R) :
  w_self w !! "data" = Some (VMa (Masked d)) →
  good_chans d f i ≠ [] →
  fit_pol np_polyfit py_repr f MS i w = (Ok MS', w') →
  let good := good_chans d f i in
  let uniq := unique_masks (map (chan_mask d f i) good) in
  let idxs := map (λ j, nth j good 0) (group_chans d f i good uniq (length uniq - 1)) in
  ∃ ordv ordz coeff outpath obs pols pol,
    w_self w !! "order" = Some ordv ∧ as_int ordv = Ok ordz
    ∧ w_self w !! "outpath" = Some outpath ∧ w_self w !! "obs" = Some obs
    ∧ w_self w !! "pols" = Some pols ∧ subscript pols i = Ok pol
    ∧ ma_polyfit np_polyfit (abscissae d) (map (chan_column d f i) idxs) ordv = Ok coeff
    ∧ w_files w' = <[coeff_path outpath obs ordz pol
                     := Pickled (coeff_value ordz (length idxs) coeff)]> (w_files w).
Proof.
  intros Hdata Hgood H good uniq idxs. unfold fit_pol in H.
  open_bind H. apply getattr_inv in E as [Hd ->]. rewrite Hdata in Hd. injection Hd as <-.
  open_bind H. apply lift_inv in E as [Hm ->]. simpl in Hm. injection Hm as <-.
  cbv zeta in H. change (ma_elems (Masked d)) with d in H.
  destruct (dim1 d =? 0); [discriminate|]. destruct (negb _); [discriminate|].
  fold good in H. fold uniq in H.
  pose proof (unique_masks_nonempty (map (chan_mask d f i) good)) as Hu.
  rewrite length_map in Hu. fold uniq in Hu.
  destruct (length uniq) as [|n] eqn:En.
  { exfalso. apply Hu; [|done]. subst good. by destruct (good_chans d f i). }
  apply groups_written in H
    as (ordv & ordz & coeff & outpath & obs & pols & pol
        & Hord & Hint & Hout & Hobs & Hpols & Hpol & Hfit & Hfiles & _);
    [|done|done].
  rewrite last_seq in Hfit, Hfiles.
  subst idxs. replace (S n - 1) with n by lia.
  by exists ordv, ordz, coeff, outpath, obs, pols, pol.
Qed.

End CoeffWrite.

(** Order 1 on the two channels with different masks, the coefficients
    written: the same array comes out with [coeff_write] bound to [False]. *)
Lemma coeff_write_keeps_result_witness :
  ∃ MS w',
    mean_subtract flat_polyfit opaque_repr slice_all writing = (Ok MS, w')
    ∧ mean_subtract flat_polyfit opaque_repr slice_all (not_written writing)
      = (Ok MS, not_written writing)
    ∧ w_files w' ≠ ∅.
Proof.
  assert (∃ MS w', mean_subtract flat_polyfit opaque_repr slice_all writing = (Ok MS, w')
                   ∧ w_files w' ≠ ∅) as (MS & w' & Hrun & Hfiles).
  { eexists _, _. split; [vm_compute; reflexivity|].
    intros H. apply (f_equal (λ m, m !! "out/1061313128_ms_poly_coeff_order_1_XX.npy")) in H.
    vm_compute in H. discriminate H. }
  destruct (coeff_write_keeps_result flat_polyfit opaque_repr writing (VBool true)
              eq_refl eq_refl slice_all MS w' Hrun) as [Hsame _].
  exists MS, w'. split_and!; [exact Hrun|exact Hsame|exact Hfiles].
Defined.

(** The two mask groups of the polarization, channel 0 and then channel
    1: the file holds the coefficients of channel 1, the constant through
    its sample 2. *)
Lemma coeff_file_holds_last_group_witness :
  ∃ MS' w',
    fit_pol flat_polyfit opaque_repr slice_all (ma_zeros_like patchy_data) 0 writing
    = (Ok MS', w')
    ∧ w_files w' !! "out/1061313128_ms_poly_coeff_order_1_XX.npy"
      = Some (Pickled (VList [VArr [0%float]; VArr [2%float]])).
Proof.
  assert (∃ MS' w', fit_pol flat_polyfit opaque_repr slice_all (ma_zeros_like patchy_data) 0
                            writing = (Ok MS', w')) as (MS' & w' & Hrun)
    by (eexists _, _; vm_compute; reflexivity).
  destruct (coeff_file_holds_last_group flat_polyfit opaque_repr writing (VBool true)
              eq_refl eq_refl slice_all 0 (ma_elems patchy_data)
              (ma_zeros_like patchy_data) MS' w' eq_refl)
    as (ordv & ordz & coeff & outpath & obs & pols & pol
        & Hord & Hint & Hout & Hobs & Hpols & Hpol & Hfit & Hfiles);
    [vm_compute; discriminate|exact Hrun|].
  exists MS', w'. split; [exact Hrun|].
  injection Hord as <-. injection Hint as <-. injection Hout as <-. injection Hobs as <-.
  injection Hpols as <-. injection Hpol as <-.
  vm_compute in Hfit. injection Hfit as <-.
  rewrite Hfiles. vm_compute. reflexivity.
Defined.

(** *** More on [mean_subtract] and the constructor *)

Section Purity.

Context {R : Type} {SC : Scalar R}.
Variable np_polyfit : list R → list (list R) → Z → res (nat → nat → R).
Variable py_repr : pyval R → string.











(** Two shapes that numpy can broadcast against each other. *)
Definition broadcasts {A B} (a : ndarray A) (b : ndarray B) : bool :=
  match bdim (dim0 a) (dim0 b), bdim (dim1 a) (dim1 b),
        bdim (dim2 a) (dim2 b), bdim (dim3 a) (dim3 b) with
  | Some _, Some _, Some _, Some _ => true
  | _, _, _, _ => false
  end.

(** X8: on the mean path the counts are multiplied in under numpy's
    broadcasting: when the shape of [Nbls[:, :, f]] does not broadcast
    against that of [data[:, :, f]], [mean_subtract] raises [ValueError]
    and changes nothing. *)
Theorem mean_path_shape_mismatch (f : pyslice) (w : world R) (ordv : pyval R)
    (data nbls : marray R) :
  w_self w !! "order" = Some ordv → truthy ordv = Ok false →
  w_self w !! "data" = Some (VMa data) → w_self w !! "Nbls" = Some (VMa nbls) →
  broadcasts (ma_elems (ma_slice2 f data)) (ma_elems (ma_slice2 f nbls)) = false →
  mean_subtract np_polyfit py_repr f w = (Raise ValueError, w).
Proof.
  intros Hord Htruth Hdata Hnbls Hshape.
  set (D := ma_slice2 f data) in *. set (N := ma_slice2 f nbls) in *.
  destruct (divide_by_mean D) as (q & Hq & (Q0 & Q1 & Q2 & Q3) & Hqm & _).
  unfold mean_subtract. cbv zeta.
  get Hord. rewrite bind_run, test_run, Htruth. cbv beta iota.
  change (negb false) with true. cbv iota.
  get Hdata. rewrite bind_run, lift_run. simpl as_ma. cbv beta iota.
  fold D. rewrite bind_run, lift_run, Hq. cbv beta iota.
  get Hnbls. rewrite bind_run, lift_run. simpl as_ma. cbv beta iota.
  fold N. rewrite lift_run. f_equal.
  destruct q as [dq|dq]; [discriminate|].
  unfold ma_multiply, ma_sub_scalar, ma_sqrt, ma_div_scalar, broadcast2.
  cbn [ma_elems nd_map dim0 dim1 dim2 dim3].
  simpl in Q0, Q1, Q2, Q3. rewrite Q0, Q1, Q2, Q3.
  unfold broadcasts in Hshape.
  destruct (bdim (dim0 _) _); [|done]. destruct (bdim (dim1 _) _); [|done].
  destruct (bdim (dim2 _) _); [|done]. destruct (bdim (dim3 _) _); [|done].
  discriminate.
Qed.

(** The run of the loop body of a polarization, in a world that does not
    bind [coeff_write]. *)
Lemma fit_pol_unbound_run f MS i (w : world R) ordv d :
  w_globals w !! "coeff_write" = None →
  w_self w !! "order" = Some ordv →
  w_self w !! "data" = Some (VMa (Masked d)) → 0 < dim1 d →
  (good_chans d f i = [] → fit_pol np_polyfit py_repr f MS i w = (Ok MS, w))
  ∧ (good_chans d f i ≠ [] →
     ∃ e, fit_pol np_polyfit py_repr f MS i w = (Raise e, w)
          ∧ (e = NameError "coeff_write"
             ∨ ∃ x ycols deg, ma_polyfit np_polyfit x ycols deg = Raise e)).
Proof.
  intros Hg Hord Hdata H1.
  assert (fit_pol np_polyfit py_repr f MS i w
          = foldM (fit_group np_polyfit py_repr f i d (good_chans d f i)
                     (unique_masks (map (chan_mask d f i) (good_chans d f i))))
                  (seq 0 (length (unique_masks (map (chan_mask d f i) (good_chans d f i)))))
                  MS w) as ->.
  { unfold fit_pol. get Hdata. rewrite bind_run, lift_run. simpl as_ma. cbv beta iota zeta.
    change (ma_elems (Masked d)) with d.
    destruct (dim1 d =? 0) eqn:E; [apply Nat.eqb_eq in E; lia|].
    reflexivity. }
  split.
  - intros ->. reflexivity.
  - intros Hgood.
    pose proof (unique_masks_nonempty (map (chan_mask d f i) (good_chans d f i))) as Hu.
    rewrite length_map in Hu.
    destruct (length (unique_masks _)) as [|n]; [exfalso; apply Hu; [|done]|].
    { by destruct (good_chans d f i). }
    simpl seq. simpl foldM. rewrite bind_run.
    unfold fit_group at 1, fit_columns. cbv zeta.
    get Hord. rewrite bind_run, lift_run.
    destruct (ma_polyfit _ _ _ _) as [coeff|e] eqn:E; cbv beta iota.
    + exists (NameError "coeff_write"). split; [|by left].
      rewrite bind_run. unfold load_global. rewrite Hg. reflexivity.
    + exists e. split; [done|]. right. eauto.
Qed.

(** X9: the polynomial path on data masked throughout: when every
    channel of every polarization is masked at all times (in the first
    spectral window), there is nothing to fit and [mean_subtract] returns
    [np.zeros_like(data[:, :, f])], zeros under the mask of the data,
    whether or not [coeff_write] and [Nbls] exist. *)
Theorem polynomial_path_all_masked (f : pyslice) (w : world R) (ordv : pyval R)
    (d : ndarray (option R)) :
  w_self w !! "order" = Some ordv → truthy ordv = Ok true →
  w_self w !! "data" = Some (VMa (Masked d)) → 0 < dim1 d →
  (∀ i, i < dim3 d → good_chans d f i = []) →
  mean_subtract np_polyfit py_repr f w = (Ok (ma_zeros_like (ma_slice2 f (Masked d))), w).
Proof.
  intros Hord Htruth Hdata H1 Hgood. unfold mean_subtract. cbv zeta.
  get Hord. rewrite bind_run, test_run, Htruth. cbv beta iota.
  change (negb true) with false. cbv iota.
  get Hdata. rewrite bind_run, lift_run. simpl as_ma. cbv beta iota.
  change (ma_elems (Masked d)) with d.
  assert (∀ l MS, (∀ i, In i l → i < dim3 d) →
                  foldM (fit_pol np_polyfit py_repr f) l MS w = (Ok MS, w)) as Hloop.
  { induction l as [|i l IH]; intros MS Hl; [reflexivity|].
    simpl foldM. erewrite bind_ok; [apply IH; intros j Hj; apply Hl; by right|].
    unfold fit_pol. get Hdata. rewrite bind_run, lift_run. simpl as_ma. cbv beta iota zeta.
    change (ma_elems (Masked d)) with d.
    destruct (dim1 d =? 0) eqn:E; [apply Nat.eqb_eq in E; lia|].
    simpl has_mask. cbv iota. simpl negb. cbv iota.
    rewrite Hgood by (apply Hl; by left). reflexivity. }
  apply Hloop. intros i Hi%in_seq. lia.
Qed.

(** X10: the polynomial path in the module as it is, which binds no
    [coeff_write]: as soon as one polarization has a channel with an
    unmasked sample, [mean_subtract] raises, [NameError] for [coeff_write]
    or what the fit raised, and changes nothing: on such data no order
    above 0 gives a result. *)
Theorem polynomial_path_unbound (f : pyslice) (w : world R) (ordv : pyval R)
    (d : ndarray (option R)) (i : nat) :
  w_globals w !! "coeff_write" = None →
  w_self w !! "order" = Some ordv → truthy ordv = Ok true →
  w_self w !! "data" = Some (VMa (Masked d)) → 0 < dim1 d →
  i < dim3 d → good_chans d f i ≠ [] →
  ∃ e, mean_subtract np_polyfit py_repr f w = (Raise e, w)
       ∧ (e = NameError "coeff_write"
          ∨ ∃ x ycols deg, ma_polyfit np_polyfit x ycols deg = Raise e).
Proof.
  intros Hg Hord Htruth Hdata H1 Hi Hgood. unfold mean_subtract. cbv zeta.
  get Hord. rewrite bind_run, test_run, Htruth. cbv beta iota.
  change (negb true) with false. cbv iota.
  get Hdata. rewrite bind_run, lift_run. simpl as_ma. cbv beta iota.
  change (ma_elems (Masked d)) with d.
  assert (∀ l MS, In i l →
            ∃ e, foldM (fit_pol np_polyfit py_repr f) l MS w = (Raise e, w)
                 ∧ (e = NameError "coeff_write"
                    ∨ ∃ x ycols deg, ma_polyfit np_polyfit x ycols deg = Raise e)) as Hloop.
  { induction l as [|j l IH]; intros MS Hl; [destruct Hl|].
    simpl foldM.
    destruct (fit_pol_unbound_run f MS j w ordv d Hg Hord Hdata H1) as [Hnil Hsome].
    destruct (good_chans d f j) as [|c good] eqn:Ej.
    - rewrite (bind_ok _ _ _ _ _ (Hnil eq_refl)).
      apply IH. destruct Hl as [->|Hl]; [|done]. by rewrite Ej in Hgood.
    - destruct Hsome as (e & He & Hclass); [done|].
      exists e. split; [|done]. by apply bind_raise. }
  apply Hloop. apply in_seq. lia.
Qed.





End Purity.



(** Three channels of data against two channels of counts. *)
Lemma mean_path_shape_mismatch_witness :
  mean_subtract flat_polyfit opaque_repr slice_all (object_of (VInt 0) spectrum_data paired_counts)
  = (Raise ValueError, object_of (VInt 0) spectrum_data paired_counts).
Proof.
  apply (mean_path_shape_mismatch flat_polyfit opaque_repr slice_all
           (object_of (VInt 0) spectrum_data paired_counts) (VInt 0)
           spectrum_data paired_counts);
    reflexivity.
Defined.

(** Order 1 on two channels masked at both times. *)
Lemma polynomial_path_all_masked_witness :
  mean_subtract flat_polyfit opaque_repr slice_all (object_of (VInt 1) blank_data paired_counts)
  = (Ok (ma_zeros_like (ma_slice2 slice_all blank_data)),
     object_of (VInt 1) blank_data paired_counts).
Proof.
  apply (polynomial_path_all_masked flat_polyfit opaque_repr slice_all
           (object_of (VInt 1) blank_data paired_counts) (VInt 1));
    first [reflexivity | cbv; lia | idtac].
  intros [|i] Hi; [reflexivity|]. cbv in Hi. lia.
Defined.

(** Order 1 on the spectrum, whose channels 0 and 2 have unmasked
    samples. *)
Lemma polynomial_path_unbound_witness :
  ∃ e, mean_subtract flat_polyfit opaque_repr slice_all (spectrum 1 module_globals)
       = (Raise e, spectrum 1 module_globals)
       ∧ (e = NameError "coeff_write"
          ∨ ∃ x ycols deg, ma_polyfit flat_polyfit x ycols deg = Raise e).
Proof.
  apply (polynomial_path_unbound flat_polyfit opaque_repr slice_all
           (spectrum 1 module_globals) (VInt 1) (ma_elems spectrum_data) 0);
    first [reflexivity | cbv; lia | idtac].
  vm_compute. discriminate.
Defined.


(** *** What [mean_subtract] depends on *)

Section Reads.

Context {R : Type} {SC : Scalar R}.
Variable np_polyfit : list R → list (list R) → Z → res (nat → nat → R).
Variable py_repr : pyval R → string.

(** The attributes [mean_subtract] reads. *)
Definition reads : list string := ["order"; "data"; "Nbls"; "outpath"; "obs"; "pols"].

(** Two worlds that agree on them and on the binding of [coeff_write]. *)
Definition agree (w1 w2 : world R) : Prop :=
  (∀ name, In name reads → w_self w1 !! name = w_self w2 !! name)
  ∧ w_globals w1 !! "coeff_write" = w_globals w2 !! "coeff_write".

(** A computation with the same outcome in two such worlds, which it
    leaves in agreement. *)
Definition same_result {A} (m : M R A) : Prop :=
  ∀ w1 w2, agree w1 w2 → (m w1).1 = (m w2).1 ∧ agree (m w1).2 (m w2).2.

Lemma same_result_bind {A B} (m : M R A) (k : A → M R B) :
  same_result m → (∀ a, same_result (k a)) → same_result (m ≫= k).
Proof.
  intros Hm Hk w1 w2 Hw. rewrite !bind_run. destruct (Hm w1 w2 Hw) as [H1 H2].
  destruct (m w1) as [[a|e] w1'], (m w2) as [[a'|e'] w2']; simpl in *; simplify_eq.
  - by apply Hk.
  - done.
Qed.

Lemma same_result_foldM {A B} (body : B → A → M R B) (l : list A) (acc : B) :
  (∀ b x, same_result (body b x)) → same_result (foldM body l acc).
Proof.
  intros Hb. revert acc. induction l as [|x l IH]; intros acc; simpl; [by intros w1 w2|].
  apply same_result_bind; [apply Hb|intros b; apply IH].
Qed.

Lemma same_result_lift {A} (r : res A) : same_result (lift r : M R A).
Proof. by intros w1 w2. Qed.

Lemma same_result_getattr name : In name reads → same_result (getattr (R:=R) name).
Proof.
  intros Hin w1 w2 Hw. unfold getattr. rewrite (proj1 Hw name Hin).
  by destruct (w_self w2 !! name).
Qed.

Lemma same_result_coeff_write : same_result (load_global (R:=R) "coeff_write").
Proof.
  intros w1 w2 Hw. unfold load_global. rewrite (proj2 Hw).
  by destruct (w_globals w2 !! "coeff_write").
Qed.

Lemma same_result_put_file path (c : fcontent R) : same_result (put_file path c).
Proof. by intros w1 w2. Qed.

Lemma same_result_fit_columns f i d idxs MS :
  same_result (fit_columns np_polyfit py_repr f i d idxs MS).
Proof.
  unfold fit_columns. cbv zeta.
  apply same_result_bind; [apply same_result_getattr; simpl; tauto|intros ordv].
  apply same_result_bind; [apply same_result_lift|intros coeff].
  apply same_result_bind; [apply same_result_coeff_write|intros cw].
  apply same_result_bind; [apply same_result_lift|intros cwb].
  apply same_result_bind; [|intros _].
  { destruct cwb; [|by intros w1 w2]. unfold write_coeff.
    apply same_result_bind; [apply same_result_getattr; simpl; tauto|intros outpath].
    apply same_result_bind; [apply same_result_getattr; simpl; tauto|intros obs].
    apply same_result_bind; [apply same_result_getattr; simpl; tauto|intros ordv'].
    apply same_result_bind; [apply same_result_getattr; simpl; tauto|intros pols].
    apply same_result_bind; [apply same_result_lift|intros pol].
    apply same_result_bind; [apply same_result_lift|intros ordz]. cbv zeta.
    apply same_result_bind; [apply same_result_put_file|intros _].
    apply same_result_put_file. }
  apply same_result_bind; [apply same_result_lift|intros ordz].
  apply same_result_bind; [apply same_result_getattr; simpl; tauto|intros nbv].
  apply same_result_bind; [apply same_result_lift|intros nbm].
  destruct (_ || _ || _); [by intros w1 w2|]. destruct (negb _); by intros w1 w2.
Qed.

Lemma same_result_mean_subtract f : same_result (mean_subtract np_polyfit py_repr f).
Proof.
  unfold mean_subtract. cbv zeta.
  apply same_result_bind; [apply same_result_getattr; simpl; tauto|intros ordv].
  apply same_result_bind; [apply same_result_lift|intros nonzero].
  destruct (negb nonzero).
  - apply same_result_bind; [apply same_result_getattr; simpl; tauto|intros datav].
    apply same_result_bind; [apply same_result_lift|intros data].
    apply same_result_bind; [apply same_result_lift|intros quot].
    apply same_result_bind; [apply same_result_getattr; simpl; tauto|intros nbv].
    apply same_result_bind; [apply same_result_lift|intros nbls].
    apply same_result_lift.
  - apply same_result_bind; [apply same_result_getattr; simpl; tauto|intros datav].
    apply same_result_bind; [apply same_result_lift|intros data].
    apply same_result_foldM. intros MS i. unfold fit_pol.
    apply same_result_bind; [apply same_result_getattr; simpl; tauto|intros datav'].
    apply same_result_bind; [apply same_result_lift|intros data']. cbv zeta.
    destruct (dim1 _ =? 0); [by intros w1 w2|]. destruct (negb _); [by intros w1 w2|].
    apply same_result_foldM. intros b k. apply same_result_fit_columns.
Qed.


(** A computation that binds no global. *)
Definition keeps_globals {A} (m : M R A) : Prop := ∀ w, w_globals (m w).2 = w_globals w.

Lemma keeps_globals_bind {A B} (m : M R A) (k : A → M R B) :
  keeps_globals m → (∀ a, keeps_globals (k a)) → keeps_globals (m ≫= k).
Proof.
  intros Hm Hk w. rewrite bind_run. specialize (Hm w).
  destruct (m w) as [[a|e] w1]; simpl in *; [|exact Hm].
  rewrite Hk. exact Hm.
Qed.

Lemma keeps_globals_foldM {A B} (body : B → A → M R B) (l : list A) (acc : B) :
  (∀ b x, keeps_globals (body b x)) → keeps_globals (foldM body l acc).
Proof.
  intros Hb. revert acc. induction l as [|x l IH]; intros acc; simpl; [done|].
  apply keeps_globals_bind; [apply Hb|intros b; apply IH].
Qed.

Lemma keeps_globals_getattr name : keeps_globals (getattr (R:=R) name).
Proof. intros w. unfold getattr. by destruct (w_self w !! name). Qed.

Lemma keeps_globals_load_global name : keeps_globals (load_global (R:=R) name).
Proof. intros w. unfold load_global. by destruct (w_globals w !! name). Qed.

Lemma keeps_globals_mean_subtract f : keeps_globals (mean_subtract np_polyfit py_repr f).
Proof.
  unfold mean_subtract, fit_pol, fit_group, fit_columns, write_coeff, open_wb, pickle_dump.
  repeat first
    [ apply keeps_globals_getattr | apply keeps_globals_load_global
    | apply keeps_globals_bind; [|intros ?]
    | apply keeps_globals_foldM; intros ? ?
    | progress cbv zeta
    | match goal with
      | |- keeps_globals (if ?b then _ else _) => destruct b
      | |- keeps_globals (lift _) => by intros ?
      | |- keeps_globals (test _) => by intros ?
      | |- keeps_globals (mret _) => by intros ?
      | |- keeps_globals (raise _) => by intros ?
      | |- keeps_globals (put_file _ _) => by intros ?
      end ].
Qed.

(** X13: the constructor stores what [mean_subtract] returns: after a
    constructor call that returned, calling [mean_subtract()] on the object
    returns the array held by [metric_ms]. *)
Theorem INS_init_metric_ms_is_mean_subtract (uvflag_setup : pyval R → M R unit)
    (input order : pyval R) (w w' : world R) :
  INS_init np_polyfit py_repr uvflag_setup input order w = (Ok tt, w') →
  ∃ ms, w_self w' !! "metric_ms" = Some (VMa ms)
        ∧ (mean_subtract np_polyfit py_repr slice_all w').1 = Ok ms.
Proof.
  unfold INS_init. rewrite bind_run.
  destruct (uvflag_setup input w) as [[[]|e] w0]; [|discriminate].
  rewrite bind_run. unfold setattr at 1. cbv beta iota.
  rewrite bind_run.
  set (w1 := set_self (<["order" := order]> (w_self w0)) w0).
  pose proof (keeps_mean_subtract np_polyfit py_repr slice_all w1) as Hs.
  pose proof (keeps_globals_mean_subtract slice_all w1) as Hg.
  destruct (mean_subtract np_polyfit py_repr slice_all w1) as [[ms|e] w2] eqn:E;
    [|discriminate].
  intros [= <-]. simpl in Hs, Hg. exists ms. split; [apply lookup_insert_eq|].
  destruct (same_result_mean_subtract slice_all w1
              (set_self (<["metric_ms" := VMa ms]> (w_self w2)) w2)) as [Hres _].
  { split.
    - intros name Hname. simpl. rewrite Hs.
      rewrite (lookup_insert_ne _ "metric_ms"); [done|].
      intros <-. unfold reads in Hname. simpl in Hname. intuition discriminate.
    - simpl. by rewrite Hg. }
  rewrite <- Hres, E. done.
Qed.

End Reads.


(** The constructor with order 0 on the object as set up. *)
Lemma INS_init_metric_ms_is_mean_subtract_witness :
  ∃ w' ms,
    INS_init flat_polyfit opaque_repr (λ _, mret tt) VNone (VInt 0) set_up = (Ok tt, w')
    ∧ w_self w' !! "metric_ms" = Some (VMa ms)
    ∧ (mean_subtract flat_polyfit opaque_repr slice_all w').1 = Ok ms.
Proof.
  assert (∃ w', INS_init flat_polyfit opaque_repr (λ _, mret tt) VNone (VInt 0) set_up
                = (Ok tt, w')) as [w' Hinit] by (eexists; vm_compute; reflexivity).
  destruct (INS_init_metric_ms_is_mean_subtract flat_polyfit opaque_repr (λ _, mret tt)
              VNone (VInt 0) set_up w' Hinit) as (ms & Hms & Hrun).
  exists w', ms. split_and!; [exact Hinit|exact Hms|exact Hrun].
Defined.

(** *** More on [save] *)

Section SaveMore.

Context {R : Type} {SC : Scalar R}.
Variable py_repr : pyval R → string.




(** X15: [save] builds the tag of the file names first, from the three
    event lists: on an object that lacks one of them (the constructor
    assigns none), it raises [AttributeError] for the first one missing
    before it makes a directory or opens a file. *)
Theorem save_needs_event_lists (sig : pyval R) (w : world R) (name : string) :
  (name = "match_events" ∧ w_self w !! "match_events" = None)
  ∨ (name = "chisq_events"
     ∧ (∃ em, w_self w !! "match_events" = Some (VList em))
     ∧ w_self w !! "chisq_events" = None)
  ∨ (name = "samp_thresh_events"
     ∧ (∃ em, w_self w !! "match_events" = Some (VList em))
     ∧ (∃ ec, w_self w !! "chisq_events" = Some (VList ec))
     ∧ w_self w !! "samp_thresh_events" = None) →
  save py_repr sig w = (Raise (AttributeError name), w).
Proof.
  intros [(-> & Hm)|[(-> & [em Hm] & Hc)|(-> & [em Hm] & [ec Hc] & Hs)]];
    unfold save; simpl foldM; apply bind_raise.
  - apply bind_raise. unfold add_subtag. apply bind_raise. by apply getattr_missing.
  - run_by ltac:(apply add_subtag_ok; exact Hm).
    apply bind_raise. unfold add_subtag. apply bind_raise. by apply getattr_missing.
  - run_by ltac:(apply add_subtag_ok; exact Hm).
    run_by ltac:(apply add_subtag_ok; exact Hc).
    apply bind_raise. unfold add_subtag. apply bind_raise. by apply getattr_missing.
Qed.

(** **** Where [save] writes *)

Section Output.

Variables (w0 : world R) (outpath : pyval R).
Hypothesis Houtpath : w_self w0 !! "outpath" = Some outpath.














End Output.


End SaveMore.

Section RoundTrip.

Context {R : Type} {SC : Scalar R}.
Variable py_repr : pyval R → string.


Variables (w : world R) (outpath obs fc vms vn vc vb vf : pyval R) (d : ndarray (option R))
          (em ec es : list (pyval R)).
Hypothesis Houtpath : w_self w !! "outpath" = Some outpath.
Hypothesis Hobs : w_self w !! "obs" = Some obs.
Hypothesis Hfc : w_self w !! "flag_choice" = Some fc.
Hypothesis Hmatch : w_self w !! "match_events" = Some (VList em).
Hypothesis Hchisq : w_self w !! "chisq_events" = Some (VList ec).
Hypothesis Hsamp : w_self w !! "samp_thresh_events" = Some (VList es).
Hypothesis Hdata : w_self w !! "data" = Some (VMa (Masked d)).
Hypothesis Hdata_ms : w_self w !! "data_ms" = Some vms.
Hypothesis HNbls : w_self w !! "Nbls" = Some vn.
Hypothesis Hcounts : w_self w !! "counts" = Some vc.
Hypothesis Hbins : w_self w !! "bins" = Some vb.
Hypothesis Hfreq : w_self w !! "freq_array" = Some vf.



End RoundTrip.

Section Constructed.

Context {R : Type} {SC : Scalar R}.
Variable np_polyfit : list R → list (list R) → Z → res (nat → nat → R).
Variable py_repr : pyval R → string.
Variable uvflag_setup : pyval R → M R unit.



End Constructed.


(** An object with its three arrays and no event list. *)
Lemma save_needs_event_lists_witness :
  save opaque_repr VNone (spectrum 0 module_globals)
  = (Raise (AttributeError "match_events"), spectrum 0 module_globals).
Proof.
  apply (save_needs_event_lists opaque_repr VNone (spectrum 0 module_globals) "match_events").
  left. split; reflexivity.
Defined.




(** *** More on [_read] *)

Section ReadMore.

Context {R : Type} {SC : Scalar R}.

(** A computation that leaves the file system and the module globals as
    they are, whatever its outcome. *)
Definition keeps_store {A} (m : M R A) : Prop :=
  ∀ w, w_files (m w).2 = w_files w ∧ w_dirs (m w).2 = w_dirs w
       ∧ w_globals (m w).2 = w_globals w.

Lemma keeps_store_same {A} (m : M R A) : (∀ w, (m w).2 = w) → keeps_store m.
Proof. intros H w. by rewrite H. Qed.

Lemma keeps_store_bind {A B} (m : M R A) (k : A → M R B) :
  keeps_store m → (∀ a, keeps_store (k a)) → keeps_store (m ≫= k).
Proof.
  intros Hm Hk w. rewrite bind_run. specialize (Hm w).
  destruct (m w) as [[a|e] w1]; simpl in *; [|exact Hm].
  destruct (Hk a w1) as (-> & -> & ->). exact Hm.
Qed.

Lemma keeps_store_foreach {A} (l : list A) (body : A → M R unit) :
  (∀ x, keeps_store (body x)) → keeps_store (foreach l body).
Proof.
  intros Hb. induction l as [|x l IH]; simpl.
  - by apply keeps_store_same.
  - apply keeps_store_bind; [apply Hb|intros _; exact IH].
Qed.

Lemma np_load_same path (w : world R) : (np_load path w).2 = w.
Proof. unfold np_load. by destruct (w_files w !! path) as [[| |]|]. Qed.

Lemma keeps_store__read (rp : gmap string string) : keeps_store (_read (R:=R) rp).
Proof.
  unfold _read.
  apply keeps_store_bind; [|intros _; apply keeps_store_bind; [|intros _]].
  - apply keeps_store_foreach. intros arg. unfold read_required.
    destruct (rp !! arg); [|by apply keeps_store_same].
    apply keeps_store_bind; [apply keeps_store_same, np_load_same|done].
  - unfold read_fix_mask.
    apply keeps_store_bind; [apply keeps_store_same; intros w; unfold getattr; by case_match|].
    intros [| | | | | |m]; try by apply keeps_store_same.
    destruct (negb _); [|by apply keeps_store_same].
    apply keeps_store_bind; [|done].
    apply keeps_store_same. intros w. unfold load_global. by case_match.
  - apply keeps_store_foreach. intros attr. unfold read_optional.
    destruct (rp !! attr); [|done].
    apply keeps_store_bind; [apply keeps_store_same, np_load_same|done].
Qed.

(** A computation that only adds warnings, each one of [msgs]. *)
Definition warns_among (msgs : list string) {A} (m : M R A) : Prop :=
  ∀ w, ∃ new, w_warnings (m w).2 = (new ++ w_warnings w)%list ∧ Forall (λ msg, In msg msgs) new.

Lemma warns_among_same msgs {A} (m : M R A) :
  (∀ w, w_warnings (m w).2 = w_warnings w) → warns_among msgs m.
Proof. intros H w. exists []. by rewrite H. Qed.

Lemma warns_among_bind msgs {A B} (m : M R A) (k : A → M R B) :
  warns_among msgs m → (∀ a, warns_among msgs (k a)) → warns_among msgs (m ≫= k).
Proof.
  intros Hm Hk w. rewrite bind_run. destruct (Hm w) as (n1 & E1 & F1).
  destruct (m w) as [[a|e] w1]; simpl in *; [|by exists n1].
  destruct (Hk a w1) as (n2 & E2 & F2).
  exists (n2 ++ n1)%list. rewrite E2, E1, app_assoc. split; [done|].
  by apply Forall_app.
Qed.

Lemma warns_among_foreach msgs {A} (l : list A) (body : A → M R unit) :
  (∀ x, In x l → warns_among msgs (body x)) → warns_among msgs (foreach l body).
Proof.
  induction l as [|x l IH]; intros Hb; simpl.
  - by apply warns_among_same.
  - apply warns_among_bind; [apply Hb; by left|intros _; apply IH].
    intros y Hy. apply Hb. by right.
Qed.

Lemma warns_among__read (rp : gmap string string) :
  warns_among [optional_msg "pols"; optional_msg "vis_units"] (_read (R:=R) rp).
Proof.
  unfold _read.
  apply warns_among_bind; [|intros _; apply warns_among_bind; [|intros _]].
  - apply warns_among_foreach. intros arg _. unfold read_required.
    destruct (rp !! arg); [|by apply warns_among_same].
    apply warns_among_bind; [|intros v; by apply warns_among_same].
    apply warns_among_same. intros w. by rewrite np_load_same.
  - apply warns_among_same. intros w. unfold read_fix_mask.
    rewrite bind_run. unfold getattr. destruct (w_self w !! "data") as [[| | | | | |m]|]; try done.
    destruct (negb _); [|done]. rewrite bind_run. unfold load_global.
    by destruct (w_globals _ !! "data").
  - apply warns_among_foreach. intros attr Hattr. unfold read_optional.
    destruct (rp !! attr).
    + apply warns_among_bind; [|intros v; by apply warns_among_same].
      apply warns_among_same. intros w. by rewrite np_load_same.
    + intros w. exists [optional_msg attr]. split; [done|].
      constructor; [|done].
      destruct Hattr as [<-|[<-|[]]]; [by left|right; by left].
Qed.

(** X19: whatever the keys and the files, and whether it returns or
    raises, [_read] writes no file, makes no directory and binds no global;
    it assigns no attribute but the five it loads and emits no warning but
    those of the two optional keys. *)
Theorem _read_touches_only_attributes (rp : gmap string string) (w : world R) :
  let w' := (_read rp w).2 in
  w_files w' = w_files w ∧ w_dirs w' = w_dirs w ∧ w_globals w' = w_globals w
  ∧ (∀ name, name ∉ ["data"; "Nbls"; "freq_array"; "pols"; "vis_units"] →
             w_self w' !! name = w_self w !! name)
  ∧ ∃ new, w_warnings w' = (new ++ w_warnings w)%list
           ∧ Forall (λ msg, msg = optional_msg "pols" ∨ msg = optional_msg "vis_units") new.
Proof.
  intros w'. subst w'.
  destruct (keeps_store__read rp w) as (Hf & Hd & Hg).
  destruct (warns_among__read rp w) as (new & Hw & Hnew).
  split_and!; [done..| |].
  - intros name Hname. by apply _read_keeps_attr.
  - exists new. split; [done|].
    eapply Forall_impl; [exact Hnew|]. intros msg [<-|[<-|[]]]; auto.
Qed.

(** The world once all five attributes are loaded. *)
Definition loaded_all (vd vn vf vp vv : pyval R) (w : world R) : world R :=
  set_self (<["vis_units" := vv]> (<["pols" := vp]>
           (<["freq_array" := vf]> (<["Nbls" := vn]> (<["data" := vd]> (w_self w)))))) w.

(** X20: with the five keys given, their files in place and a data array
    that has a mask, [_read] returns, with the five attributes set to what
    the files hold and nothing else changed: no warning, no file. *)
Theorem _read_loads_all (rp : gmap string string) pd pn pf pp pv d vn vf vp vv (w : world R) :
  rp !! "data" = Some pd → rp !! "Nbls" = Some pn → rp !! "freq_array" = Some pf →
  rp !! "pols" = Some pp → rp !! "vis_units" = Some pv →
  loadable w pd (VMa (Masked d)) → loadable w pn vn → loadable w pf vf →
  loadable w pp vp → loadable w pv vv →
  _read rp w = (Ok tt, loaded_all (VMa (Masked d)) vn vf vp vv w).
Proof.
  intros Hd Hn Hf Hp Hv Ld Ln Lf Lp Lv. unfold _read.
  run_ok (read_required_all rp pd pn pf _ _ _ w Hd Hn Hf Ld Ln Lf).
  run_ok (read_fix_mask_masked _ d vn vf w eq_refl).
  simpl foreach.
  run_by ltac:(eapply read_optional_ok; [exact Hp | exact Lp]).
  run_by ltac:(eapply read_optional_ok; [exact Hv | exact Lv]).
  reflexivity.
Qed.

(** X21: the required keys are taken in turn, each loaded and assigned
    before the next is looked at: with [data] given and [Nbls] missing, the
    assertion fails with [self.data] already assigned; with [freq_array]
    missing, with [self.data] and [self.Nbls] assigned. *)
Theorem _read_stops_at_missing_key (rp : gmap string string) pd vd (w : world R) :
  rp !! "data" = Some pd → loadable w pd vd →
  (rp !! "Nbls" = None →
   _read rp w = (Raise (AssertionError (required_msg "Nbls")),
                 set_self (<["data" := vd]> (w_self w)) w))
  ∧ (∀ pn vn, rp !! "Nbls" = Some pn → loadable w pn vn → rp !! "freq_array" = None →
       _read rp w = (Raise (AssertionError (required_msg "freq_array")),
                     set_self (<["Nbls" := vn]> (<["data" := vd]> (w_self w))) w)).
Proof.
  intros Hd Ld. split.
  - intros Hn. unfold _read. apply bind_raise. simpl foreach.
    run_by ltac:(eapply read_required_ok; [exact Hd | exact Ld]).
    apply bind_raise. by apply read_required_missing.
  - intros pn vn Hn Ln Hf. unfold _read. apply bind_raise. simpl foreach.
    run_by ltac:(eapply read_required_ok; [exact Hd | exact Ld]).
    run_by ltac:(eapply read_required_ok; [exact Hn | exact Ln]).
    apply bind_raise. by apply read_required_missing.
Qed.

(** X22: [_read] takes the mask of the loaded data: a [data] file that
    holds anything but a masked array (a plain array, a list) stops it with
    [AttributeError] once the three required attributes are assigned. *)
Theorem _read_needs_masked_data (rp : gmap string string) pd pn pf vd vn vf (w : world R) :
  rp !! "data" = Some pd → rp !! "Nbls" = Some pn → rp !! "freq_array" = Some pf →
  loadable w pd vd → loadable w pn vn → loadable w pf vf →
  (∀ m, vd ≠ VMa m) →
  _read rp w = (Raise (AttributeError "mask"), loaded vd vn vf w).
Proof.
  intros Hd Hn Hf Ld Ln Lf Hvd. unfold _read.
  run_ok (read_required_all rp pd pn pf _ _ _ w Hd Hn Hf Ld Ln Lf).
  apply bind_raise. unfold read_fix_mask.
  run_by ltac:(apply getattr_ok, loaded_data).
  destruct vd; try reflexivity. by destruct (Hvd m).
Qed.

End ReadMore.

(** The five files of the store, read into an empty object. *)
Lemma _read_loads_all_witness :
  _read all_paths masked_store
  = (Ok tt, loaded_all (VMa spectrum_data) (VMa spectrum_counts) (VArr [1.5e8%float])
                       (VList [VStr "XX"]) (VStr "Jy") masked_store).
Proof.
  apply (_read_loads_all all_paths "in/data.npym" "in/Nbls.npym" "in/freq_array.npy"
           "in/pols.npy" "in/vis_units.npy");
    first [reflexivity | left; reflexivity | right; reflexivity].
Defined.

(** Only the path of the data is given. *)
Lemma _read_stops_at_missing_key_witness :
  _read (<["data" := "in/data.npym"]> ∅) masked_store
  = (Raise (AssertionError (required_msg "Nbls")),
     set_self (<["data" := VMa spectrum_data]> ∅) masked_store).
Proof.
  apply (_read_stops_at_missing_key (<["data" := "in/data.npym"]> ∅) "in/data.npym"
           (VMa spectrum_data) masked_store);
    first [reflexivity | left; reflexivity].
Defined.

(** The key [data] points at the frequencies, a plain array. *)
Lemma _read_needs_masked_data_witness :
  _read (<["data" := "in/freq_array.npy"]> required_paths) masked_store
  = (Raise (AttributeError "mask"),
     loaded (VArr [1.5e8%float]) (VMa spectrum_counts) (VArr [1.5e8%float]) masked_store).
Proof.
  apply (_read_needs_masked_data (<["data" := "in/freq_array.npy"]> required_paths)
           "in/freq_array.npy" "in/Nbls.npym" "in/freq_array.npy");
    first [reflexivity | left; reflexivity | right; reflexivity | discriminate].
Defined.

(** ** More on the brightness script *)

Section EventLists.

Import Brightness.

(** Induction on the objects, through the items of a tuple. *)
Fixpoint pyobj_items_ind (P : pyobj → Prop)
    (Hint : ∀ n, P (OInt n)) (Hstr : ∀ s, P (OStr s))
    (Hslice : ∀ lo hi, P (OSlice lo hi))
    (Htuple : ∀ l, Forall P l → P (OTuple l)) (e : pyobj) : P e :=
  match e with
  | OInt n => Hint n
  | OStr s => Hstr s
  | OSlice lo hi => Hslice lo hi
  | OTuple l =>
      Htuple l ((fix items (l : list pyobj) : Forall P l :=
                   match l with
                   | [] => @List.Forall_nil pyobj P
                   | x :: l' =>
                       @List.Forall_cons pyobj P x l' (pyobj_items_ind P Hint Hstr Hslice Htuple x)
                                       (items l')
                   end) l)
  end.

Lemma py_eq_tuple_cons (x y : pyobj) (l l' : list pyobj) :
  py_eq (OTuple (x :: l)) (OTuple (y :: l')) = py_eq x y && py_eq (OTuple l) (OTuple l').
Proof. reflexivity. Qed.

(** [==] on these objects is equality of values. *)
Lemma py_eq_true (a b : pyobj) : py_eq a b = true ↔ a = b.
Proof.
  revert b. induction a as [x|x|lo hi|l IH] using pyobj_items_ind; intros b.
  - destruct b; simpl; try (split; discriminate).
    rewrite Z.eqb_eq. split; congruence.
  - destruct b; simpl; try (split; discriminate).
    rewrite String.eqb_eq. split; congruence.
  - destruct b; simpl; try (split; discriminate).
    rewrite andb_true_iff, !Z.eqb_eq. split; [intros [-> ->]; done|intros [= -> ->]; done].
  - destruct b as [| | |l']; try (split; discriminate).
    revert l'. induction IH as [|x l Hx _ IHl]; intros l'.
    + destruct l'; simpl; [done|split; discriminate].
    + destruct l' as [|y l']; [split; discriminate|].
      rewrite py_eq_tuple_cons, andb_true_iff, Hx, IHl.
      split; [intros [-> [= ->]]; done|intros [= -> ->]; done].
Qed.

Lemma py_eq_refl (a : pyobj) : py_eq a a = true.
Proof. by apply py_eq_true. Qed.

(** [event[0] in broad_events_times] *)
Definition at_broad_time (times : list pyobj) (e : pyobj) : bool :=
  match first_item e with
  | Ok t => existsb (py_eq t) times
  | Raise _ => false
  end.

(** An event that has a first item. *)
Definition timed (e : pyobj) : Prop := ∃ t, first_item e = Ok t.

Lemma collect_remove_filter (events times : list pyobj) :
  Forall timed events →
  collect_remove events times = Ok (List.filter (at_broad_time times) events).
Proof.
  induction 1 as [|e l [t Ht] _ IH]; [reflexivity|].
  simpl. unfold at_broad_time at 1. rewrite Ht, IH. simpl.
  by destruct (existsb _ _).
Qed.

(** An event that is not removed stays at the head of the list. *)
Lemma remove_all_head (h : pyobj) (rm l : list pyobj) :
  Forall (λ e, py_eq h e = false) rm →
  remove_all rm (h :: l) = res_bind (remove_all rm l) (λ r, Ok (h :: r)).
Proof.
  intros Hrm. revert l. induction Hrm as [|e rm He _ IH]; intros l; [reflexivity|].
  simpl. rewrite He.
  destruct (list_remove e l) as [r|err]; simpl; [apply IH|reflexivity].
Qed.

Lemma remove_all_filter (p : pyobj → bool) (l : list pyobj) :
  remove_all (List.filter p l) l = Ok (List.filter (λ e, negb (p e)) l).
Proof.
  induction l as [|h l IH]; [reflexivity|].
  simpl. destruct (p h) eqn:Eh; simpl.
  - by rewrite py_eq_refl.
  - rewrite remove_all_head, IH; [reflexivity|].
    apply List.Forall_forall. intros e [_ He]%filter_In.
    destruct (py_eq h e) eqn:E; [|done].
    apply py_eq_true in E. congruence.
Qed.

(** X23: the two loops on [event_remove] take out of [events] exactly the
    events whose time index is among the given times and keep the others
    in their order; [events.remove] never fails. *)
Theorem event_removal_filters (events times : list pyobj) :
  Forall timed events →
  ∃ event_remove,
    collect_remove events times = Ok event_remove
    ∧ remove_all event_remove events
      = Ok (List.filter (λ e, negb (at_broad_time times e)) events).
Proof.
  intros Htimed. exists (List.filter (at_broad_time times) events).
  split; [by apply collect_remove_filter|apply remove_all_filter].
Qed.

End EventLists.

(** The index tuples of one observation, with the time index 3 among the
    broad times: the event at time 3 goes, the two others stay. *)
Lemma event_removal_filters_witness :
  ∃ event_remove,
    Brightness.collect_remove obs_tuples [Brightness.OInt 3] = Ok event_remove
    ∧ Brightness.remove_all event_remove obs_tuples
      = Ok [Brightness.OTuple [Brightness.OInt 4; Brightness.OInt 0; Brightness.OSlice 0 50];
            Brightness.OTuple [Brightness.OInt 5; Brightness.OInt 0; Brightness.OSlice 10 20]].
Proof.
  apply (event_removal_filters obs_tuples [Brightness.OInt 3]).
  repeat constructor; eexists; reflexivity.
Defined.

Section BrightDict.

Import Brightness.

Context {R : Type} {SC : Scalar R}.
Variable event_sum : pyobj → R.

(** A match event: a time index, further indices and the shape. *)
Definition is_event (e : pyobj) : Prop := ∃ t l shape, e = OTuple (t :: l ++ [shape]).

(** [event[:-1]] for an event of the shape, nothing for another event. *)
Definition of_shape (shape : string) (e : pyobj) : option pyobj :=
  match e with
  | OTuple l =>
      if py_eq (List.last l (OInt 0)) (OStr shape) then Some (OTuple (removelast l)) else None
  | _ => None
  end.

Lemma is_event_tuple (e : pyobj) : is_event e → is_tuple e.
Proof. intros (t & l & x & ->). by eexists. Qed.

Lemma events_of_shape_closed (match_events : list pyobj) (shape : string) :
  Forall is_event match_events →
  events_of_shape match_events shape = Ok (omap (of_shape shape) match_events).
Proof.
  unfold events_of_shape.
  induction 1 as [|e evs (t & l & x & ->) _ IH]; [reflexivity|].
  cbn [select last_item but_last res_bind]. rewrite IH.
  cbn -[py_eq List.last removelast].
  destruct (py_eq _ _); reflexivity.
Qed.

Lemma of_shape_timed (shape : string) (match_events : list pyobj) :
  Forall is_event match_events →
  Forall timed (omap (of_shape shape) match_events).
Proof.
  induction 1 as [|e evs (t & l & x & ->) _ IH]; [constructor|].
  cbn -[py_eq List.last removelast]. destruct (py_eq _ _); [|exact IH].
  constructor; [|exact IH]. exists t.
  change (t :: l ++ [x])%list with ((t :: l) ++ [x])%list. by rewrite removelast_last.
Qed.

Lemma no_broad_time (events : list pyobj) : List.filter (at_broad_time []) events = [].
Proof.
  induction events as [|e l IH]; [reflexivity|].
  simpl. unfold at_broad_time at 1. by destruct (first_item e).
Qed.

Lemma last_char_ok (shape : string) : shape ≠ "" → ∃ chan, last_char shape = Ok chan.
Proof. destruct shape; [done|]. intros _. unfold last_char. simpl. eauto. Qed.

Lemma summed_events_closed (match_events : list pyobj) (shape : string) :
  Forall is_event match_events → shape ≠ "" →
  summed_events match_events shape = Ok (omap (of_shape shape) match_events).
Proof.
  intros Hev Hshape. unfold summed_events.
  rewrite events_of_shape_closed by done. simpl.
  destruct (last_char_ok shape Hshape) as [chan ->]. simpl.
  case_bool_decide; [|reflexivity].
  rewrite broad_events_nil by (eapply Forall_impl; [exact Hev|apply is_event_tuple]).
  simpl. rewrite collect_remove_filter by (by apply of_shape_timed).
  simpl. by rewrite no_broad_time.
Qed.

(** X24: whatever the shape, also TV6, TV7 and TV8, the brightness of a
    shape is the sum over all the events of that shape of the data under
    their index tuples, added in the order of the events to the integer 0. *)
Theorem brightness_sums_every_event (match_events : list pyobj) (shape : string) :
  Forall is_event match_events → shape ≠ "" →
  brightness event_sum match_events shape
  = Ok (fold_left (λ sum e, radd sum (event_sum e))
                  (omap (of_shape shape) match_events) (of_int 0)).
Proof.
  intros Hev Hshape. unfold brightness.
  by rewrite summed_events_closed.
Qed.

(** Every shape of the command line is a key of the dictionary. *)
Definition has_keys (shapes : list string) (bright : gmap string (gmap string R)) : Prop :=
  ∀ shape, In shape shapes → is_Some (bright !! shape).

Lemma init_bright_keys (shapes : list string) : has_keys shapes (init_bright shapes).
Proof.
  unfold init_bright.
  assert (∀ acc : gmap string (gmap string R),
            ∀ shape, In shape shapes ∨ is_Some (acc !! shape) →
                     is_Some (fold_left (λ d shape, <[shape := ∅]> d) shapes acc !! shape))
    as H; [|intros shape Hs; apply H; by left].
  induction shapes as [|s shapes IH]; intros acc shape Hin; simpl.
  - destruct Hin as [[]|Hin]; exact Hin.
  - apply IH. destruct Hin as [[<-|Hin]|Hin]; [right|by left|right].
    + rewrite lookup_insert_eq. eauto.
    + destruct (decide (s = shape)) as [->|Hne].
      * rewrite lookup_insert_eq. eauto.
      * by rewrite lookup_insert_ne.
Qed.

Lemma shape_loop_run (match_events : list pyobj) (obs : string) (shapes : list string)
    (bright : gmap string (gmap string R)) :
  Forall is_event match_events → Forall (λ shape, shape ≠ "") shapes →
  has_keys shapes bright →
  ∃ bright',
    shape_loop event_sum match_events obs shapes bright = Ok bright'
    ∧ (∀ shape, is_Some (bright' !! shape) ↔ is_Some (bright !! shape))
    ∧ (∀ shape, In shape shapes →
         ∃ sum per, brightness event_sum match_events shape = Ok sum
                    ∧ bright' !! shape = Some per ∧ per !! obs = Some sum)
    ∧ (∀ shape per o, bright !! shape = Some per → o ≠ obs →
         ∃ per', bright' !! shape = Some per' ∧ per' !! o = per !! o)
    ∧ (∀ shape, ¬ In shape shapes → bright' !! shape = bright !! shape).
Proof.
  intros Hev Hshapes. revert bright.
  induction Hshapes as [|shape shapes Hshape _ IH]; intros bright Hkeys.
  - exists bright. split_and!; [done|done| |eauto|done]. intros shape [].
  - cbn [shape_loop].
    unfold brightness at 1. rewrite summed_events_closed by done. cbn [res_bind].
    set (sum := fold_left _ _ _).
    destruct (Hkeys shape) as [per0 Hper0]; [by left|]. rewrite Hper0.
    destruct (IH (<[shape := <[obs := sum]> per0]> bright))
      as (bright' & Hrun & Hdom & Hset & Hkeep & Hother).
    { intros s Hs. destruct (decide (shape = s)) as [->|Hne].
      - rewrite lookup_insert_eq. eauto.
      - rewrite lookup_insert_ne by done. apply Hkeys. by right. }
    exists bright'. split_and!; [exact Hrun|..].
    + intros s. rewrite Hdom. destruct (decide (shape = s)) as [->|Hne].
      * rewrite lookup_insert_eq, Hper0. split; eauto.
      * by rewrite lookup_insert_ne.
    + intros s [<-|Hs]; [|by apply Hset].
      destruct (in_dec string_dec shape shapes) as [Hin|Hnin]; [by apply Hset|].
      exists sum, (<[obs := sum]> per0). split_and!.
      * unfold brightness. by rewrite summed_events_closed.
      * rewrite Hother by done. apply lookup_insert_eq.
      * apply lookup_insert_eq.
    + intros s per o Hper Ho. destruct (decide (shape = s)) as [->|Hne].
      * rewrite Hper0 in Hper. injection Hper as <-.
        destruct (Hkeep s (<[obs := sum]> per0) o) as (per' & Hper' & Ho');
          [apply lookup_insert_eq|done|].
        exists per'. split; [done|]. rewrite Ho'. by apply lookup_insert_ne.
      * apply Hkeep; [|done]. by rewrite lookup_insert_ne.
    + intros s Hs. rewrite Hother by (intros ?; apply Hs; by right).
      apply lookup_insert_ne. intros ->. apply Hs. by left.
Qed.

(** X25: the dictionary made from the shapes of the command line has every
    shape as a key, and the loop over the shapes keeps it so: on match
    events with a time index and a shape, and shapes that are not empty, it
    never raises [KeyError]; it stores the brightness of each shape under
    the observation and leaves the entries of the other observations and
    the other keys as they were. *)
Theorem shape_loop_fills_dict (match_events : list pyobj) (obs : string)
    (shapes : list string) (bright : gmap string (gmap string R)) :
  Forall is_event match_events → Forall (λ shape, shape ≠ "") shapes →
  bright = init_bright shapes ∨ has_keys shapes bright →
  ∃ bright',
    shape_loop event_sum match_events obs shapes bright = Ok bright'
    ∧ has_keys shapes bright'
    ∧ (∀ shape, In shape shapes →
         ∃ sum per, brightness event_sum match_events shape = Ok sum
                    ∧ bright' !! shape = Some per ∧ per !! obs = Some sum)
    ∧ (∀ shape per o, bright !! shape = Some per → o ≠ obs →
         ∃ per', bright' !! shape = Some per' ∧ per' !! o = per !! o)
    ∧ (∀ shape, ¬ In shape shapes → bright' !! shape = bright !! shape).
Proof.
  intros Hev Hshapes Hbright.
  assert (has_keys shapes bright) as Hkeys.
  { destruct Hbright as [->|H]; [apply init_bright_keys|exact H]. }
  destruct (shape_loop_run match_events obs shapes bright Hev Hshapes Hkeys)
    as (bright' & Hrun & Hdom & Hset & Hkeep & Hother).
  exists bright'. split_and!; try done.
  intros shape Hs. apply Hdom. by apply Hkeys.
Qed.

End BrightDict.

(** The two TV7 events of the observation are summed, the streak is not. *)
Lemma brightness_sums_every_event_witness :
  Brightness.brightness (λ _, 1%float) obs_events "TV7"
  = Ok (PrimFloat.add (PrimFloat.add (F64.of_Z 0) 1%float) 1%float).
Proof.
  rewrite (brightness_sums_every_event (λ _, 1%float) obs_events "TV7").
  - reflexivity.
  - repeat constructor.
    + by exists (Brightness.OInt 3), [Brightness.OInt 0; Brightness.OSlice 10 20],
                (Brightness.OStr "TV7").
    + by exists (Brightness.OInt 4), [Brightness.OInt 0; Brightness.OSlice 0 50],
                (Brightness.OStr "streak").
    + by exists (Brightness.OInt 5), [Brightness.OInt 0; Brightness.OSlice 10 20],
                (Brightness.OStr "TV7").
  - discriminate.
Defined.

(** The first observation of a run on the shapes TV7 and streak. *)
Lemma shape_loop_fills_dict_witness :
  ∃ bright',
    Brightness.shape_loop (λ _, 1%float) obs_events "1061313128" ["TV7"; "streak"]
                          (Brightness.init_bright ["TV7"; "streak"]) = Ok bright'
    ∧ (∃ per, bright' !! "TV7" = Some per
              ∧ per !! "1061313128"
                = Some (PrimFloat.add (PrimFloat.add (F64.of_Z 0) 1%float) 1%float))
    ∧ (∃ per, bright' !! "streak" = Some per
              ∧ per !! "1061313128" = Some (PrimFloat.add (F64.of_Z 0) 1%float)).
Proof.
  destruct (shape_loop_fills_dict (λ _, 1%float) obs_events "1061313128" ["TV7"; "streak"]
              (Brightness.init_bright ["TV7"; "streak"]))
    as (bright' & Hrun & _ & Hset & _).
  - repeat constructor.
    + by exists (Brightness.OInt 3), [Brightness.OInt 0; Brightness.OSlice 10 20],
                (Brightness.OStr "TV7").
    + by exists (Brightness.OInt 4), [Brightness.OInt 0; Brightness.OSlice 0 50],
                (Brightness.OStr "streak").
    + by exists (Brightness.OInt 5), [Brightness.OInt 0; Brightness.OSlice 10 20],
                (Brightness.OStr "TV7").
  - repeat constructor; discriminate.
  - by left.
  - exists bright'. split; [exact Hrun|]. split.
    + destruct (Hset "TV7") as (sum & per & Hsum & Hper & Hobs); [by left|].
      exists per. split; [exact Hper|]. rewrite Hobs. f_equal.
      injection Hsum as <-. reflexivity.
    + destruct (Hset "streak") as (sum & per & Hsum & Hper & Hobs); [right; by left|].
      exists per. split; [exact Hper|]. rewrite Hobs. f_equal.
      injection Hsum as <-. reflexivity.
Defined.
